(** * props-model: the property store, its change events and its facades

    A shallow embedding of [PropsModel] (lib/props-model.js) and a
    verification of the statements its specification makes about it.

    The class keeps three pieces of mutable state: [_props] (a plain object
    used as a map from property name to a record), [_firedProps] (a [Set] of
    names) and the event emitter it was constructed with.  The closures the
    [define*] methods subscribe to the emitter call back into [set], so the
    embedding is a state-and-exception monad over the whole store, with the
    recursion through [set] counted by a fuel argument.

    Modelling conventions:
    - JavaScript values are the type [val]; object references are opaque
      identities, numbers are integers (no floating point, no NaN).
    - Caller-supplied functions are pure: a [valueValidator] either accepts
      or throws a payload, [didChange] returns a boolean, the compute and
      reduce functions either return or throw.
    - The listeners the store itself subscribes are defunctionalised
      ([handler]).  Delivery to any other subscriber is represented by the
      [trace] of the store, which records every assignment to a property's
      value and every [emit] in the order in which they happen.
    - [_props] is a plain object, so a name that is not a property of its
      own is looked up in [Object.prototype]: [_props m !! name] is the
      own-property lookup, [inherited name] says that the prototype has a
      member of that name, and each place where the code reads
      [this._props[name]] says what it does with such a member. *)

From Stdlib Require Import Ascii.
From stdpp Require Import base tactics option list gmap strings.

(** ** Values and errors *)

Inductive val :=
| VUndefined
| VNull
| VBool (b : bool)
| VNum (n : Z)
| VStr (s : string)
| VObj (ref : positive).

#[global] Instance val_eq_dec : EqDecision val.
Proof. solve_decision. Defined.

(** [typeof v === 'undefined'] *)
Definition typeof_undefined (v : val) : bool :=
  match v with VUndefined => true | _ => false end.

(** Everything the code can throw.  The source throws plain [Error]s that
    differ by their message; each message is a constructor.  [Raised] is
    whatever a caller-supplied function threw, [TypeError] a member access
    on [undefined] or the call of a member that is not there. *)
Inductive error :=
| PropertyAlreadyDefined (propName : string)
| NoSuchProperty (propName : string)
| UnknownUtilizedProperty (propName : string)
| AccessNotAllowed (propName : string)
| NotPubliclyAccessible (propName : string)
| DerivedWriteDenied (propName : string)
| Raised (payload : val)
| TypeError.

(** The error kinds of the specification. *)
Inductive errorKind :=
| DuplicateNameError
| NoSuchPropertyError
| AccessDeniedError
| ValidationRejectedError
| OtherError.

Definition kind_of (e : error) : errorKind :=
  match e with
  | PropertyAlreadyDefined _ => DuplicateNameError
  | NoSuchProperty _ => NoSuchPropertyError
  | AccessNotAllowed _ | NotPubliclyAccessible _ | DerivedWriteDenied _ =>
      AccessDeniedError
  | Raised _ => ValidationRejectedError
  | UnknownUtilizedProperty _ | TypeError => OtherError
  end.

(** The completion of a caller-supplied function. *)
Inductive completion :=
| Return (v : val)
| Raise (payload : val).

(** ** The store *)

(** One entry of [_props]. *)
Record prop := Prop_ {
  value : val;
  derived : bool;
  valueValidator : val -> option val;
  didChange : val -> val -> bool
}.

(** The function [_createUtilizer] returns: the names it reads and the
    function it delegates to. *)
Record utilizer := Utilizer {
  propNames : list string;
  delegate : list val -> completion
}.

(** The three closures the store subscribes to change events:
    - [RecomputeDerived]: [() => { this.set(propName, calculateValue()) }]
    - [RecomputeView]: [() => { if (!triggered) this.set(viewName, calculateValue()) }]
    - [ReduceBase]: the listener of the view that writes the base back.
    [reduceBaseValue] is bound to an object whose [get] reads the store;
    it receives that reader as its first argument here. *)
Inductive handler :=
| RecomputeDerived (propName : string) (calculateValue : utilizer)
| RecomputeView (viewName : string) (calculateValue : utilizer)
| ReduceBase (viewName viewOf : string)
    (reduceBaseValue : (string -> option val) -> val -> val -> completion).

(** What happens to the store and to the emitter, in order. *)
Inductive event :=
| Assigned (propName : string) (newValue : val)
| PropChanged (propName : string) (newValue oldValue : val)
| PropChainCompleted (firedProps : list string).

Record PropsModel := Model {
  _props : gmap string prop;
  _firedProps : list string;
  _events : gmap string (list handler);
  triggered : gmap string bool;
  trace : list event
}.

(** [new PropsModel(eventEmitter)] with a fresh emitter. *)
Definition newPropsModel : PropsModel :=
  {| _props := ∅; _firedProps := []; _events := ∅; triggered := ∅; trace := [] |}.

(** ** The monad *)

Inductive outcome (A : Type) :=
| Returned (a : A) (m : PropsModel)
| Thrown (e : error) (m : PropsModel)
| Diverged.
Arguments Returned {A} a m.
Arguments Thrown {A} e m.
Arguments Diverged {A}.

Definition M (A : Type) : Type := PropsModel -> outcome A.

Definition ret {A} (a : A) : M A := fun m => Returned a m.
Definition throw {A} (e : error) : M A := fun m => Thrown e m.
Definition bind {A B} (c : M A) (k : A -> M B) : M B :=
  fun m =>
    match c m with
    | Returned a m' => k a m'
    | Thrown e m' => Thrown e m'
    | Diverged => Diverged
    end.
Definition this : M PropsModel := fun m => Returned m m.
Definition update (f : PropsModel -> PropsModel) : M unit :=
  fun m => Returned tt (f m).

Notation "'let*' x ':=' c 'in' k" := (bind c (fun x => k))
  (at level 10, x pattern, c at level 100, k at level 200).
Notation "c '>>' k" := (bind c (fun _ => k))
  (at level 90, right associativity).

(** [Array.prototype.forEach] with a callback that may throw. *)
Fixpoint forEach {A} (l : list A) (f : A -> M unit) : M unit :=
  match l with
  | [] => ret tt
  | x :: l' => f x >> forEach l' f
  end.

(** [Array.prototype.filter] with a callback that may throw. *)
Fixpoint filterM {A} (l : list A) (f : A -> M bool) : M (list A) :=
  match l with
  | [] => ret []
  | x :: l' =>
      let* b := f x in
      let* r := filterM l' f in
      ret (if b : bool then x :: r else r)
  end.

(** ** State updates *)

Definition set_props (f : gmap string prop -> gmap string prop) (m : PropsModel) :=
  {| _props := f (_props m); _firedProps := _firedProps m;
     _events := _events m; triggered := triggered m; trace := trace m |}.

Definition set_firedProps (f : list string -> list string) (m : PropsModel) :=
  {| _props := _props m; _firedProps := f (_firedProps m);
     _events := _events m; triggered := triggered m; trace := trace m |}.

Definition set_events (f : gmap string (list handler) -> gmap string (list handler))
    (m : PropsModel) :=
  {| _props := _props m; _firedProps := _firedProps m;
     _events := f (_events m); triggered := triggered m; trace := trace m |}.

Definition set_triggered (viewName : string) (b : bool) (m : PropsModel) :=
  {| _props := _props m; _firedProps := _firedProps m;
     _events := _events m; triggered := <[viewName := b]> (triggered m);
     trace := trace m |}.

Definition record (e : event) (m : PropsModel) :=
  {| _props := _props m; _firedProps := _firedProps m;
     _events := _events m; triggered := triggered m; trace := trace m ++ [e] |}.

(** [Set.prototype.add]: insertion order, no duplicates. *)
Definition Set_add (x : string) (s : list string) : list string :=
  if bool_decide (x ∈ s) then s else s ++ [x].

Definition with_value (v : val) (p : prop) : prop :=
  {| value := v; derived := derived p;
     valueValidator := valueValidator p; didChange := didChange p |}.

(** [this._props[propName].value = v] *)
Definition assign (propName : string) (v : val) (m : PropsModel) : PropsModel :=
  record (Assigned propName v) (set_props (alter (with_value v) propName) m).

(** The names of the members of [Object.prototype], which every plain
    object inherits.  Each is a function, or for [__proto__] the prototype
    itself: truthy, and without a member [value], [derived],
    [valueValidator] or [didChange]. *)
Definition Object_prototype : list string :=
  ["constructor"; "__defineGetter__"; "__defineSetter__"; "hasOwnProperty";
   "__lookupGetter__"; "__lookupSetter__"; "isPrototypeOf";
   "propertyIsEnumerable"; "toString"; "valueOf"; "__proto__"; "toLocaleString"].

Definition inherited (propName : string) : bool :=
  bool_decide (propName ∈ Object_prototype).

(** [this._props[propName]] where the code goes on to call a member of the
    record ([valueValidator], [didChange]) or has just done so: it is a
    [TypeError] to read a member of [undefined], and to call the member
    that a function inherited from [Object.prototype] does not have. *)
Definition the_prop (propName : string) : M prop :=
  fun m =>
    match _props m !! propName with
    | Some p => Returned p m
    | None => Thrown TypeError m
    end.

(** Whether [this._props[propName]] is truthy: a record of the store or an
    inherited member. *)
Definition known (propName : string) (m : PropsModel) : bool :=
  match _props m !! propName with
  | Some _ => true
  | None => inherited propName
  end.

(** The value of [this._props[propName].value] where [this._props[propName]]
    is truthy: an inherited member has no [value]. *)
Definition read (propName : string) (m : PropsModel) : option val :=
  match _props m !! propName with
  | Some p => Some (value p)
  | None => if inherited propName then Some VUndefined else None
  end.

(** [this._props[propName].value] *)
Definition the_value (propName : string) : M val :=
  fun m =>
    match read propName m with
    | Some v => Returned v m
    | None => Thrown TypeError m
    end.

Definition is_triggered (viewName : string) (m : PropsModel) : bool :=
  default false (triggered m !! viewName).

(** The name of the channel of a property's change events. *)
Definition changed (propName : string) : string := propName +:+ "-changed".

Definition listeners (eventName : string) (m : PropsModel) : list handler :=
  default [] (_events m !! eventName).

(** [EventEmitter.prototype.on]: the listener goes to the end of the list
    of its event. *)
Definition subscribe (eventName : string) (h : handler) (m : PropsModel) : PropsModel :=
  set_events (fun ev => <[eventName := default [] (ev !! eventName) ++ [h]]> ev) m.

Definition on (eventName : string) (h : handler) : M unit :=
  update (subscribe eventName h).

(** A validator of property names, as [_set] and [_get] receive it: it may
    read the store and throws or returns. *)
Definition propValidator := PropsModel -> string -> option error.

Definition validate (pv : propValidator) (propName : string) : M unit :=
  fun m => match pv m propName with Some e => Thrown e m | None => Returned tt m end.

(** [() => {}] *)
Definition noValidator : propValidator := fun _ _ => None.

Definition NOOP : val -> option val := fun _ => None.

Definition defaultDidChange (newValue oldValue : val) : bool :=
  negb (bool_decide (newValue = oldValue)).

Definition complete (c : completion) : M val :=
  match c with
  | Return v => ret v
  | Raise payload => throw (Raised payload)
  end.

(** [propNames.map((propName) => this._props[propName].value)] *)
Fixpoint values_of (names : list string) : M (list val) :=
  match names with
  | [] => ret []
  | n :: rest =>
      let* v := the_value n in
      let* vs := values_of rest in
      ret (v :: vs)
  end.

(** Calling the function [_createUtilizer] returned, without arguments. *)
Definition call_utilizer (u : utilizer) : M val :=
  let* values := values_of (propNames u) in
  complete (delegate u values).

Definition _get (pv : propValidator) (propName : string) : M val :=
  validate pv propName >>
  let* m := this in
  match read propName m with
  | None => throw (NoSuchProperty propName)
  | Some v => ret v
  end.

(** The two signatures of [set]. *)
Inductive setArgs :=
| SetOne (propName : string) (v : val)
| SetMany (propValues : list (string * val)).

(** ** Firing, listening and setting

    [set] is reached again from the listeners it notifies.  The functions of
    this section take the [set] of the next nesting level as a variable. *)

Section Cascade.
Variable set_rec : propValidator -> setArgs -> M unit.

Definition run_handler (h : handler) (propName : string)
    (newValue oldValue : val) : M unit :=
  match h with
  | RecomputeDerived target calculateValue =>
      let* v := call_utilizer calculateValue in
      set_rec noValidator (SetOne target v)
  | RecomputeView viewName calculateValue =>
      let* m := this in
      if is_triggered viewName m then ret tt
      else
        let* v := call_utilizer calculateValue in
        set_rec noValidator (SetOne viewName v)
  | ReduceBase viewName viewOf reduceBaseValue =>
      let* base := _get noValidator viewOf in
      let* m := this in
      let* newViewOfValue :=
        complete (reduceBaseValue (fun n => read n m) newValue base) in
      update (set_triggered viewName true) >>
      set_rec noValidator (SetOne viewOf newViewOfValue) >>
      update (set_triggered viewName false)
  end.

(** [emit(`${propName}-changed`, propName, newValue, oldValue)]: the
    listeners registered at the time of the call run in order. *)
Definition emit_changed (propName : string) (newValue oldValue : val) : M unit :=
  update (record (PropChanged propName newValue oldValue)) >>
  let* m := this in
  forEach (listeners (changed propName) m)
    (fun h => run_handler h propName newValue oldValue).

(** [emit('prop-chain-completed', Array.from(this._firedProps))] *)
Definition emit_chain_completed : M unit :=
  let* m := this in
  update (record (PropChainCompleted (_firedProps m))).

Definition _firePropChangeEvents (events : list (string * (val * val))) : M unit :=
  let* m := this in
  let firstInChain := bool_decide (length (_firedProps m) = 0) in
  forEach events (fun '(propName, (newValue, oldValue)) =>
    update (set_firedProps (Set_add propName)) >>
    emit_changed propName newValue oldValue) >>
  if firstInChain then
    emit_chain_completed >>
    update (set_firedProps (fun _ => []))
  else ret tt.

Definition _firePropChangeEvent (propName : string) (newValue oldValue : val) : M unit :=
  _firePropChangeEvents [(propName, (newValue, oldValue))].

Definition check_exists (propName : string) : M unit :=
  let* m := this in
  if known propName m then ret tt else throw (NoSuchProperty propName).

Definition check_value (entry : string * val) : M unit :=
  let* p := the_prop entry.1 in
  match valueValidator p entry.2 with
  | Some payload => throw (Raised payload)
  | None => ret tt
  end.

(** The loop of [_set] that pushes each old value and assigns the new one.
    It is reached when [valueValidator] has been called on the record of
    every entry. *)
Fixpoint assign_all (entries : list (string * val)) (oldValues : list val)
    : M (list val) :=
  match entries with
  | [] => ret oldValues
  | (propName, v) :: rest =>
      let* p := the_prop propName in
      update (assign propName v) >>
      assign_all rest (oldValues ++ [value p])
  end.

Definition _set_body (pv : propValidator) (args : setArgs) : M unit :=
  match args with
  | SetMany propValues =>
      forEach propValues.*1 check_exists >>
      forEach propValues.*1 (validate pv) >>
      forEach propValues check_value >>
      let* oldValues := assign_all propValues [] in
      let* changeEvents :=
        filterM
          (imap (fun idx '(propName, v) =>
                   (propName, (v, nth idx oldValues VUndefined))) propValues)
          (fun '(propName, (newValue, oldValue)) =>
             let* p := the_prop propName in
             ret (didChange p newValue oldValue)) in
      _firePropChangeEvents changeEvents
  | SetOne propName v =>
      check_exists propName >>
      validate pv propName >>
      check_value (propName, v) >>
      let* p := the_prop propName in
      let oldValue := value p in
      update (assign propName v) >>
      let* p' := the_prop propName in
      if didChange p' v oldValue
      then _firePropChangeEvent propName v oldValue
      else ret tt
  end.
End Cascade.

(** [_set], with the depth of nested calls bounded by [fuel]. *)
Fixpoint _set (fuel : nat) (pv : propValidator) (args : setArgs) : M unit :=
  match fuel with
  | O => fun _ => Diverged
  | S fuel' => _set_body (_set fuel') pv args
  end.

(** ** Defining properties *)

Definition _createUtilizer (pv : propValidator) (names : list string)
    (f : list val -> completion) : M utilizer :=
  forEach names (validate pv) >>
  forEach names (fun propName =>
    let* m := this in
    if known propName m then ret tt
    else throw (UnknownUtilizedProperty propName)) >>
  ret (Utilizer names f).

Definition createUtilizer := _createUtilizer noValidator.

Definition _onAny (pv : propValidator) (names : list string) (h : handler) : M unit :=
  forEach names (validate pv) >>
  forEach names (fun propName => on (changed propName) h).

Definition check_undefined (propName : string) : M unit :=
  let* m := this in
  if known propName m then throw (PropertyAlreadyDefined propName) else ret tt.

Definition defineProp (fuel : nat) (propName : string) (initialValue : val)
    (valueValidator : val -> option val) (didChange : val -> val -> bool) : M unit :=
  check_undefined propName >>
  update (set_props (insert propName
    {| value := initialValue; derived := false;
       valueValidator := valueValidator; didChange := didChange |})) >>
  if didChange initialValue VUndefined
  then _firePropChangeEvent (_set fuel) propName initialValue VUndefined
  else ret tt.

(** An omitted [initialValue] is [VUndefined], as in the source. *)
Definition defineDerivedProp (fuel : nat) (propName : string)
    (dependsOn : list string) (_calculateValue : list val -> completion)
    (initialValue : val) (didChange : val -> val -> bool) : M unit :=
  check_undefined propName >>
  let* calculateValue := createUtilizer dependsOn _calculateValue in
  let* v := (if typeof_undefined initialValue
             then call_utilizer calculateValue
             else ret initialValue) in
  update (set_props (insert propName
    {| value := v; derived := true;
       valueValidator := fun _ => None; didChange := didChange |})) >>
  _onAny noValidator dependsOn (RecomputeDerived propName calculateValue) >>
  if didChange v VUndefined
  then _firePropChangeEvent (_set fuel) propName v VUndefined
  else ret tt.

(** A function of one parameter called with the spread of a list. *)
Definition unary (f : val -> completion) : list val -> completion :=
  fun args => f (nth 0 args VUndefined).

Definition definePropView (fuel : nat) (viewName viewOf : string)
    (calculateViewValue : val -> completion)
    (reduceBaseValue : (string -> option val) -> val -> val -> completion)
    (didChange : val -> val -> bool) : M unit :=
  check_undefined viewName >>
  let* calculateValue := createUtilizer [viewOf] (unary calculateViewValue) in
  let* v := call_utilizer calculateValue in
  update (set_props (insert viewName
    {| value := v; derived := true;
       valueValidator := fun _ => None; didChange := didChange |})) >>
  update (set_triggered viewName false) >>
  _onAny noValidator [viewOf] (RecomputeView viewName calculateValue) >>
  _onAny noValidator [viewName] (ReduceBase viewName viewOf reduceBaseValue) >>
  if didChange v VUndefined
  then _firePropChangeEvent (_set fuel) viewName v VUndefined
  else ret tt.

(** ** The store's own [set] and [get], and the facades *)

Definition set (fuel : nat) (args : setArgs) : M unit := _set fuel noValidator args.
Definition get (propName : string) : M val := _get noValidator propName.

(** What a [readChecker] returns: a truthy value, a falsy one or an [Error]. *)
Inductive checkResult :=
| Truthy
| Falsy
| AnError (e : error).

Definition propertyCheckerToValidator (checker : string -> checkResult) : propValidator :=
  fun _ propName =>
    match checker propName with
    | AnError e => Some e
    | Falsy => Some (AccessNotAllowed propName)
    | Truthy => None
    end.

Definition propNameIsPublic (propName : string) : bool :=
  match propName with
  | String "_"%char _ => false
  | _ => true
  end.

Definition assertPropNameIsPublic : propValidator :=
  fun _ propName =>
    if propNameIsPublic propName then None
    else Some (NotPubliclyAccessible propName).

(** The validator reads [_props] of the store when it is called:
    [if (propModel._props[propName].derived)].  An inherited member has no
    [derived], which counts as false. *)
Definition createStandardWriteValidator : propValidator :=
  fun m propName =>
    match _props m !! propName with
    | None => if inherited propName then None else Some TypeError
    | Some p =>
        if derived p then Some (DerivedWriteDenied propName) else None
    end.

(** The members of the object [createApi] returns that read or write a
    property. *)
Record PropsModelApi := Api {
  api_get : string -> M val;
  api_set : nat -> setArgs -> M unit;
  api_createUtilizer : list string -> (list val -> completion) -> M utilizer
}.

(** A parameter with a default value is [None] when the caller omits it. *)
Definition createApi (readChecker : string -> checkResult)
    (readValidator writeValidator : option propValidator) : PropsModelApi :=
  let readValidator := default (propertyCheckerToValidator readChecker) readValidator in
  let writeValidator := default readValidator writeValidator in
  {| api_get := _get readValidator;
     api_set := fun fuel => _set fuel writeValidator;
     api_createUtilizer := _createUtilizer readValidator |}.

Definition getStandardPublicApi : PropsModelApi :=
  createApi (fun n => if propNameIsPublic n then Truthy else Falsy)
    (Some assertPropNameIsPublic)
    (Some (fun m propName =>
             match assertPropNameIsPublic m propName with
             | Some e => Some e
             | None => createStandardWriteValidator m propName
             end)).

Definition getStandardPrivateApi : PropsModelApi :=
  createApi (fun _ => Truthy) (Some noValidator) (Some createStandardWriteValidator).

(** ** Reading a store *)

Definition state_of {A} (o : outcome A) : option PropsModel :=
  match o with
  | Returned _ m | Thrown _ m => Some m
  | Diverged => None
  end.

Definition value_of (propName : string) (m : PropsModel) : option val :=
  value <$> _props m !! propName.

(** The current values of the named properties, in the order given, as
    the code reads them. *)
Fixpoint current_values (names : list string) (m : PropsModel) : option (list val) :=
  match names with
  | [] => Some []
  | n :: rest =>
      match read n m, current_values rest m with
      | Some v, Some vs => Some (v :: vs)
      | _, _ => None
      end
  end.

(** The events recorded between two stores of one run. *)
Definition trace_since (before after : PropsModel) : list event :=
  drop (length (trace before)) (trace after).

(** The store a program leaves behind. *)
Definition after {A} (c : M A) (m : PropsModel) : PropsModel :=
  match c m with
  | Returned _ m' | Thrown _ m' => m'
  | Diverged => m
  end.

(** ** Specifications

    The predicates the theorems are stated with. *)

(** [hoare P c Q E]: from a store that satisfies [P], [c] returns in a
    store that satisfies [Q] or throws in one that satisfies [E]. *)
Definition hoare {A} (P : PropsModel -> Prop) (c : M A)
    (Q : A -> PropsModel -> Prop) (E : error -> PropsModel -> Prop) : Prop :=
  forall m, P m ->
    match c m with
    | Returned a m' => Q a m'
    | Thrown e m' => E e m'
    | Diverged => True
    end.

(** A program that leaves the store as it found it. *)
Definition pure {A} (c : M A) : Prop :=
  forall m, match c m with
            | Returned _ m' | Thrown _ m' => m' = m
            | Diverged => False
            end.

(** [c] maintains [I], whether it returns or throws. *)
Definition maintains (I : PropsModel -> Prop) {A} (c : M A) : Prop :=
  hoare I c (fun _ => I) (fun _ => I).

(** [c] maintains [I], and goes on for ever only if [D]. *)
Definition keeps {A} (D : Prop) (I : PropsModel -> Prop) (c : M A) : Prop :=
  forall m, I m ->
    match c m with
    | Returned _ m' | Thrown _ m' => I m'
    | Diverged => D
    end.

(** From a store that satisfies [P], if [c] returns, it does so in a store
    that satisfies [Q]. *)
Definition leads {A} (P : PropsModel -> Prop) (c : M A) (Q : PropsModel -> Prop) : Prop :=
  hoare P c (fun _ => Q) (fun _ _ => True).

Definition args_names (args : setArgs) : list string :=
  match args with
  | SetOne propName _ => [propName]
  | SetMany propValues => propValues.*1
  end.

(** The entries of a call of [set]. *)
Definition entries (args : setArgs) : list (string * val) :=
  match args with
  | SetOne propName v => [(propName, v)]
  | SetMany propValues => propValues
  end.

(** The property a listener writes. *)
Definition target (h : handler) : string :=
  match h with
  | RecomputeDerived propName _ => propName
  | RecomputeView viewName _ => viewName
  | ReduceBase _ viewOf _ => viewOf
  end.

(** A property without its value. *)
Definition shape (p : prop) : bool * (val -> option val) * (val -> val -> bool) :=
  (derived p, valueValidator p, didChange p).

(** Same subscriptions, same properties, same kinds, validators and change
    predicates. *)
Definition static_same (m0 m : PropsModel) : Prop :=
  _events m = _events m0 /\ shape <$> _props m = shape <$> _props m0.

(** No listener of the store writes [name]. *)
Definition no_listener_writes (name : string) (m : PropsModel) : Prop :=
  map_Forall (fun _ hs => Forall (fun h => target h <> name) hs) (_events m).

(** ** Traces and bulk writes *)

(** The trace of [m] continues the trace of [m0]. *)
Definition extends_trace (m0 m : PropsModel) : Prop :=
  exists rest, trace m = trace m0 ++ rest.

(** The store after one change event was added to the batch and emitted,
    before its listeners run. *)
Definition announce (m : PropsModel) (ev : string * (val * val)) : PropsModel :=
  record (PropChanged ev.1 ev.2.1 ev.2.2) (set_firedProps (Set_add ev.1) m).

(** What [_firePropChangeEvents] does for one change event. *)
Definition step_of (set_rec : propValidator -> setArgs -> M unit)
    (ev : string * (val * val)) : M unit :=
  update (set_firedProps (Set_add (fst ev))) >>
  emit_changed set_rec (fst ev) (fst (snd ev)) (snd (snd ev)).

(** The end of [_firePropChangeEvents] that started in [m0] and has reached [m]. *)
Definition settle (m0 m : PropsModel) : PropsModel :=
  if bool_decide (length (_firedProps m0) = 0)
  then set_firedProps (fun _ => []) (record (PropChainCompleted (_firedProps m)) m)
  else m.

(** The old values the assignment loop of a bulk [set] pushes. *)
Fixpoint olds_of (propValues : list (string * val)) (m : PropsModel) : list val :=
  match propValues with
  | [] => []
  | (k, v) :: rest => default VUndefined (value_of k m) :: olds_of rest (assign k v m)
  end.

(** The store after the assignment loop. *)
Definition assigned (propValues : list (string * val)) (m : PropsModel) : PropsModel :=
  foldl (fun m kv => assign kv.1 kv.2 m) m propValues.

(** The change events of a bulk write: one for each entry whose property's
    change predicate reports a change from the value the store held to the
    new one, in the order of the entries. *)
Definition change_events (propValues : list (string * val)) (m : PropsModel)
    : list (string * (val * val)) :=
  omap (fun kv : string * val =>
          match _props m !! kv.1 with
          | Some p =>
              if didChange p kv.2 (value p) then Some (kv.1, (kv.2, value p)) else None
          | None => None
          end) propValues.

Definition event_of (ev : string * (val * val)) : event :=
  PropChanged ev.1 ev.2.1 ev.2.2.

(** A trace made of each change event followed by what its listeners did. *)
Definition interleaved (events : list (string * (val * val)))
    (cascades : list (list event)) : list event :=
  concat (zip_with (fun ev cascade => event_of ev :: cascade) events cascades).

(** ** Rejected bulk writes *)

(** A key that is not a property of the store. *)
Definition unknown_key (propValues : list (string * val)) (m : PropsModel) : Prop :=
  exists k, k ∈ propValues.*1 /\ _props m !! k = None.

(** A key that the existence check of the code refuses. *)
Definition missing_key (propValues : list (string * val)) (m : PropsModel) : Prop :=
  exists k, k ∈ propValues.*1 /\ known k m = false.

(** A key that is not a property of the store and that the existence check
    lets through, as the name of a member of [Object.prototype]. *)
Definition inherited_key (propValues : list (string * val)) (m : PropsModel) : Prop :=
  exists k, k ∈ propValues.*1 /\ _props m !! k = None /\ inherited k = true.

Definition denied_key (pv : propValidator) (propValues : list (string * val))
    (m : PropsModel) : Prop :=
  exists k e, k ∈ propValues.*1 /\ pv m k = Some e.

Definition rejected_value (propValues : list (string * val)) (m : PropsModel)
    (payload : val) : Prop :=
  exists k v p, (k, v) ∈ propValues /\ _props m !! k = Some p /\
                valueValidator p v = Some payload.

(** ** The settle notification *)

Definition changed_name (e : event) : option string :=
  match e with
  | PropChanged propName _ _ => Some propName
  | _ => None
  end.

(** The names of the change events of a trace, in order. *)
Definition changed_names (events : list event) : list string :=
  omap changed_name events.

Definition is_settle (e : event) : bool :=
  match e with
  | PropChainCompleted _ => true
  | _ => false
  end.

(** Adding names to a [Set] one after the other. *)
Definition add_all (s : list string) (names : list string) : list string :=
  foldl (fun s x => Set_add x s) s names.

(** The names of a list, each once, in the order of first occurrence. *)
Definition collapse (names : list string) : list string := add_all [] names.

(** [set] gets as far as [_firePropChangeEvents]: a bulk write always does,
    a single write when the change predicate reports a change. *)
Definition fires (args : setArgs) (m : PropsModel) : Prop :=
  match args with
  | SetOne propName v =>
      exists p, _props m !! propName = Some p /\ didChange p v (value p) = true
  | SetMany _ => True
  end.

(** What holds inside a chain that started in [m0]: no settle notification
    yet, and [_firedProps] has collected the names of the change events. *)
Definition in_chain (m0 m : PropsModel) : Prop :=
  exists events,
    trace m = trace m0 ++ events /\
    Forall (fun e => is_settle e = false) events /\
    _firedProps m = add_all (_firedProps m0) (changed_names events).

(** ** Views *)

(** A listener that, while the flag of [viewName] is up, neither writes
    that view nor lowers the flag. *)
Definition quiet_for (viewName : string) (h : handler) : Prop :=
  match h with
  | RecomputeDerived propName _ => propName <> viewName
  | RecomputeView _ _ => True
  | ReduceBase w viewOf _ => w <> viewName /\ viewOf <> viewName
  end.

#[global] Instance quiet_for_dec viewName h : Decision (quiet_for viewName h).
Proof. destruct h; simpl; apply _. Defined.

(** Apart from the listeners of the view's own change event, every listener
    of the store is quiet for the view: the view is written by its
    recomputation only, and its flag is handled by its write-back only. *)
Definition view_guarded (viewName : string) (m : PropsModel) : Prop :=
  map_Forall (fun eventName hs =>
                eventName = changed viewName \/ Forall (quiet_for viewName) hs)
    (_events m).

(** An event that assigns the property or announces its change. *)
Definition concerns (propName : string) (e : event) : bool :=
  match e with
  | Assigned p _ | PropChanged p _ _ => bool_decide (p = propName)
  | PropChainCompleted _ => false
  end.

(** What holds while the write-back of [viewName] that started in [m0] is
    under way. *)
Definition in_window (viewName : string) (m0 m : PropsModel) : Prop :=
  static_same m0 m /\
  is_triggered viewName m = true /\
  value_of viewName m = value_of viewName m0 /\
  exists events, trace m = trace m0 ++ events /\
                 Forall (fun e => concerns viewName e = false) events.

(** Neither assigned nor announced since [m0]. *)
Definition untouched (propName : string) (m0 m : PropsModel) : Prop :=
  static_same m0 m /\
  value_of propName m = value_of propName m0 /\
  exists events, trace m = trace m0 ++ events /\
                 Forall (fun e => concerns propName e = false) events.

(** The listeners of the properties in [reach] write properties in [reach]. *)
Definition closed_under (reach : string -> Prop) (m : PropsModel) : Prop :=
  forall p h, reach p -> h ∈ listeners (changed p) m -> reach (target h).

(** A listener that does nothing in [m]: the recomputation of a view whose
    flag is up. *)
Definition muted (m : PropsModel) (h : handler) : Prop :=
  match h with
  | RecomputeView w _ => is_triggered w m = true
  | _ => False
  end.

(** ** Depth of a cascade *)

(** A listener of [eventName] that follows the heights of the change
    events: a recomputation writes a property whose change event is lower
    than the one it listens to; a write-back listens to the change event of
    its own view, which is one of [views], and writes a base that is not a
    view and whose change event is no higher than [A]. *)
Definition ranked_on (height : string -> nat) (A : nat) (views : list string)
    (eventName : string) (h : handler) : Prop :=
  match h with
  | RecomputeDerived propName _ =>
      height (changed propName) < height eventName /\ propName ∉ views
  | RecomputeView viewName _ => height (changed viewName) < height eventName
  | ReduceBase viewName viewOf _ =>
      eventName = changed viewName /\ viewName ∈ views /\
      (viewOf ∉ views) /\ height (changed viewOf) <= A
  end.

#[global] Instance ranked_on_dec height A views eventName h :
  Decision (ranked_on height A views eventName h).
Proof. destruct h; simpl; apply _. Defined.

(** Every listener of the store follows the heights. *)
Definition ranked (height : string -> nat) (A : nat) (views : list string)
    (m : PropsModel) : Prop :=
  map_Forall (fun eventName hs => Forall (ranked_on height A views eventName) hs)
    (_events m).

(** The flags of the views in [up] are up, in a store with the
    subscriptions of [m0]. *)
Definition raised (up : list string) (m0 m : PropsModel) : Prop :=
  static_same m0 m /\ forall w, w ∈ up -> is_triggered w m = true.

(** The levels of [set] that a cascade from [propName] may nest while the
    flags of [up] are up: each view whose flag is still down may write back
    once, and between two write-backs the recomputations go down the
    heights. *)
Definition depth (height : string -> nat) (A : nat) (views up : list string)
    (propName : string) : nat :=
  length (list_difference views up) * (A + 1) + height (changed propName).

(** ** Derived properties *)

(** A change predicate that reports every change of value, as the default
    one does. *)
Definition strict (f : val -> val -> bool) : Prop :=
  forall newValue oldValue, newValue <> oldValue -> f newValue oldValue = true.

(** The value of [d] is what [calculateValue] returns for the current
    values of its dependencies, in their order. *)
Definition consistent (d : string) (calculateValue : utilizer) (m : PropsModel) : Prop :=
  exists vs v,
    current_values (propNames calculateValue) m = Some vs /\
    delegate calculateValue vs = Return v /\
    value_of d m = Some v.

(** The call gives one of the dependencies a value other than the one it has. *)
Definition changes_dependency (calculateValue : utilizer) (args : setArgs)
    (m : PropsModel) : Prop :=
  exists dep v p,
    dep ∈ propNames calculateValue /\ (dep, v) ∈ entries args /\
    _props m !! dep = Some p /\ v <> value p.

(** The recomputation of [d] listens to each of its dependencies. *)
Definition subscribed (d : string) (calculateValue : utilizer) (m : PropsModel) : Prop :=
  Forall (fun dep => RecomputeDerived d calculateValue ∈ listeners (changed dep) m)
    (propNames calculateValue).

(** Each dependency exists and its change predicate is strict. *)
Definition strict_dependencies (calculateValue : utilizer) (m : PropsModel) : Prop :=
  Forall (fun dep => exists p, _props m !! dep = Some p /\ strict (didChange p))
    (propNames calculateValue).

(** The listeners that write [d] are occurrences of its recomputation: no
    other derivation and no view's write-back targets it. *)
Definition sole_writer (d : string) (calculateValue : utilizer) (m : PropsModel) : Prop :=
  map_Forall (fun _ hs =>
                Forall (fun h => target h = d -> h = RecomputeDerived d calculateValue) hs)
    (_events m).



(** The store has the subscriptions and shapes of [m0], and [d] is
    consistent. *)
Definition steady (d : string) (calculateValue : utilizer) (m0 m : PropsModel) : Prop :=
  static_same m0 m /\ consistent d calculateValue m.

(** ** Example stores *)

Definition product (args : list val) : completion :=
  match args with
  | [VNum a; VNum b] => Return (VNum (a * b))
  | _ => Return VUndefined
  end.

Definition isValidDimension (dim : val) : option val :=
  match dim with
  | VNum n =>
      if (n <? 0)%Z then Some (VStr "Invalid dimension, must be non-negative")
      else None
  | _ => Some (VStr "Invalid dimension, must be a number")
  end.

(** The rectangle of the README: two primary properties and their product. *)
Definition rectangle : PropsModel :=
  after (defineDerivedProp 4 "area" ["length"; "width"] product VUndefined defaultDidChange)
    (after (defineProp 4 "width" (VNum 20) isValidDimension defaultDidChange)
       (after (defineProp 4 "length" (VNum 10) isValidDimension defaultDidChange)
          newPropsModel)).

(** The entry of the rectangle's derived property. *)
Definition area_prop : prop :=
  {| value := VNum 200; derived := true;
     valueValidator := fun _ => None; didChange := defaultDidChange |}.

(** A compute function that must not be called. *)
Definition always_throws (args : list val) : completion := Raise (VStr "not called").

(** Two primary properties that nothing depends on. *)
Definition two_props : PropsModel :=
  after (defineProp 1 "b" (VNum 0) NOOP defaultDidChange)
    (after (defineProp 1 "a" (VNum 0) NOOP defaultDidChange) newPropsModel).

Definition a_prop : prop :=
  {| value := VNum 0; derived := false; valueValidator := NOOP; didChange := defaultDidChange |}.

Definition magnitude_of (v : val) : completion :=
  match v with
  | VNum n => Return (VNum (Z.abs n))
  | _ => Return v
  end.

(** A number and the view of its magnitude; writing the view makes the
    number that magnitude. *)
Definition magnitude : PropsModel :=
  after (definePropView 4 "size" "number" magnitude_of (fun _ v _ => Return v) defaultDidChange)
    (after (defineProp 4 "number" (VNum 1) NOOP defaultDidChange) newPropsModel).

(** The same with a view of the view's own magnitude above it. *)
Definition magnitude_nested : PropsModel :=
  after (definePropView 4 "extent" "size" magnitude_of (fun _ v _ => Return v)
           defaultDidChange)
    magnitude.

Definition twice (args : list val) : completion :=
  match args with
  | [VNum n] => Return (VNum (2 * n))
  | _ => Return VUndefined
  end.

(** The same with a property derived from the view. *)
Definition magnitude_doubled : PropsModel :=
  after (defineDerivedProp 4 "double" ["size"] twice VUndefined defaultDidChange) magnitude.

(** Heights for [magnitude_doubled]: the base above the view, the view
    above the property derived from it. *)
Definition magnitude_heights (eventName : string) : nat :=
  if decide (eventName = "number-changed") then 2
  else if decide (eventName = "size-changed") then 1
  else 0.



(** ** More example stores *)

Definition share_of (args : list val) : completion :=
  match args with
  | [VNum n] =>
      if (n =? 0)%Z then Raise (VStr "no parts") else Return (VNum (100 / n))
  | _ => Return VUndefined
  end.

(** A derived property whose compute function throws for some values of
    its dependency. *)
Definition shares : PropsModel :=
  after (defineDerivedProp 2 "share" ["parts"] share_of VUndefined defaultDidChange)
    (after (defineProp 1 "parts" (VNum 4) NOOP defaultDidChange) newPropsModel).

Definition negated (v : val) : completion :=
  match v with
  | VNum n => Return (VNum (- n))
  | _ => Return v
  end.

(** A validated width and the view of its opposite: writing a positive
    number to the view asks for a negative width. *)
Definition mirrored : PropsModel :=
  after (definePropView 4 "opposite" "width" negated (fun _ v _ => negated v)
           defaultDidChange)
    (after (defineProp 4 "width" (VNum 3) isValidDimension defaultDidChange)
       newPropsModel).

(** ** The defining operations, step by step *)

(** The entry [defineProp] makes. *)
Definition primary (initialValue : val) (valueValidator : val -> option val)
    (didChange : val -> val -> bool) : prop :=
  {| value := initialValue; derived := false;
     valueValidator := valueValidator; didChange := didChange |}.

(** The entry [defineDerivedProp] and [definePropView] make. *)
Definition computed (v : val) (didChange : val -> val -> bool) : prop :=
  {| value := v; derived := true;
     valueValidator := fun _ => None; didChange := didChange |}.

(** [this._props[propName] = p] *)
Definition entered (propName : string) (p : prop) (m : PropsModel) : PropsModel :=
  set_props (insert propName p) m.

(** The loop of [_onAny]. *)
Definition subscribe_all (names : list string) (h : handler) (m : PropsModel)
    : PropsModel :=
  foldl (fun m n => subscribe (changed n) h m) m names.

(** The store [defineDerivedProp] has built when it comes to its first
    change event. *)
Definition derived_entered (propName : string) (dependsOn : list string)
    (calc : list val -> completion) (v : val) (didChange : val -> val -> bool)
    (m : PropsModel) : PropsModel :=
  subscribe_all dependsOn (RecomputeDerived propName (Utilizer dependsOn calc))
    (entered propName (computed v didChange) m).

(** The store [definePropView] has built when it comes to its first change
    event. *)
Definition view_entered (viewName viewOf : string) (calc : val -> completion)
    (reduceBaseValue : (string -> option val) -> val -> val -> completion)
    (v : val) (didChange : val -> val -> bool) (m : PropsModel) : PropsModel :=
  subscribe_all [viewName] (ReduceBase viewName viewOf reduceBaseValue)
    (subscribe_all [viewOf] (RecomputeView viewName (Utilizer [viewOf] (unary calc)))
       (set_triggered viewName false (entered viewName (computed v didChange) m))).

(** The end of the three defining operations:
    [if (didChange(value, undefined)) this._firePropChangeEvent(...)]. *)
Definition first_event (fuel : nat) (propName : string) (v : val)
    (didChange : val -> val -> bool) : M unit :=
  if didChange v VUndefined
  then _firePropChangeEvent (_set fuel) propName v VUndefined
  else ret tt.

(** Two unvalidated lengths. *)
Definition two_lengths : PropsModel :=
  after (defineProp 1 "width" (VNum 20) NOOP defaultDidChange)
    (after (defineProp 1 "length" (VNum 10) NOOP defaultDidChange) newPropsModel).

(** A negative number, before any view of it is defined. *)
Definition negative_number : PropsModel :=
  after (defineProp 1 "number" (VNum (-3)) NOOP defaultDidChange) newPropsModel.

(** ** Enumerating the properties

    [_props] is a map here, and a map does not say in which order
    [Object.keys] lists its keys (the order in which the properties were
    defined).  The functions that enumerate the properties take that list
    as [keys]; [enumerates] says that it is a listing of the store's
    properties. *)

Definition enumerates (keys : list string) (m : PropsModel) : Prop :=
  NoDup keys /\ (list_to_set keys : gset string) = dom (_props m).

(** Whether what a checker returned counts as true where the code uses it
    as a condition: an [Error] is an object, and objects do. *)
Definition truthy (r : checkResult) : bool :=
  match r with
  | Falsy => false
  | Truthy | AnError _ => true
  end.

(** [() => true] *)
Definition allNames : string -> checkResult := fun _ => Truthy.

(** [o[key] = v] on an object that was created as [{}], as the properties
    of its own it has afterwards.  The key [__proto__] names the accessor
    the object inherits, which replaces the prototype or does nothing and
    adds no property. *)
Definition Object_put (key : string) (v : val) (o : gmap string val) : gmap string val :=
  if decide (key = "__proto__") then o else <[key := v]> o.

Section Enumeration.
Variable keys : list string.

(** [Object.keys(this._props).filter(propChecker)] *)
Definition _getPropNames (propChecker : string -> checkResult) : M (list string) :=
  ret (filter (fun propName => truthy (propChecker propName) = true) keys).

(** The [reduce] of [_getAll], from the object [o]: a name for which
    [this._props[propName]] is falsy throws, and the value stored under
    any other name is [this._props[propName].value]. *)
Fixpoint getAll_reduce (propNames : list string) (o : gmap string val)
    : M (gmap string val) :=
  match propNames with
  | [] => ret o
  | propName :: rest =>
      let* m := this in
      match read propName m with
      | None => throw (NoSuchProperty propName)
      | Some v => getAll_reduce rest (Object_put propName v o)
      end
  end.

(** [propNames] is [None] when the caller leaves it out. *)
Definition _getAll (propChecker : string -> checkResult)
    (propNames : option (list string)) : M (gmap string val) :=
  getAll_reduce
    (filter (fun propName => truthy (propChecker propName) = true)
       (default keys propNames))
    ∅.

Definition getPropNames : M (list string) := _getPropNames allNames.

(** The members of the object [createApi] returns that enumerate the
    properties; they take no argument. *)
Record PropsModelListing := Listing {
  api_getAll : M (gmap string val);
  api_getPropNames : M (list string)
}.

Definition createApi_listing (readChecker : string -> checkResult) : PropsModelListing :=
  {| api_getAll := _getAll readChecker None;
     api_getPropNames := _getPropNames readChecker |}.
End Enumeration.

(** The listing members of the two standard facades. *)
Definition getStandardPublicApi_listing (keys : list string) : PropsModelListing :=
  createApi_listing keys (fun n => if propNameIsPublic n then Truthy else Falsy).

Definition getStandardPrivateApi_listing (keys : list string) : PropsModelListing :=
  createApi_listing keys allNames.

(** The rectangle with a property that the public facade hides. *)
Definition scaled_rectangle : PropsModel :=
  after (defineProp 1 "_scale" (VNum 2) NOOP defaultDidChange) rectangle.

(** A checker that accepts one name. *)
Definition onlyArea (propName : string) : checkResult :=
  if decide (propName = "area") then Truthy else Falsy.

(** A checker that refuses names that start with an underscore by
    returning an [Error]. *)
Definition refuseHidden (propName : string) : checkResult :=
  if propNameIsPublic propName then Truthy
  else AnError (NotPubliclyAccessible propName).

(** ** Stores built with the defining operations *)

Definition is_write_back (h : handler) : bool :=
  match h with
  | ReduceBase _ _ _ => true
  | _ => false
  end.

(** [propName] is a view: a write-back listens to its change event. *)
Definition is_view (propName : string) (m : PropsModel) : Prop :=
  Exists (fun h => is_write_back h = true) (listeners (changed propName) m).

(** Views of anything. *)
Definition any_base : string -> PropsModel -> Prop := fun _ _ => True.

(** Views of properties that are not views themselves. *)
Definition plain_base : string -> PropsModel -> Prop := fun viewOf m => ~ is_view viewOf m.

(** The stores a program reaches from a new one with the defining
    operations and [set], called with any arguments and left in whatever
    state they return or throw in.  [allowed viewOf m] says of which
    properties of [m] the program defines views. *)
Inductive built (allowed : string -> PropsModel -> Prop) : PropsModel -> Prop :=
| built_new : built allowed newPropsModel
| built_defineProp fuel propName initialValue valueValidator didChange m m' :
    built allowed m ->
    state_of (defineProp fuel propName initialValue valueValidator didChange m) = Some m' ->
    built allowed m'
| built_defineDerivedProp fuel propName dependsOn calculateValue initialValue didChange m m' :
    built allowed m ->
    state_of (defineDerivedProp fuel propName dependsOn calculateValue initialValue
                didChange m) = Some m' ->
    built allowed m'
| built_definePropView fuel viewName viewOf calculateViewValue reduceBaseValue didChange m m' :
    built allowed m ->
    allowed viewOf m ->
    state_of (definePropView fuel viewName viewOf calculateViewValue reduceBaseValue
                didChange m) = Some m' ->
    built allowed m'
| built_set fuel pv args m m' :
    built allowed m ->
    state_of (_set fuel pv args m) = Some m' ->
    built allowed m'.

(** The names whose values a listener reads through its utilizer. *)
Definition reads (h : handler) : list string :=
  match h with
  | RecomputeDerived _ calculateValue | RecomputeView _ calculateValue =>
      propNames calculateValue
  | ReduceBase _ _ _ => []
  end.

(** Every listener listens to the change event of a name under which
    [_props] has something, and reads and writes such names. *)
Definition connected (m : PropsModel) : Prop :=
  forall eventName h, h ∈ listeners eventName m ->
    (exists propName, eventName = changed propName /\ known propName m = true) /\
    known (target h) m = true /\
    Forall (fun n => known n m = true) (reads h).

(** Not the name of a member of [Object.prototype]. *)
Definition ordinary (propName : string) : Prop := inherited propName = false.

(** Views of names that are not those of members of [Object.prototype]. *)
Definition ordinary_base : string -> PropsModel -> Prop := fun viewOf _ => ordinary viewOf.

(** No listener writes under the name of a member of [Object.prototype]. *)
Definition ordinary_targets (m : PropsModel) : Prop :=
  forall eventName h, h ∈ listeners eventName m -> ordinary (target h).

(** A connected store whose listeners follow the heights, with [views]
    views. *)
Definition layered (height : string -> nat) (A : nat) (views : list string)
    (m : PropsModel) : Prop :=
  connected m /\
  (forall eventName, height eventName <= A) /\
  (forall eventName h, h ∈ listeners eventName m -> ranked_on height A views eventName h) /\
  (forall v, v ∈ views -> is_view v m /\ is_Some (_props m !! v)).

(** A write validator that does not throw a [TypeError] for a defined
    property. *)
Definition careful (pv : propValidator) : Prop :=
  forall m propName, is_Some (_props m !! propName) -> pv m propName <> Some TypeError.

(** [c] keeps the subscriptions and shapes of [m0] and does not throw a
    [TypeError]. *)
Definition no_TypeError (m0 : PropsModel) {A} (c : M A) : Prop :=
  hoare (static_same m0) c (fun _ => static_same m0)
    (fun e m => e <> TypeError /\ static_same m0 m).

(** The heights once [propName] has been defined: its change event at the
    bottom, every other one a level up. *)
Definition below (propName : string) (height : string -> nat) : string -> nat :=
  fun eventName => if decide (eventName = changed propName) then 0 else S (height eventName).

(** ** Stores no call has thrown on *)

(** The flags that are up are among [F]. *)
Definition flags_within (F : string -> Prop) (m : PropsModel) : Prop :=
  forall w, is_triggered w m = true -> F w.

(** The stores a program reaches from a new one with calls of the defining
    operations and of [set] that all returned. *)
Inductive settled : PropsModel -> Prop :=
| settled_new : settled newPropsModel
| settled_defineProp fuel propName initialValue valueValidator didChange m m' :
    settled m ->
    defineProp fuel propName initialValue valueValidator didChange m = Returned tt m' ->
    settled m'
| settled_defineDerivedProp fuel propName dependsOn calculateValue initialValue didChange m m' :
    settled m ->
    defineDerivedProp fuel propName dependsOn calculateValue initialValue didChange m
    = Returned tt m' ->
    settled m'
| settled_definePropView fuel viewName viewOf calculateViewValue reduceBaseValue didChange m m' :
    settled m ->
    definePropView fuel viewName viewOf calculateViewValue reduceBaseValue didChange m
    = Returned tt m' ->
    settled m'
| settled_set fuel pv args m m' :
    settled m ->
    _set fuel pv args m = Returned tt m' ->
    settled m'.

(** ** The JSON account of the properties *)









(** ** Accessors

    [_installAccessors] attaches getters and setters to a target object.
    The functions it attaches are the two constructors of [accessor]; the
    target is the map from member name to the accessor attached under it. *)

(** [String.prototype.toLowerCase], on the ASCII letters.  The code only
    compares the result with ['readonly'], ['readwrite'] and ['none'], and
    for that the ASCII letters are enough: the one character outside
    ASCII whose lower case is an ASCII letter is the Kelvin sign, which
    gives a [k], a letter of none of the three words; every other
    character outside ASCII leaves one outside ASCII, here as in the
    language. *)
Definition toLowerCase_ascii (c : ascii) : ascii :=
  let n := N_of_ascii c in
  if ((65 <=? n) && (n <=? 90))%N then ascii_of_N (n + 32) else c.

Fixpoint toLowerCase (s : string) : string :=
  match s with
  | EmptyString => EmptyString
  | String c rest => String (toLowerCase_ascii c) (toLowerCase rest)
  end.

(** The two functions [_installAccessors] makes:
    - [Getter]: [() => this._props[propName].value]
    - [Setter]: [(value) => { this._set(() => {}, propName, value) }] *)
Inductive accessor :=
| Getter (propName : string)
| Setter (propName : string).

(** What [_installAccessors] throws: its own two errors, or what a
    validator threw. *)
Inductive accessorError :=
| NonExistantProperty (propName : string)
| UnknownAccessType (access propName : string)
| Refused (e : error).

(** The body of the first loop, for one entry of [propertyAccess]. *)
Definition check_access (readValidator writeValidator : propValidator)
    (m : PropsModel) (entry : string * string) : option accessorError :=
  let '(propName, access) := entry in
  if known propName m then
    if decide (toLowerCase access = "readonly") then
      Refused <$> readValidator m propName
    else if decide (toLowerCase access = "readwrite") then
      match readValidator m propName with
      | Some e => Some (Refused e)
      | None => Refused <$> writeValidator m propName
      end
    else if decide (toLowerCase access = "none") then None
    else Some (UnknownAccessType access propName)
  else Some (NonExistantProperty propName).

Fixpoint check_all_access (readValidator writeValidator : propValidator)
    (m : PropsModel) (propertyAccess : list (string * string)) : option accessorError :=
  match propertyAccess with
  | [] => None
  | entry :: rest =>
      match check_access readValidator writeValidator m entry with
      | Some e => Some e
      | None => check_all_access readValidator writeValidator m rest
      end
  end.

(** Calling an accessor that was attached to a target. *)
Definition call_getter (propName : string) : M val := the_value propName.

Definition call_setter (fuel : nat) (propName : string) (v : val) : M unit :=
  _set fuel noValidator (SetOne propName v).

Section AccessorNames.

(** [propName.replace(/^./, (c) => c.toUpperCase())]: the name with its
    first character in upper case.  Which characters have an upper case,
    and which, is the language's; the functions that name accessors take
    it as [capitalize]. *)
Variable capitalize : string -> string.

Definition createAccessorNames (propName : string) (prefixes : list string)
    : list string :=
  map (fun prefix => prefix +:+ capitalize propName) prefixes.

(** The body of the second loop. *)
Definition attach (target : gmap string accessor) (entry : string * string)
    : gmap string accessor :=
  let '(propName, access) := entry in
  if decide (toLowerCase access = "readonly") then
    match createAccessorNames propName ["get"] with
    | funcName :: _ => <[funcName := Getter propName]> target
    | [] => target
    end
  else if decide (toLowerCase access = "readwrite") then
    match createAccessorNames propName ["get"; "set"] with
    | getterName :: setterName :: _ =>
        <[setterName := Setter propName]> (<[getterName := Getter propName]> target)
    | _ => target
    end
  else target.

Definition _installAccessors (readValidator writeValidator : propValidator)
    (target : gmap string accessor) (propertyAccess : list (string * string))
    (m : PropsModel) : accessorError + gmap string accessor :=
  match check_all_access readValidator writeValidator m propertyAccess with
  | Some e => inl e
  | None => inr (foldl attach target propertyAccess)
  end.

Definition installAccessors := _installAccessors noValidator noValidator.

(** The [installAccessors] member of the object [createApi] returns. *)
Definition createApi_installAccessors (readChecker : string -> checkResult)
    (readValidator writeValidator : option propValidator) :=
  let readValidator := default (propertyCheckerToValidator readChecker) readValidator in
  let writeValidator := default readValidator writeValidator in
  _installAccessors readValidator writeValidator.

Definition getStandardPublicApi_installAccessors :=
  createApi_installAccessors (fun n => if propNameIsPublic n then Truthy else Falsy)
    (Some assertPropNameIsPublic)
    (Some (fun m propName =>
             match assertPropNameIsPublic m propName with
             | Some e => Some e
             | None => createStandardWriteValidator m propName
             end)).

Definition getStandardPrivateApi_installAccessors :=
  createApi_installAccessors allNames (Some noValidator)
    (Some createStandardWriteValidator).

End AccessorNames.

(** The upper case of the ASCII letters: what [toUpperCase] gives for a
    first character that is an ASCII character. *)
Definition toUpperCase_ascii (c : ascii) : ascii :=
  let n := N_of_ascii c in
  if ((97 <=? n) && (n <=? 122))%N then ascii_of_N (n - 32) else c.

(** [capitalize] for the property names of the examples, which start with
    an ASCII letter. *)
Definition capitalize_ascii (propName : string) : string :=
  match propName with
  | EmptyString => EmptyString
  | String c rest => String (toUpperCase_ascii c) rest
  end.

(** The stores a store can be in after further calls of [_set], whether
    they returned or threw. *)
Inductive written (m : PropsModel) : PropsModel -> Prop :=
| written_now : written m m
| written_set fuel pv args m1 m2 :
    written m m1 ->
    state_of (_set fuel pv args m1) = Some m2 ->
    written m m2.

(** The access types under which a getter is attached. *)
Definition readable (access : string) : Prop :=
  toLowerCase access = "readonly" \/ toLowerCase access = "readwrite".

(** A rectangle with a second property whose name differs from ["width"]
    in the case of its first letter only. *)
Definition rectangle_Width : PropsModel :=
  after (defineProp 1 "Width" (VNum 7) NOOP defaultDidChange) rectangle.
(** ** Reasoning about programs of the monad *)

Lemma bind_Returned {A B} (c : M A) (k : A -> M B) m b m' :
  bind c k m = Returned b m' ->
  exists a m1, c m = Returned a m1 /\ k a m1 = Returned b m'.
Proof.
  unfold bind. destruct (c m) as [a m1| |]; [eauto | discriminate | discriminate].
Qed.

Lemma bind_eq_Returned {A B} (c : M A) (k : A -> M B) m a m1 :
  c m = Returned a m1 -> bind c k m = k a m1.
Proof. unfold bind. intros ->. reflexivity. Qed.

Lemma bind_eq_Thrown {A B} (c : M A) (k : A -> M B) m e m1 :
  c m = Thrown e m1 -> bind c k m = Thrown e m1.
Proof. unfold bind. intros ->. reflexivity. Qed.

Lemma hoare_conseq {A} (P P' : PropsModel -> Prop) (c : M A)
    (Q Q' : A -> PropsModel -> Prop) (E E' : error -> PropsModel -> Prop) :
  hoare P' c Q' E' ->
  (forall m, P m -> P' m) ->
  (forall a m, Q' a m -> Q a m) ->
  (forall e m, E' e m -> E e m) ->
  hoare P c Q E.
Proof.
  intros H HP HQ HE m Hm. specialize (H m (HP m Hm)).
  destruct (c m); auto.
Qed.

Lemma hoare_bind {A B} P (c : M A) (k : A -> M B) R Q E :
  hoare P c R E -> (forall a, hoare (R a) (k a) Q E) -> hoare P (bind c k) Q E.
Proof.
  intros Hc Hk m Hm. specialize (Hc m Hm). unfold bind.
  destruct (c m) as [a m1|e m1|]; [ | exact Hc | exact I].
  apply (Hk a m1 Hc).
Qed.

Lemma hoare_forEach {A} (I : PropsModel -> Prop) (l : list A) (f : A -> M unit) E :
  (forall x, x ∈ l -> hoare I (f x) (fun _ => I) E) ->
  hoare I (forEach l f) (fun _ => I) E.
Proof.
  induction l as [|x l IH]; intros Hf.
  - intros m Hm. exact Hm.
  - simpl. eapply hoare_bind.
    + apply Hf. left.
    + intros u. apply IH. intros y Hy. apply Hf. right. exact Hy.
Qed.

Lemma pure_ret {A} (a : A) : pure (ret a).
Proof. intros m. reflexivity. Qed.

Lemma pure_throw {A} e : pure (@throw A e).
Proof. intros m. reflexivity. Qed.

Lemma pure_this : pure this.
Proof. intros m. reflexivity. Qed.

Lemma pure_bind {A B} (c : M A) (k : A -> M B) :
  pure c -> (forall a, pure (k a)) -> pure (bind c k).
Proof.
  intros Hc Hk m. unfold bind. specialize (Hc m).
  destruct (c m) as [a m1|e m1|]; [subst; apply Hk | exact Hc | exact Hc].
Qed.

Lemma pure_forEach {A} (l : list A) (f : A -> M unit) :
  (forall x, pure (f x)) -> pure (forEach l f).
Proof.
  intros Hf. induction l as [|x l IH]; simpl.
  - apply pure_ret.
  - apply pure_bind; auto.
Qed.

Lemma pure_filterM {A} (l : list A) (f : A -> M bool) :
  (forall x, pure (f x)) -> pure (filterM l f).
Proof.
  intros Hf. induction l as [|x l IH]; simpl.
  - apply pure_ret.
  - apply pure_bind; [apply Hf|]. intros b.
    apply pure_bind; [apply IH|]. intros r. apply pure_ret.
Qed.

Lemma pure_the_prop n : pure (the_prop n).
Proof. intros m. unfold the_prop. destruct (_props m !! n); reflexivity. Qed.

Lemma pure_the_value n : pure (the_value n).
Proof. intros m. unfold the_value. destruct (read n m); reflexivity. Qed.

Lemma pure_validate pv n : pure (validate pv n).
Proof. intros m. unfold validate. destruct (pv m n); reflexivity. Qed.

Lemma pure_complete c : pure (complete c).
Proof. destruct c; [apply pure_ret | apply pure_throw]. Qed.

Lemma pure_values_of names : pure (values_of names).
Proof.
  induction names as [|n l IH]; simpl.
  - apply pure_ret.
  - apply pure_bind; [apply pure_the_value|]. intros v.
    apply pure_bind; [apply IH|]. intros vs. apply pure_ret.
Qed.

Lemma pure_call_utilizer u : pure (call_utilizer u).
Proof.
  unfold call_utilizer. apply pure_bind; [apply pure_values_of|].
  intros; apply pure_complete.
Qed.

Lemma pure_check_exists n : pure (check_exists n).
Proof.
  apply pure_bind; [apply pure_this|]. intros m.
  destruct (known n m); [apply pure_ret | apply pure_throw].
Qed.

Lemma pure_check_value entry : pure (check_value entry).
Proof.
  apply pure_bind; [apply pure_the_prop|]. intros p.
  destruct (valueValidator p entry.2); [apply pure_throw | apply pure_ret].
Qed.

Lemma pure_get pv n : pure (_get pv n).
Proof.
  apply pure_bind; [apply pure_validate|]. intros _.
  apply pure_bind; [apply pure_this|]. intros m.
  destruct (read n m); [apply pure_ret | apply pure_throw].
Qed.

Create HintDb pure.
#[global] Hint Resolve pure_ret pure_throw pure_this pure_the_prop pure_the_value pure_validate
  pure_complete pure_call_utilizer pure_check_exists pure_check_value pure_get
  : pure.

Lemma filterM_elem_of {A} (l : list A) (f : A -> M bool) m r m' :
  filterM l f m = Returned r m' -> forall x, x ∈ r -> x ∈ l.
Proof.
  revert m r m'. induction l as [|y l IH]; simpl; intros m r m' H x Hx.
  - inversion H; subst. exact Hx.
  - apply bind_Returned in H as (b & m1 & _ & H).
    apply bind_Returned in H as (r' & m2 & Hr & H).
    inversion H; subst. destruct b.
    + apply elem_of_cons in Hx as [->|Hx]; [left | right; eauto].
    + right; eauto.
Qed.

Lemma imap_entry_names (g : nat -> val) (propValues : list (string * val)) :
  (imap (fun idx '(propName, v) => (propName, (v, g idx))) propValues).*1
  = propValues.*1.
Proof.
  revert g. induction propValues as [|[p v] rest IH]; intros g; simpl.
  - reflexivity.
  - f_equal. apply (IH (g ∘ S)).
Qed.

(** ** Invariants of a cascade

    A property [I] of the store that every step of a cascade maintains is
    maintained by [_set] at every depth.  The steps are: assigning a value,
    adding a name to [_firedProps] and emitting its change event, emitting
    the chain-completed event and clearing [_firedProps], and what a
    listener does around its nested [set].  [may_assign] names the
    properties the cascade may write, [may_emit] those whose change event
    it may emit. *)

Lemma maintains_pure (I : PropsModel -> Prop) {A} (c : M A) :
  pure c -> maintains I c.
Proof.
  intros Hc m Hm. specialize (Hc m). destruct (c m); subst; auto.
Qed.

Lemma maintains_bind (I : PropsModel -> Prop) {A B} (c : M A) (k : A -> M B) :
  maintains I c -> (forall a, maintains I (k a)) -> maintains I (bind c k).
Proof. intros Hc Hk. eapply hoare_bind; [exact Hc | exact Hk]. Qed.

Lemma keeps_pure D (I : PropsModel -> Prop) {A} (c : M A) :
  pure c -> keeps D I c.
Proof.
  intros Hc m Hm. specialize (Hc m). destruct (c m); subst; auto. contradiction.
Qed.

Lemma keeps_bind D (I : PropsModel -> Prop) {A B} (c : M A) (k : A -> M B) :
  keeps D I c -> (forall a, keeps D I (k a)) -> keeps D I (bind c k).
Proof.
  intros Hc Hk m Hm. specialize (Hc m Hm). unfold bind.
  destruct (c m) as [a m1|e m1|]; [ | exact Hc | exact Hc].
  apply (Hk a m1 Hc).
Qed.

Lemma keeps_forEach D (I : PropsModel -> Prop) {A} (l : list A) (f : A -> M unit) :
  (forall x, x ∈ l -> keeps D I (f x)) -> keeps D I (forEach l f).
Proof.
  induction l as [|x l IH]; intros Hf.
  - intros m Hm. exact Hm.
  - simpl. apply keeps_bind.
    + apply Hf. left.
    + intros u. apply IH. intros y Hy. apply Hf. right. exact Hy.
Qed.

(** The steps of one level of [_set], over nested calls whose listeners
    keep [I]; [D] is what is known when the fuel runs out. *)
Section Steps.
Variable D : Prop.
Variable I : PropsModel -> Prop.
Variable may_assign : string -> Prop.
Variable may_emit : string -> Prop.

Hypothesis assign_emit : forall p, may_assign p -> may_emit p.

Hypothesis I_assign : forall p v m, may_assign p -> I m -> I (assign p v m).
Hypothesis I_emit : forall p n o m, may_emit p -> I m ->
  I (record (PropChanged p n o) (set_firedProps (Set_add p) m)).
Hypothesis I_chain : forall m0 m, I m0 -> _firedProps m0 = [] -> I m ->
  I (set_firedProps (fun _ => []) (record (PropChainCompleted (_firedProps m)) m)).

Variable set_rec : propValidator -> setArgs -> M unit.
Hypothesis handler_ok : forall p n o m0 h,
  may_emit p -> I m0 -> h ∈ listeners (changed p) m0 ->
  keeps D I (run_handler set_rec h p n o).

Lemma keeps_emit p n o :
  may_emit p ->
  keeps D I (update (set_firedProps (Set_add p)) >> emit_changed set_rec p n o).
Proof.
  intros Hp m Hm.
  pose proof (I_emit p n o m Hp Hm) as Hm2.
  set (m2 := record (PropChanged p n o) (set_firedProps (Set_add p) m)) in *.
  change ((update (set_firedProps (Set_add p)) >> emit_changed set_rec p n o) m)
    with (forEach (listeners (changed p) m2)
            (fun h => run_handler set_rec h p n o) m2).
  apply (keeps_forEach D I); [|exact Hm2].
  intros h Hh. eapply handler_ok; eauto.
Qed.

Lemma keeps_fire events :
  Forall may_emit events.*1 ->
  keeps D I (_firePropChangeEvents set_rec events).
Proof.
  intros Hev m0 Hm0. unfold _firePropChangeEvents.
  change (bind this ?k m0) with (k m0 m0). cbv beta.
  assert (Hloop : keeps D I
    (forEach events (fun '(propName, (newValue, oldValue)) =>
       update (set_firedProps (Set_add propName)) >>
       emit_changed set_rec propName newValue oldValue))).
  { apply keeps_forEach. intros [p [n o]] Hin. apply keeps_emit.
    rewrite Forall_forall in Hev. apply Hev.
    apply list_elem_of_fmap. exists (p, (n, o)). split; [reflexivity | exact Hin]. }
  specialize (Hloop m0 Hm0). unfold bind at 1.
  destruct (forEach events _ m0) as [[] m1|e m1|]; [|exact Hloop|exact Hloop].
  case_bool_decide as Hfirst; [|exact Hloop].
  change (I (set_firedProps (fun _ => [])
               (record (PropChainCompleted (_firedProps m1)) m1))).
  apply (I_chain m0); [exact Hm0 | | exact Hloop].
  destruct (_firedProps m0); [reflexivity | discriminate].
Qed.

Lemma keeps_assign_all propValues oldValues :
  Forall may_assign propValues.*1 ->
  keeps D I (assign_all propValues oldValues).
Proof.
  revert oldValues. induction propValues as [|[p v] rest IH]; intros oldValues Hok.
  - intros m Hm. exact Hm.
  - simpl. inversion Hok as [|? ? Hp Hrest]; subst.
    apply keeps_bind; [apply keeps_pure, pure_the_prop|]. intros q.
    apply keeps_bind; [|intros u; apply IH, Hrest].
    intros m Hm. apply I_assign; assumption.
Qed.

Lemma keeps_set_body pv args :
  Forall may_assign (args_names args) ->
  keeps D I (_set_body set_rec pv args).
Proof.
  intros Hok. destruct args as [p v | propValues]; simpl in *.
  - inversion Hok as [|? ? Hp _]; subst.
    apply keeps_bind; [apply keeps_pure, pure_check_exists|]. intros u1.
    apply keeps_bind; [apply keeps_pure, pure_validate|]. intros u2.
    apply keeps_bind; [apply keeps_pure, pure_check_value|]. intros u3.
    apply keeps_bind; [apply keeps_pure, pure_the_prop|]. intros q.
    apply keeps_bind; [intros m Hm; apply I_assign; assumption|]. intros u4.
    apply keeps_bind; [apply keeps_pure, pure_the_prop|]. intros q'.
    destruct (didChange q' v (value q)).
    + apply keeps_fire. constructor; [exact (assign_emit _ Hp) | constructor].
    + intros m Hm. exact Hm.
  - apply keeps_bind;
      [apply keeps_pure, pure_forEach; intros; apply pure_check_exists|]. intros u1.
    apply keeps_bind;
      [apply keeps_pure, pure_forEach; intros; apply pure_validate|]. intros u2.
    apply keeps_bind;
      [apply keeps_pure, pure_forEach; intros; apply pure_check_value|]. intros u3.
    apply keeps_bind; [apply keeps_assign_all, Hok|]. intros oldValues.
    intros m Hm. unfold bind at 1.
    match goal with |- context [filterM ?l ?f m] =>
      assert (Hpure : pure (filterM l f))
        by (apply pure_filterM; intros [n [a b]]; apply pure_bind;
            [apply pure_the_prop | intros; apply pure_ret]);
      specialize (Hpure m);
      pose proof (filterM_elem_of l f m) as Hsub;
      destruct (filterM l f m) as [changeEvents m1|e m1|] eqn:Hf
    end.
    + subst m1.
      apply keeps_fire; [|exact Hm].
      rewrite Forall_forall. intros n Hn.
      apply list_elem_of_fmap in Hn as (ev & -> & Hev).
      apply (Hsub _ _ eq_refl) in Hev.
      rewrite Forall_forall in Hok. apply assign_emit, Hok.
      rewrite <- (imap_entry_names (fun idx => nth idx oldValues VUndefined)).
      apply list_elem_of_fmap. exists ev. split; [reflexivity | exact Hev].
    + subst m1. exact Hm.
    + contradiction.
Qed.
End Steps.

Section Invariant.
Variable I : PropsModel -> Prop.
Variable may_assign : string -> Prop.
Variable may_emit : string -> Prop.

Hypothesis assign_emit : forall p, may_assign p -> may_emit p.

Hypothesis I_assign : forall p v m, may_assign p -> I m -> I (assign p v m).
Hypothesis I_emit : forall p n o m, may_emit p -> I m ->
  I (record (PropChanged p n o) (set_firedProps (Set_add p) m)).
Hypothesis I_chain : forall m0 m, I m0 -> _firedProps m0 = [] -> I m ->
  I (set_firedProps (fun _ => []) (record (PropChainCompleted (_firedProps m)) m)).
Hypothesis I_handler : forall set_rec,
  (forall pv args, Forall may_assign (args_names args) ->
     maintains I (set_rec pv args)) ->
  forall p n o m0 h, may_emit p -> I m0 -> h ∈ listeners (changed p) m0 ->
    maintains I (run_handler set_rec h p n o).

Theorem maintains_set fuel pv args :
  Forall may_assign (args_names args) -> maintains I (_set fuel pv args).
Proof.
  revert pv args. induction fuel as [|fuel IH]; intros pv args Hok.
  - intros m Hm. exact Logic.I.
  - simpl. apply (keeps_set_body True I may_assign may_emit); auto.
    intros p n o m0 h. apply I_handler. exact IH.
Qed.

Lemma maintains_fire_set fuel events :
  Forall may_emit events.*1 ->
  maintains I (_firePropChangeEvents (_set fuel) events).
Proof.
  apply (keeps_fire True I may_emit); auto.
  intros p n o m0 h. apply I_handler. intros pv args. apply maintains_set.
Qed.
End Invariant.

(** ** What a cascade never changes *)

Lemma shape_alter v n (ps : gmap string prop) :
  shape <$> alter (with_value v) n ps = shape <$> ps.
Proof.
  apply map_eq. intros i. rewrite !lookup_fmap, lookup_alter.
  case_decide; [subst|reflexivity].
  destruct (ps !! i); reflexivity.
Qed.

Lemma static_same_refl m : static_same m m.
Proof. split; reflexivity. Qed.

Lemma static_same_assign m0 m n v :
  static_same m0 m -> static_same m0 (assign n v m).
Proof.
  intros [He Hs]. split; [exact He|]. simpl. rewrite shape_alter. exact Hs.
Qed.

Lemma static_same_lookup m0 m n p :
  static_same m0 m -> _props m0 !! n = Some p ->
  exists q, _props m !! n = Some q /\ shape q = shape p.
Proof.
  intros [_ Hs] Hp.
  assert (H : (shape <$> _props m) !! n = (shape <$> _props m0) !! n) by (rewrite Hs; reflexivity).
  rewrite !lookup_fmap, Hp in H. simpl in H.
  destruct (_props m !! n) as [q|]; [|discriminate].
  exists q. split; [reflexivity|]. simpl in H. congruence.
Qed.

Lemma static_same_listeners m0 m ch :
  static_same m0 m -> listeners ch m = listeners ch m0.
Proof. intros [He _]. unfold listeners. rewrite He. reflexivity. Qed.

Lemma elem_of_listeners h ch m :
  h ∈ listeners ch m -> exists hs, _events m !! ch = Some hs /\ h ∈ hs.
Proof.
  unfold listeners. destruct (_events m !! ch) as [hs|]; simpl.
  - eauto.
  - intros H. inversion H.
Qed.

(** A listener whose target the cascade may write maintains what its
    nested [set] maintains, when the re-entrancy flags do not matter. *)
Lemma maintains_handler_target (I : PropsModel -> Prop) (may_assign : string -> Prop)
    set_rec h p n o :
  (forall v b m, I m -> I (set_triggered v b m)) ->
  (forall pv args, Forall may_assign (args_names args) -> maintains I (set_rec pv args)) ->
  may_assign (target h) ->
  maintains I (run_handler set_rec h p n o).
Proof.
  intros Hflag Hrec Ht. destruct h as [t u|w u|w b r]; simpl in *.
  - apply maintains_bind; [apply maintains_pure, pure_call_utilizer|]. intros x.
    apply Hrec. constructor; [exact Ht | constructor].
  - intros m Hm. change (bind this ?k m) with (k m m). cbv beta.
    destruct (is_triggered w m); [exact Hm|].
    revert m Hm. apply maintains_bind; [apply maintains_pure, pure_call_utilizer|].
    intros x. apply Hrec. constructor; [exact Ht | constructor].
  - apply maintains_bind; [apply maintains_pure, pure_get|]. intros base.
    apply maintains_bind; [apply maintains_pure, pure_this|]. intros m0.
    apply maintains_bind; [apply maintains_pure, pure_complete|]. intros x.
    apply maintains_bind; [intros m Hm; apply Hflag, Hm|]. intros u1.
    apply maintains_bind; [apply Hrec; constructor; [exact Ht | constructor]|].
    intros u2 m Hm. apply Hflag, Hm.
Qed.

(** [_set] leaves the subscriptions and the shape of every property alone,
    whether it returns or throws. *)
Lemma set_static_same fuel pv args m0 :
  maintains (static_same m0) (_set fuel pv args).
Proof.
  apply (maintains_set (static_same m0) (fun _ => True) (fun _ => True)); auto.
  - intros p v m _ H. apply static_same_assign, H.
  - intros set_rec Hrec p n o m1 h _ _ _.
    apply (maintains_handler_target _ (fun _ => True)); auto.
  - apply Forall_forall. auto.
Qed.

(** ** One step of [_set] *)

Lemma _set_S fuel pv args :
  _set (S fuel) pv args = _set_body (_set fuel) pv args.
Proof. reflexivity. Qed.

(** The single-property signature, case by case. *)
Lemma set_one_unfold set_rec pv n v m :
  _set_body set_rec pv (SetOne n v) m =
    match _props m !! n with
    | None =>
        if inherited n then
          match pv m n with
          | Some e => Thrown e m
          | None => Thrown TypeError m
          end
        else Thrown (NoSuchProperty n) m
    | Some p =>
        match pv m n with
        | Some e => Thrown e m
        | None =>
            match valueValidator p v with
            | Some payload => Thrown (Raised payload) m
            | None =>
                if didChange p v (value p)
                then _firePropChangeEvent set_rec n v (value p) (assign n v m)
                else Returned tt (assign n v m)
            end
        end
    end.
Proof.
  unfold _set_body, check_exists, check_value, validate, the_prop, known, bind, this,
    update, ret, throw.
  simpl.
  destruct (_props m !! n) as [p|] eqn:Hp.
  2: { destruct (inherited n); [|reflexivity].
       destruct (pv m n); [reflexivity|]. rewrite Hp. reflexivity. }
  destruct (pv m n); [reflexivity|].
  rewrite ?Hp.
  destruct (valueValidator p v); [reflexivity|].
  rewrite ?Hp, lookup_alter_eq, Hp. simpl.
  destruct (didChange p v (value p)); reflexivity.
Qed.

Lemma value_of_assign n v m p :
  _props m !! n = Some p -> value_of n (assign n v m) = Some v.
Proof. intros Hp. unfold value_of. simpl. rewrite lookup_alter_eq, Hp. reflexivity. Qed.

Lemma value_of_assign_ne n n' v m :
  n <> n' -> value_of n' (assign n v m) = value_of n' m.
Proof. intros Hne. unfold value_of. simpl. rewrite lookup_alter_ne by exact Hne. reflexivity. Qed.

Lemma get_value_of n m v :
  value_of n m = Some v -> get n m = Returned v m.
Proof.
  unfold value_of, get, _get, read, validate, bind, this, noValidator. simpl.
  destruct (_props m !! n) as [p|]; simpl; [|discriminate].
  intros H. inversion H. reflexivity.
Qed.

(** While no listener writes [name], a cascade keeps its value. *)
Lemma cascade_keeps_value name v m0 fuel events :
  no_listener_writes name m0 ->
  maintains (fun m => static_same m0 m /\ value_of name m = Some v)
    (_firePropChangeEvents (_set fuel) events).
Proof.
  intros Hnone.
  apply (maintains_fire_set _ (fun p => p <> name) (fun _ => True)); auto.
  - intros p x m Hp [Hs Hv]. split; [apply static_same_assign, Hs|].
    rewrite value_of_assign_ne by exact Hp. exact Hv.
  - intros set_rec Hrec p n o m1 h _ [Hs1 _] Hh.
    apply (maintains_handler_target _ (fun p => p <> name)); auto.
    rewrite (static_same_listeners _ _ _ Hs1) in Hh.
    apply elem_of_listeners in Hh as (hs & Hhs & Hh).
    apply (map_Forall_lookup_1 _ _ _ _ Hnone) in Hhs.
    rewrite Forall_forall in Hhs. apply Hhs, Hh.
  - apply Forall_forall. auto.
Qed.

(** ** Reading back what was set *)

(** C7, as amended.  A successful [set(name, v)] followed by [get(name)]
    returns [v] whenever the property's change predicate reports no change,
    and, when it reports one, whenever no listener of the store writes the
    property (it is not the base of a view and not recomputed). *)
Theorem set_then_get fuel pv name v m m' p :
  _props m !! name = Some p ->
  didChange p v (value p) = false \/ no_listener_writes name m ->
  _set fuel pv (SetOne name v) m = Returned tt m' ->
  get name m' = Returned v m'.
Proof.
  intros Hp Hcase Hset. destruct fuel as [|fuel]; [discriminate|].
  rewrite _set_S, set_one_unfold, Hp in Hset.
  destruct (pv m name); [discriminate|].
  destruct (valueValidator p v); [discriminate|].
  apply get_value_of.
  destruct (didChange p v (value p)) eqn:Hchange.
  - destruct Hcase as [?|Hnone]; [discriminate|].
    pose proof (cascade_keeps_value name v (assign name v m) fuel
      [(name, (v, value p))]) as H.
    assert (Hnone' : no_listener_writes name (assign name v m)) by exact Hnone.
    specialize (H Hnone' (assign name v m)
      (conj (static_same_refl _) (value_of_assign _ _ _ _ Hp))).
    unfold _firePropChangeEvent in Hset. rewrite Hset in H. apply H.
  - inversion Hset; subst. eapply value_of_assign, Hp.
Qed.

Lemma set_then_get_witness :
  get "length" (after (set 3 (SetOne "length" (VNum 15))) rectangle)
  = Returned (VNum 15) (after (set 3 (SetOne "length" (VNum 15))) rectangle).
Proof.
  destruct (_props rectangle !! "length") as [p|] eqn:Hp; [|vm_compute in Hp; discriminate].
  apply (set_then_get 3 noValidator "length" (VNum 15) rectangle _ p Hp).
  - right. unfold no_listener_writes.
    refine (bool_decide_unpack _ _). vm_compute. exact Logic.I.
  - vm_compute. reflexivity.
Defined.

(** C7 as stated fails for the base of a view: the number is set to -3, the
    view becomes 3 and writes 3 back. *)
Lemma set_then_get_counterexample :
  derived <$> _props magnitude !! "number" = Some false /\
  exists m', set 3 (SetOne "number" (VNum (-3))) magnitude = Returned tt m' /\
             get "number" m' = Returned (VNum 3) m'.
Proof.
  split; [vm_compute; reflexivity|].
  eexists. split; vm_compute; reflexivity.
Qed.

(** ** Checks that come before any assignment *)

(** A loop of checks that do not touch the store either passes them all or
    stops at the first that throws. *)
Lemma forEach_pure_result {A} (l : list A) (f : A -> M unit) m :
  (forall x, pure (f x)) ->
  (forEach l f m = Returned tt m /\ forall x, x ∈ l -> f x m = Returned tt m) \/
  (exists x e, x ∈ l /\ f x m = Thrown e m /\ forEach l f m = Thrown e m).
Proof.
  intros Hf. induction l as [|x l IH]; simpl.
  - left. split; [reflexivity|]. intros x Hx. inversion Hx.
  - pose proof (Hf x m) as Hx. unfold bind.
    destruct (f x m) as [[] m1|e m1|] eqn:Hfx; [subst m1| subst m1 | contradiction].
    + destruct IH as [[Hall Hl]|(y & e & Hy & Hthrow & Hall)].
      * left. split; [exact Hall|]. intros y Hy.
        apply elem_of_cons in Hy as [->|Hy]; [exact Hfx | apply Hl, Hy].
      * right. exists y, e. split; [right; exact Hy | split; assumption].
    + right. exists x, e. split; [left | split; [exact Hfx | reflexivity]].
Qed.

Lemma known_defined k m : is_Some (_props m !! k) -> known k m = true.
Proof. intros [p Hp]. unfold known. rewrite Hp. reflexivity. Qed.

Lemma known_cases k m :
  known k m = true ->
  is_Some (_props m !! k) \/ (_props m !! k = None /\ inherited k = true).
Proof. unfold known. destruct (_props m !! k); eauto. Qed.

Lemma unknown_not_known k m : known k m = false -> _props m !! k = None.
Proof. unfold known. destruct (_props m !! k); [discriminate | reflexivity]. Qed.

Lemma read_defined k m p : _props m !! k = Some p -> read k m = Some (value p).
Proof. intros Hp. unfold read. rewrite Hp. reflexivity. Qed.

Lemma read_known k m : is_Some (read k m) <-> known k m = true.
Proof.
  unfold read, known. destruct (_props m !! k); [split; eauto|].
  destruct (inherited k); split; intros H; eauto; try discriminate.
  destruct H; discriminate.
Qed.

Lemma read_known_false k m : known k m = false -> read k m = None.
Proof.
  unfold read, known. destruct (_props m !! k); [discriminate|]. intros ->. reflexivity.
Qed.

Lemma check_exists_Returned k m :
  check_exists k m = Returned tt m <-> known k m = true.
Proof.
  unfold check_exists, bind, this. simpl.
  destruct (known k m); split; intros H; try reflexivity; discriminate.
Qed.

Lemma check_exists_Thrown k m e :
  check_exists k m = Thrown e m -> known k m = false /\ e = NoSuchProperty k.
Proof.
  unfold check_exists, bind, this. simpl.
  destruct (known k m); intros H; [discriminate|].
  inversion H. auto.
Qed.

Lemma validate_Returned pv k m :
  validate pv k m = Returned tt m <-> pv m k = None.
Proof.
  unfold validate. destruct (pv m k); split; intros H; try reflexivity; discriminate.
Qed.

Lemma validate_Thrown pv k m e :
  validate pv k m = Thrown e m -> pv m k = Some e.
Proof.
  unfold validate. destruct (pv m k); intros H; [|discriminate].
  inversion H. reflexivity.
Qed.

Lemma check_value_Thrown k v m e p :
  _props m !! k = Some p ->
  check_value (k, v) m = Thrown e m ->
  exists payload, valueValidator p v = Some payload /\ e = Raised payload.
Proof.
  unfold check_value, the_prop, bind. simpl. intros ->.
  destruct (valueValidator p v) as [payload|]; intros H; [|discriminate].
  inversion H. eauto.
Qed.

Lemma check_value_Returned k v m p :
  _props m !! k = Some p ->
  check_value (k, v) m = Returned tt m -> valueValidator p v = None.
Proof.
  unfold check_value, the_prop, bind. simpl. intros ->.
  destruct (valueValidator p v) as [payload|]; intros H; [discriminate|reflexivity].
Qed.

Lemma check_value_Returned_defined k v m :
  check_value (k, v) m = Returned tt m -> is_Some (_props m !! k).
Proof.
  unfold check_value, the_prop, bind. simpl.
  destruct (_props m !! k); [eauto | discriminate].
Qed.

Lemma check_value_inherited k v m :
  _props m !! k = None -> check_value (k, v) m = Thrown TypeError m.
Proof. unfold check_value, the_prop, bind. simpl. intros ->. reflexivity. Qed.

Lemma unknown_key_cases propValues m :
  unknown_key propValues m <-> missing_key propValues m \/ inherited_key propValues m.
Proof.
  split.
  - intros (k & Hk & Hnone). destruct (inherited k) eqn:Hi.
    + right. exists k. auto.
    + left. exists k. split; [exact Hk|]. unfold known. rewrite Hnone. exact Hi.
  - intros [(k & Hk & Hno)|(k & Hk & Hnone & _)]; exists k; split; auto.
    apply unknown_not_known, Hno.
Qed.

(** Why a bulk [set] throws before it assigns anything. *)
Lemma set_many_rejected set_rec pv propValues m :
  unknown_key propValues m \/ denied_key pv propValues m \/
  (exists payload, rejected_value propValues m payload) ->
  exists e, _set_body set_rec pv (SetMany propValues) m = Thrown e m /\
    (missing_key propValues m ->
       exists k, k ∈ propValues.*1 /\ known k m = false /\ e = NoSuchProperty k) /\
    (~ missing_key propValues m -> denied_key pv propValues m ->
       exists k, k ∈ propValues.*1 /\ pv m k = Some e) /\
    (~ missing_key propValues m -> ~ denied_key pv propValues m ->
       (exists payload, rejected_value propValues m payload /\ e = Raised payload) \/
       (inherited_key propValues m /\ e = TypeError)).
Proof.
  intros Hrej. unfold _set_body.
  destruct (forEach_pure_result propValues.*1 check_exists m pure_check_exists)
    as [[Hex Hall]|(k & e & Hk & Hthrow & Hex)].
  2:{ exists e. split; [apply bind_eq_Thrown, Hex|].
      apply check_exists_Thrown in Hthrow as [Hnone ->].
      split; [intros _; eauto|].
      split; intros Hno; exfalso; apply Hno; exists k; auto. }
  assert (Hknown : ~ missing_key propValues m).
  { intros (k & Hk & Hnone). apply Hall, check_exists_Returned in Hk. congruence. }
  rewrite (bind_eq_Returned _ _ _ _ _ Hex).
  destruct (forEach_pure_result propValues.*1 (validate pv) m (pure_validate pv))
    as [[Hauth Hall2]|(k & e & Hk & Hthrow & Hauth)].
  2:{ exists e. split; [apply bind_eq_Thrown, Hauth|].
      apply validate_Thrown in Hthrow.
      split; [intros H; contradiction|].
      split; [intros _ _; eauto|].
      intros _ Hno; exfalso; apply Hno; exists k, e; auto. }
  assert (Hallowed : ~ denied_key pv propValues m).
  { intros (k & e & Hk & Hden). apply Hall2, validate_Returned in Hk. congruence. }
  rewrite (bind_eq_Returned _ _ _ _ _ Hauth).
  destruct (forEach_pure_result propValues check_value m pure_check_value)
    as [[Hval Hall3]|([k v] & e & Hk & Hthrow & Hval)].
  - exfalso.
    destruct Hrej as [Hun|[?|(payload & k & v & p & Hin & Hp & Hv)]]; [|contradiction|].
    + apply unknown_key_cases in Hun as [?|(k & Hk & Hnone & _)]; [contradiction|].
      apply list_elem_of_fmap in Hk as ([k' v] & -> & Hin). simpl in Hnone.
      apply Hall3 in Hin. rewrite (check_value_inherited _ _ _ Hnone) in Hin.
      discriminate.
    + apply Hall3 in Hin. apply (check_value_Returned _ _ _ _ Hp) in Hin. congruence.
  - exists e. split; [apply bind_eq_Thrown, Hval|].
    split; [intros H; contradiction|]. split; [intros _ H; contradiction|].
    intros _ _.
    assert (Hkey : k ∈ propValues.*1).
    { apply list_elem_of_fmap. exists (k, v). split; [reflexivity | exact Hk]. }
    pose proof Hkey as Hkey'.
    apply Hall, check_exists_Returned, known_cases in Hkey' as [[p Hp]|[Hnone Hi]].
    + apply (check_value_Thrown _ _ _ _ _ Hp) in Hthrow as (payload & Hv & ->).
      left. exists payload. split; [|reflexivity]. exists k, v, p. auto.
    + rewrite (check_value_inherited _ _ _ Hnone) in Hthrow. inversion Hthrow.
      right. split; [|reflexivity]. exists k. auto.
Qed.

(** C4.  A bulk [set] with a key that is not a property of the store, a
    key the write validator denies or a value its property's validator
    rejects throws and leaves the store exactly as it was.  A key that the
    existence check refuses gives [NoSuchProperty]; when there is none, a
    denied key gives what the write validator threw; when there is none
    either, the first entry that fails decides: a rejected value gives what
    the value validator threw, and a key that is no property of the store
    but the name of a member of [Object.prototype], which the existence
    check lets through, gives the [TypeError] of calling the
    [valueValidator] such a member does not have. *)
Theorem bulk_set_all_or_nothing fuel pv propValues m :
  unknown_key propValues m \/ denied_key pv propValues m \/
  (exists payload, rejected_value propValues m payload) ->
  exists e, _set (S fuel) pv (SetMany propValues) m = Thrown e m /\
    (missing_key propValues m ->
       exists k, k ∈ propValues.*1 /\ known k m = false /\ e = NoSuchProperty k) /\
    (~ missing_key propValues m -> denied_key pv propValues m ->
       exists k, k ∈ propValues.*1 /\ pv m k = Some e) /\
    (~ missing_key propValues m -> ~ denied_key pv propValues m ->
       (exists payload, rejected_value propValues m payload /\ e = Raised payload) \/
       (inherited_key propValues m /\ e = TypeError)).
Proof. rewrite _set_S. apply set_many_rejected. Qed.

(** The bulk [set({length: 1, toString: 2})] on the rectangle: [toString]
    is not a property of the store, and the call throws a [TypeError]
    instead of the error for an unknown property. *)
Lemma bulk_set_all_or_nothing_witness :
  let propValues := [("length", VNum 1); ("toString", VNum 2)] in
  unknown_key propValues rectangle /\
  _set 1 noValidator (SetMany propValues) rectangle = Thrown TypeError rectangle.
Proof.
  cbv zeta.
  assert (Hun : unknown_key [("length", VNum 1); ("toString", VNum 2)] rectangle).
  { exists "toString". split.
    - simpl. apply list_elem_of_further, list_elem_of_here.
    - vm_compute. reflexivity. }
  split; [exact Hun|].
  destruct (bulk_set_all_or_nothing 0 noValidator
              [("length", VNum 1); ("toString", VNum 2)] rectangle (or_introl Hun))
    as (e & -> & _ & _ & Hlast).
  destruct Hlast as [(payload & (k & v & p & Hin & Hp & Hv) & _)|[_ ->]].
  - intros (k & Hk & Hno). simpl in Hk.
    repeat (apply elem_of_cons in Hk as [->|Hk]; [vm_compute in Hno; discriminate|]).
    inversion Hk.
  - intros (k & e' & _ & He). discriminate.
  - exfalso.
    repeat (apply elem_of_cons in Hin as [Heq|Hin];
            [inversion Heq; subst; vm_compute in Hp; inversion Hp; subst;
             vm_compute in Hv; discriminate|]).
    inversion Hin.
  - reflexivity.
Defined.

(** ** Facades *)

(** C10.  Through a facade, [get] asks the read validator before it looks
    the property up, and [set] looks it up before it asks the write
    validator.  For every name that the read validator denies, defined or
    not, [get] throws what the validator throws.  For a name that the
    existence check of [set] refuses, [set] throws [NoSuchProperty]
    whatever the write validator says; for a name that it lets through, a
    denial of the write validator is what [set] throws. *)
Theorem facade_get_validates_before_lookup
    readChecker readValidator writeValidator name m e fuel v :
  let rv := default (propertyCheckerToValidator readChecker) readValidator in
  let wv := default rv writeValidator in
  let api := createApi readChecker readValidator writeValidator in
  rv m name = Some e ->
  api_get api name m = Thrown e m /\
  (known name m = false ->
   api_set api (S fuel) (SetOne name v) m = Thrown (NoSuchProperty name) m) /\
  (known name m = true ->
   forall e', wv m name = Some e' ->
              api_set api (S fuel) (SetOne name v) m = Thrown e' m).
Proof.
  intros rv wv api Hdenied. split; [|split].
  - simpl. unfold _get, bind, validate. fold rv. rewrite Hdenied. reflexivity.
  - intros Hno. unfold api, createApi. cbn [api_set].
    rewrite _set_S, set_one_unfold, (unknown_not_known _ _ Hno).
    unfold known in Hno. rewrite (unknown_not_known _ _ Hno) in Hno.
    rewrite Hno. reflexivity.
  - intros Hk e' Hw. unfold api, createApi. cbn [api_set]. fold rv. fold wv.
    rewrite _set_S, set_one_unfold.
    apply known_cases in Hk as [[p Hp]|[Hnone Hi]].
    + rewrite Hp, Hw. reflexivity.
    + rewrite Hnone, Hi, Hw. reflexivity.
Qed.

Lemma facade_get_validates_before_lookup_witness :
  api_get getStandardPublicApi "_secret" rectangle
    = Thrown (NotPubliclyAccessible "_secret") rectangle /\
  api_set getStandardPublicApi 1 (SetOne "_secret" VNull) rectangle
    = Thrown (NoSuchProperty "_secret") rectangle.
Proof.
  assert (Hdenied : assertPropNameIsPublic rectangle "_secret"
                    = Some (NotPubliclyAccessible "_secret")) by reflexivity.
  destruct (facade_get_validates_before_lookup
              (fun n => if propNameIsPublic n then Truthy else Falsy)
              (Some assertPropNameIsPublic)
              (Some (fun m propName =>
                       match assertPropNameIsPublic m propName with
                       | Some e => Some e
                       | None => createStandardWriteValidator m propName
                       end))
              "_secret" rectangle (NotPubliclyAccessible "_secret") 0 VNull Hdenied)
    as (Hget & Hset & _).
  split; [exact Hget|]. apply Hset. vm_compute. reflexivity.
Defined.

Lemma extends_trace_refl m : extends_trace m m.
Proof. exists []. rewrite app_nil_r. reflexivity. Qed.

Lemma extends_trace_record m0 m e :
  extends_trace m0 m -> extends_trace m0 (record e m).
Proof. intros [rest H]. exists (rest ++ [e]). simpl. rewrite H, app_assoc. reflexivity. Qed.

(** A cascade only adds to the trace. *)
Lemma fire_extends_trace m0 fuel events :
  maintains (extends_trace m0) (_firePropChangeEvents (_set fuel) events).
Proof.
  apply (maintains_fire_set _ (fun _ => True) (fun _ => True)); auto.
  - intros p v m _ H. apply extends_trace_record, H.
  - intros p n o m _ H. apply extends_trace_record, H.
  - intros m1 m _ _ H. apply extends_trace_record, H.
  - intros set_rec Hrec p n o m1 h _ _ _.
    apply (maintains_handler_target _ (fun _ => True)); auto.
  - apply Forall_forall. auto.
Qed.

Lemma run_handler_muted set_rec h p n o m :
  muted m h -> run_handler set_rec h p n o m = Returned tt m.
Proof.
  destruct h as [t u|w u|w b r]; simpl; try contradiction.
  intros Hw. unfold bind, this. rewrite Hw. reflexivity.
Qed.

Lemma forEach_muted set_rec hs p n o m :
  Forall (muted m) hs ->
  forEach hs (fun h => run_handler set_rec h p n o) m = Returned tt m.
Proof.
  induction 1 as [|h hs Hh _ IH]; [reflexivity|].
  simpl. unfold bind. rewrite run_handler_muted by exact Hh. exact IH.
Qed.

Lemma emit_changed_muted set_rec p n o m :
  Forall (muted m) (listeners (changed p) m) ->
  emit_changed set_rec p n o m = Returned tt (record (PropChanged p n o) m).
Proof.
  intros Hmuted. unfold emit_changed, bind, update, this.
  change (listeners (changed p) (record (PropChanged p n o) m))
    with (listeners (changed p) m).
  apply forEach_muted. exact Hmuted.
Qed.

Lemma forEach_announce set_rec events m :
  (forall ev, ev ∈ events -> Forall (muted m) (listeners (changed ev.1) m)) ->
  forEach events (fun '(propName, (newValue, oldValue)) =>
    update (set_firedProps (Set_add propName)) >>
    emit_changed set_rec propName newValue oldValue) m
  = Returned tt (foldl announce m events).
Proof.
  revert m. induction events as [|[p [n o]] events IH]; intros m Hmuted; [reflexivity|].
  simpl. unfold bind at 1. unfold bind at 1. unfold update at 1.
  rewrite emit_changed_muted by (apply (Hmuted (p, (n, o))); left).
  apply IH. intros ev Hev. apply (Hmuted ev). right. exact Hev.
Qed.

(** Change events whose listeners are all muted: each is emitted, then the
    chain completes if this call started it. *)
Lemma fire_muted set_rec events m :
  (forall ev, ev ∈ events -> Forall (muted m) (listeners (changed ev.1) m)) ->
  _firePropChangeEvents set_rec events m
  = Returned tt (settle m (foldl announce m events)).
Proof.
  intros Hmuted. unfold _firePropChangeEvents.
  change (bind this ?k m) with (k m m). cbv beta.
  unfold bind at 1. rewrite forEach_announce by exact Hmuted.
  unfold settle. case_bool_decide; reflexivity.
Qed.

(** Change events nobody listens to. *)
Lemma fire_no_listeners set_rec events m :
  (forall ev, ev ∈ events -> listeners (changed ev.1) m = []) ->
  _firePropChangeEvents set_rec events m
  = Returned tt (settle m (foldl announce m events)).
Proof.
  intros Hnone. apply fire_muted. intros ev Hev. rewrite (Hnone ev Hev). constructor.
Qed.

Lemma standard_write_validator_derived m d p :
  _props m !! d = Some p -> derived p = true ->
  createStandardWriteValidator m d = Some (DerivedWriteDenied d).
Proof. intros Hp Hd. unfold createStandardWriteValidator. rewrite Hp, Hd. reflexivity. Qed.

Lemma standard_write_validator_kind m k e :
  known k m = true ->
  createStandardWriteValidator m k = Some e -> kind_of e = AccessDeniedError.
Proof.
  unfold known, createStandardWriteValidator. destruct (_props m !! k) as [q|].
  - intros _. destruct (derived q); intros H; inversion H. reflexivity.
  - intros ->. discriminate.
Qed.

(** The write validator of the public facade. *)
Lemma public_api_set fuel args :
  api_set getStandardPublicApi fuel args
  = _set fuel (fun m propName =>
                 match assertPropNameIsPublic m propName with
                 | Some e => Some e
                 | None => createStandardWriteValidator m propName
                 end) args.
Proof. reflexivity. Qed.

Lemma private_api_set fuel args :
  api_set getStandardPrivateApi fuel args = _set fuel createStandardWriteValidator args.
Proof. reflexivity. Qed.

Lemma not_unknown_key propValues m k :
  ~ unknown_key propValues m -> k ∈ propValues.*1 -> is_Some (_props m !! k).
Proof.
  intros Hknown Hk. destruct (_props m !! k) eqn:Hq; [eauto|].
  exfalso. apply Hknown. exists k. auto.
Qed.

Lemma not_missing_key propValues m k :
  ~ missing_key propValues m -> k ∈ propValues.*1 -> known k m = true.
Proof.
  intros Hknown Hk. destruct (known k m) eqn:Hq; [reflexivity|].
  exfalso. apply Hknown. exists k. auto.
Qed.

(** ** Defining a derived property *)

Lemma string_length_app (s t : string) :
  String.length (s +:+ t) = String.length s + String.length t.
Proof.
  induction s as [|c s IH]; [reflexivity|].
  change (S (String.length (s +:+ t)) = S (String.length s + String.length t)).
  rewrite IH. reflexivity.
Qed.

Lemma append_nil_inv (s t : string) : s +:+ t = t -> s = EmptyString.
Proof.
  intros H. assert (Hlen : String.length (s +:+ t) = String.length t) by (rewrite H; reflexivity).
  rewrite string_length_app in Hlen.
  destruct s; [reflexivity|]. simpl in Hlen. lia.
Qed.

(** Different properties have different channels. *)
Lemma changed_inj p q : changed p = changed q -> p = q.
Proof.
  unfold changed. revert q. induction p as [|c p IH]; intros q H.
  - symmetry in H. apply append_nil_inv in H. auto.
  - destruct q as [|c' q].
    + apply append_nil_inv in H. discriminate.
    + change (String c (p +:+ "-changed") = String c' (q +:+ "-changed")) in H.
      inversion H; subst. f_equal. apply IH. assumption.
Qed.

Lemma listeners_subscribe ch ch' h m :
  listeners ch (subscribe ch' h m) =
    if decide (ch' = ch) then listeners ch m ++ [h] else listeners ch m.
Proof.
  unfold listeners, subscribe. simpl. rewrite lookup_insert.
  case_decide; subst; reflexivity.
Qed.

Lemma forEach_noValidator names m :
  forEach names (validate noValidator) m = Returned tt m.
Proof.
  induction names as [|n names IH]; [reflexivity|]. simpl. unfold bind. simpl. exact IH.
Qed.

Lemma createUtilizer_Returned names f m :
  (forall n, n ∈ names -> known n m = true) ->
  createUtilizer names f m = Returned (Utilizer names f) m.
Proof.
  intros Hdef. unfold createUtilizer, _createUtilizer.
  rewrite (bind_eq_Returned _ _ _ _ _ (forEach_noValidator names m)).
  match goal with |- bind (forEach names ?g) _ m = _ =>
    assert (Hloop : forEach names g m = Returned tt m)
  end.
  { clear f. induction names as [|n names IH]; [reflexivity|]. simpl.
    pose proof (Hdef n ltac:(left)) as Hp.
    unfold bind at 1. unfold bind at 1. unfold this at 1. rewrite Hp. simpl.
    apply IH. intros k Hk. apply Hdef. right. exact Hk. }
  rewrite (bind_eq_Returned _ _ _ _ _ Hloop). reflexivity.
Qed.

Lemma values_of_current names m vs :
  current_values names m = Some vs -> values_of names m = Returned vs m.
Proof.
  revert vs. induction names as [|n names IH]; simpl; intros vs H.
  - inversion H. reflexivity.
  - unfold bind, the_value.
    destruct (read n m) as [v|]; simpl in H; [|discriminate].
    destruct (current_values names m) as [vs'|]; [|discriminate].
    rewrite (IH vs' eq_refl). inversion H. reflexivity.
Qed.

(** The current values of properties of the store are their stored values. *)
Lemma current_values_stored names m :
  (forall n, n ∈ names -> is_Some (_props m !! n)) ->
  current_values names m = mapM (fun n => value_of n m) names.
Proof.
  induction names as [|n names IH]; intros Hdef; [reflexivity|].
  simpl. destruct (Hdef n ltac:(left)) as [p Hp].
  rewrite IH by (intros k Hk; apply Hdef; right; exact Hk).
  unfold read, value_of. rewrite Hp. reflexivity.
Qed.

Lemma call_utilizer_current names f m vs :
  current_values names m = Some vs ->
  call_utilizer (Utilizer names f) m = complete (f vs) m.
Proof.
  intros H. unfold call_utilizer. simpl.
  rewrite (bind_eq_Returned _ _ _ _ _ (values_of_current _ _ _ H)). reflexivity.
Qed.

Lemma current_values_defined names m vs :
  current_values names m = Some vs -> forall n, n ∈ names -> known n m = true.
Proof.
  revert vs. induction names as [|k names IH]; simpl; intros vs H n Hn.
  - inversion Hn.
  - destruct (read k m) as [v|] eqn:Hp; simpl in H; [|discriminate].
    destruct (current_values names m) as [vs'|]; [|discriminate].
    apply elem_of_cons in Hn as [->|Hn]; [|eapply IH; eauto].
    apply read_known. eauto.
Qed.

Lemma onAny_subscribes names h m :
  _onAny noValidator names h m
  = Returned tt (foldl (fun m n => subscribe (changed n) h m) m names).
Proof.
  unfold _onAny. rewrite (bind_eq_Returned _ _ _ _ _ (forEach_noValidator names m)).
  revert m. induction names as [|n names IH]; intros m; [reflexivity|].
  simpl. unfold bind at 1. unfold on, update at 1. apply IH.
Qed.

Lemma listeners_onAny_other p names h m :
  p ∉ names ->
  listeners (changed p) (foldl (fun m n => subscribe (changed n) h m) m names)
  = listeners (changed p) m.
Proof.
  revert m. induction names as [|n names IH]; intros m Hp; [reflexivity|].
  simpl. rewrite IH by (intros H; apply Hp; right; exact H).
  rewrite listeners_subscribe. case_decide as Heq; [|reflexivity].
  apply changed_inj in Heq. subst. exfalso. apply Hp. left.
Qed.

Lemma props_onAny names h m :
  _props (foldl (fun m n => subscribe (changed n) h m) m names) = _props m.
Proof. revert m. induction names as [|n names IH]; intros m; [reflexivity|]. simpl. rewrite IH. reflexivity. Qed.

Lemma check_undefined_fresh n m :
  known n m = false -> check_undefined n m = Returned tt m.
Proof. intros H. unfold check_undefined, bind, this. rewrite H. reflexivity. Qed.

Lemma value_of_settle n m0 m : value_of n (settle m0 m) = value_of n m.
Proof. unfold settle. case_bool_decide; reflexivity. Qed.

(** [defineDerivedProp] for a fresh name over defined dependencies, nobody
    listening to the new name yet. *)
Lemma defineDerivedProp_unfold fuel propName dependsOn calc init dc m vs :
  known propName m = false ->
  current_values dependsOn m = Some vs ->
  listeners (changed propName) m = [] ->
  defineDerivedProp fuel propName dependsOn calc init dc m =
    match (if typeof_undefined init then calc vs else Return init) with
    | Raise payload => Thrown (Raised payload) m
    | Return v =>
        let m1 :=
          foldl (fun m n => subscribe (changed n)
                              (RecomputeDerived propName (Utilizer dependsOn calc)) m)
            (set_props (insert propName
               {| value := v; derived := true;
                  valueValidator := fun _ => None; didChange := dc |}) m)
            dependsOn in
        Returned tt
          (if dc v VUndefined
           then settle m1 (announce m1 (propName, (v, VUndefined)))
           else m1)
    end.
Proof.
  intros Hfresh Hvs Hnone. unfold defineDerivedProp.
  rewrite (bind_eq_Returned _ _ _ _ _ (check_undefined_fresh _ _ Hfresh)).
  rewrite (bind_eq_Returned _ _ _ _ _
    (createUtilizer_Returned _ calc _ (current_values_defined _ _ _ Hvs))).
  assert (Hv : (if typeof_undefined init
                then call_utilizer (Utilizer dependsOn calc)
                else ret init) m
               = complete (if typeof_undefined init then calc vs else Return init) m).
  { destruct (typeof_undefined init); [|reflexivity].
    apply call_utilizer_current, Hvs. }
  unfold bind at 1. rewrite Hv.
  destruct (if typeof_undefined init then calc vs else Return init) as [v|payload];
    [|reflexivity].
  simpl complete. unfold ret at 1. unfold bind at 1. unfold update at 1.
  unfold bind at 1. rewrite onAny_subscribes.
  destruct (dc v VUndefined); [|reflexivity].
  unfold _firePropChangeEvent. rewrite fire_no_listeners; [reflexivity|].
  intros ev Hev. apply list_elem_of_singleton in Hev as ->. simpl.
  rewrite listeners_onAny_other; [exact Hnone|].
  intros Hin. apply (current_values_defined _ _ _ Hvs) in Hin. congruence.
Qed.

(** C8.  Where [defineDerivedProp] gets past its checks (the name is not
    taken, which for the code includes the names of the members of
    [Object.prototype], and the dependencies are known), a derived property
    defined with an initial value whose [typeof] is not ['undefined']
    starts with that value, whatever the compute function is: it is not
    called, so even one that throws on every input does not make the
    definition throw.  With no initial value the property starts with the
    compute function applied to the current values of the dependencies in
    their order, and a compute function that throws makes the definition
    throw. *)
Theorem derived_initial_value fuel propName dependsOn calc init dc m vs :
  known propName m = false ->
  current_values dependsOn m = Some vs ->
  listeners (changed propName) m = [] ->
  (typeof_undefined init = false ->
     exists m', defineDerivedProp fuel propName dependsOn calc init dc m = Returned tt m' /\
                value_of propName m' = Some init) /\
  (typeof_undefined init = true -> forall v, calc vs = Return v ->
     exists m', defineDerivedProp fuel propName dependsOn calc init dc m = Returned tt m' /\
                value_of propName m' = Some v) /\
  (typeof_undefined init = true -> forall payload, calc vs = Raise payload ->
     defineDerivedProp fuel propName dependsOn calc init dc m = Thrown (Raised payload) m).
Proof.
  intros Hfresh Hvs Hnone.
  rewrite (defineDerivedProp_unfold _ _ _ _ _ _ _ _ Hfresh Hvs Hnone).
  assert (Hstored : forall v,
    value_of propName
      (let m1 :=
         foldl (fun m n => subscribe (changed n)
                             (RecomputeDerived propName (Utilizer dependsOn calc)) m)
           (set_props (insert propName
              {| value := v; derived := true;
                 valueValidator := fun _ => None; didChange := dc |}) m)
           dependsOn in
       if dc v VUndefined
       then settle m1 (announce m1 (propName, (v, VUndefined)))
       else m1) = Some v).
  { intros v. cbv zeta. destruct (dc v VUndefined).
    - rewrite value_of_settle. unfold value_of, announce. simpl.
      rewrite props_onAny. simpl. rewrite lookup_insert_eq. reflexivity.
    - unfold value_of. rewrite props_onAny. simpl. rewrite lookup_insert_eq. reflexivity. }
  split; [|split].
  - intros ->. eexists. split; [reflexivity | apply Hstored].
  - intros -> v ->. eexists. split; [reflexivity | apply Hstored].
  - intros -> payload ->. reflexivity.
Qed.

Lemma derived_initial_value_witness :
  (exists m', defineDerivedProp 0 "ratio" ["length"; "width"] always_throws
                (VBool false) defaultDidChange rectangle = Returned tt m' /\
              value_of "ratio" m' = Some (VBool false)) /\
  (exists m', defineDerivedProp 0 "ratio" ["length"; "width"] always_throws
                (VNum 0) defaultDidChange rectangle = Returned tt m' /\
              value_of "ratio" m' = Some (VNum 0)) /\
  (exists m', defineDerivedProp 0 "ratio" ["length"; "width"] always_throws
                (VStr EmptyString) defaultDidChange rectangle = Returned tt m' /\
              value_of "ratio" m' = Some (VStr EmptyString)) /\
  (exists m', defineDerivedProp 0 "ratio" ["length"; "width"] always_throws
                VNull defaultDidChange rectangle = Returned tt m' /\
              value_of "ratio" m' = Some VNull) /\
  (exists m', defineDerivedProp 0 "ratio" ["length"; "width"] product
                VUndefined defaultDidChange rectangle = Returned tt m' /\
              value_of "ratio" m' = Some (VNum 200)).
Proof.
  assert (Hfresh : known "ratio" rectangle = false) by (vm_compute; reflexivity).
  assert (Hvs : current_values ["length"; "width"] rectangle = Some [VNum 10; VNum 20])
    by (vm_compute; reflexivity).
  assert (Hnone : listeners (changed "ratio") rectangle = []) by (vm_compute; reflexivity).
  split; [|split; [|split; [|split]]].
  - exact (proj1 (derived_initial_value 0 "ratio" _ always_throws (VBool false) _ _ _
                    Hfresh Hvs Hnone) eq_refl).
  - exact (proj1 (derived_initial_value 0 "ratio" _ always_throws (VNum 0) _ _ _
                    Hfresh Hvs Hnone) eq_refl).
  - exact (proj1 (derived_initial_value 0 "ratio" _ always_throws (VStr EmptyString) _ _ _
                    Hfresh Hvs Hnone) eq_refl).
  - exact (proj1 (derived_initial_value 0 "ratio" _ always_throws VNull _ _ _
                    Hfresh Hvs Hnone) eq_refl).
  - exact (proj1 (proj2 (derived_initial_value 0 "ratio" _ product VUndefined _ _ _
                    Hfresh Hvs Hnone)) eq_refl (VNum 200) eq_refl).
Defined.

(** ** The settle notification *)

Lemma Set_add_nonempty x s : Set_add x s <> [].
Proof.
  unfold Set_add. case_bool_decide as H.
  - intros ->. inversion H.
  - destruct s; discriminate.
Qed.

Lemma add_all_snoc s names x : add_all s (names ++ [x]) = Set_add x (add_all s names).
Proof. unfold add_all. rewrite foldl_app. reflexivity. Qed.

Lemma changed_names_snoc events e :
  changed_names (events ++ [e]) = changed_names events ++ from_option (fun n => [n]) [] (changed_name e).
Proof.
  unfold changed_names. rewrite omap_app. simpl.
  destruct (changed_name e); reflexivity.
Qed.

Lemma in_chain_refl m : in_chain m m.
Proof. exists []. rewrite app_nil_r. repeat split. constructor. Qed.

Lemma in_chain_assign m0 m p v : in_chain m0 m -> in_chain m0 (assign p v m).
Proof.
  intros (events & Ht & Hs & Hf). exists (events ++ [Assigned p v]). split; [|split].
  - simpl. rewrite Ht, app_assoc. reflexivity.
  - apply Forall_app. split; [exact Hs | repeat constructor].
  - rewrite changed_names_snoc. simpl. rewrite app_nil_r. exact Hf.
Qed.

Lemma in_chain_announce m0 m p n o :
  in_chain m0 m ->
  in_chain m0 (record (PropChanged p n o) (set_firedProps (Set_add p) m)).
Proof.
  intros (events & Ht & Hs & Hf). exists (events ++ [PropChanged p n o]). split; [|split].
  - simpl. rewrite Ht, app_assoc. reflexivity.
  - apply Forall_app. split; [exact Hs | repeat constructor].
  - rewrite changed_names_snoc. simpl. rewrite add_all_snoc, <- Hf. reflexivity.
Qed.

(** Inside a chain, a nested [set] emits no settle notification and adds
    the names it changes to [_firedProps]. *)
Lemma nested_set_in_chain m0 fuel pv args :
  maintains (fun m => in_chain m0 m /\ _firedProps m <> []) (_set fuel pv args).
Proof.
  apply (maintains_set _ (fun _ => True) (fun _ => True)); auto.
  - intros p v m _ [H Hne]. split; [apply in_chain_assign, H | exact Hne].
  - intros p n o m _ [H _]. split; [apply in_chain_announce, H | apply Set_add_nonempty].
  - intros m1 m [_ Hne] Hnil _. contradiction.
  - intros set_rec Hrec p n o m1 h _ _ _.
    apply (maintains_handler_target _ (fun _ => True)); auto.
  - apply Forall_forall. auto.
Qed.

(** One change event and its cascade, from the start of a chain or inside it. *)
Lemma announce_in_chain m0 fuel p n o :
  hoare (in_chain m0)
    (update (set_firedProps (Set_add p)) >> emit_changed (_set fuel) p n o)
    (fun _ => in_chain m0) (fun _ _ => True).
Proof.
  intros m Hm.
  set (m2 := record (PropChanged p n o) (set_firedProps (Set_add p) m)).
  change ((update (set_firedProps (Set_add p)) >> emit_changed (_set fuel) p n o) m)
    with (forEach (listeners (changed p) m2)
            (fun h => run_handler (_set fuel) h p n o) m2).
  assert (Hm2 : in_chain m0 m2 /\ _firedProps m2 <> []).
  { split; [apply in_chain_announce, Hm | apply Set_add_nonempty]. }
  pose proof (hoare_forEach (fun m => in_chain m0 m /\ _firedProps m <> [])
    (listeners (changed p) m2) (fun h => run_handler (_set fuel) h p n o)
    (fun _ m => in_chain m0 m /\ _firedProps m <> [])) as Hloop.
  specialize (Hloop ltac:(intros h _;
    apply (maintains_handler_target _ (fun _ => True)); auto;
    intros pv args _; apply nested_set_in_chain) m2 Hm2).
  destruct (forEach _ _ m2); [apply Hloop | exact Logic.I | exact Logic.I].
Qed.

(** The first call of a chain: change events and their cascades, then one
    settle notification that lists the changed names, then an empty batch. *)
Lemma fire_settles fuel events m0 m' :
  _firedProps m0 = [] ->
  _firePropChangeEvents (_set fuel) events m0 = Returned tt m' ->
  exists cascade,
    trace m' = trace m0 ++ cascade ++ [PropChainCompleted (collapse (changed_names cascade))] /\
    Forall (fun e => is_settle e = false) cascade /\
    _firedProps m' = [].
Proof.
  intros Hnil Hfire. unfold _firePropChangeEvents in Hfire.
  change (bind this ?k m0) with (k m0 m0) in Hfire. cbv beta in Hfire.
  rewrite Hnil in Hfire. simpl in Hfire.
  apply bind_Returned in Hfire as ([] & m1 & Hloop & Hfire).
  pose proof (hoare_forEach (in_chain m0) events
    (fun '(propName, (newValue, oldValue)) =>
       update (set_firedProps (Set_add propName)) >>
       emit_changed (_set fuel) propName newValue oldValue)
    (fun _ _ => True)) as H.
  specialize (H ltac:(intros [p [n o]] _; apply announce_in_chain) m0 (in_chain_refl m0)).
  rewrite Hloop in H. destruct H as (cascade & Ht & Hs & Hf).
  inversion Hfire; subst m'. clear Hfire.
  exists cascade. simpl. rewrite Ht, Hf, Hnil, <- app_assoc. auto.
Qed.

Lemma pure_Returned {A} (c : M A) m a m' : pure c -> c m = Returned a m' -> m' = m.
Proof. intros Hc H. specialize (Hc m). rewrite H in Hc. exact Hc. Qed.

Lemma assign_all_Returned propValues oldValues m r m0 :
  assign_all propValues oldValues m = Returned r m0 ->
  m0 = assigned propValues m /\ r = oldValues ++ olds_of propValues m.
Proof.
  revert oldValues m. induction propValues as [|[k v] rest IH]; intros oldValues m H; simpl in *.
  - inversion H. rewrite app_nil_r. auto.
  - unfold bind at 1 in H. unfold the_prop in H. unfold value_of.
    destruct (_props m !! k) as [p|]; [|discriminate].
    unfold bind at 1 in H. unfold update at 1 in H.
    apply IH in H as [-> ->]. split; [reflexivity|].
    rewrite <- app_assoc. reflexivity.
Qed.

Lemma trace_assigned propValues m :
  trace (assigned propValues m) = trace m ++ map (fun kv => Assigned kv.1 kv.2) propValues.
Proof.
  revert m. induction propValues as [|[k v] rest IH]; intros m; simpl.
  - rewrite app_nil_r. reflexivity.
  - unfold assigned in *. simpl. rewrite IH. simpl. rewrite <- app_assoc. reflexivity.
Qed.

Lemma firedProps_assigned propValues m :
  _firedProps (assigned propValues m) = _firedProps m.
Proof.
  revert m. induction propValues as [|[k v] rest IH]; intros m; [reflexivity|].
  unfold assigned in *. simpl. rewrite IH. reflexivity.
Qed.

Lemma changed_names_app l1 l2 :
  changed_names (l1 ++ l2) = changed_names l1 ++ changed_names l2.
Proof. apply omap_app. Qed.

Lemma changed_names_assigned (propValues : list (string * val)) :
  changed_names (map (fun kv => Assigned kv.1 kv.2) propValues) = [].
Proof. induction propValues as [|kv rest IH]; [reflexivity | exact IH]. Qed.

(** What a bulk [set] that returns has done: all checks passed, then every
    value was assigned, then the change events were fired. *)
Lemma set_many_Returned set_rec pv propValues m m' :
  _set_body set_rec pv (SetMany propValues) m = Returned tt m' ->
  exists changeEvents,
    filterM
      (imap (fun idx '(propName, v) =>
               (propName, (v, nth idx (olds_of propValues m) VUndefined))) propValues)
      (fun '(propName, (newValue, oldValue)) =>
         let* p := the_prop propName in
         ret (didChange p newValue oldValue)) (assigned propValues m)
    = Returned changeEvents (assigned propValues m) /\
    _firePropChangeEvents set_rec changeEvents (assigned propValues m) = Returned tt m'.
Proof.
  unfold _set_body. intros H.
  apply bind_Returned in H as ([] & m1 & H1 & H).
  apply pure_Returned in H1 as ->; [|apply pure_forEach; intros; apply pure_check_exists].
  apply bind_Returned in H as ([] & m1 & H1 & H).
  apply pure_Returned in H1 as ->; [|apply pure_forEach; intros; apply pure_validate].
  apply bind_Returned in H as ([] & m1 & H1 & H).
  apply pure_Returned in H1 as ->; [|apply pure_forEach; intros; apply pure_check_value].
  apply bind_Returned in H as (oldValues & m1 & H1 & H).
  apply assign_all_Returned in H1 as [-> ->]. simpl in H.
  apply bind_Returned in H as (changeEvents & m1 & H1 & H).
  pose proof H1 as Hpure. apply pure_Returned in Hpure as ->.
  - exists changeEvents. split; assumption.
  - apply pure_filterM. intros [n [a b]].
    apply pure_bind; [apply pure_the_prop | intros; apply pure_ret].
Qed.

(** C3, as amended.  On a store whose batch of fired names is empty, an
    outermost [set] that returns and reaches [_firePropChangeEvents] (every
    bulk write; a single write whose change predicate reports a change)
    emits exactly one settle notification.  It is the last event of the
    call, after the whole cascade; it lists the names of all change events
    of the cascade, each once, in the order of first occurrence; and the
    batch is empty afterwards. *)
Theorem settle_once fuel pv args m m' :
  _firedProps m = [] ->
  fires args m ->
  _set fuel pv args m = Returned tt m' ->
  exists events,
    trace m' = trace m ++ events ++ [PropChainCompleted (collapse (changed_names events))] /\
    Forall (fun e => is_settle e = false) events /\
    _firedProps m' = [].
Proof.
  intros Hnil Hfires Hset. destruct fuel as [|fuel]; [discriminate|].
  rewrite _set_S in Hset. destruct args as [n v|propValues].
  - destruct Hfires as (p & Hp & Hchange).
    rewrite set_one_unfold, Hp in Hset.
    destruct (pv m n); [discriminate|].
    destruct (valueValidator p v); [discriminate|].
    rewrite Hchange in Hset.
    apply fire_settles in Hset as (cascade & Ht & Hs & Hf); [|exact Hnil].
    exists (Assigned n v :: cascade). split; [|split].
    + rewrite Ht. simpl. rewrite <- app_assoc. reflexivity.
    + constructor; [reflexivity | exact Hs].
    + exact Hf.
  - apply set_many_Returned in Hset as (changeEvents & _ & Hfire).
    apply fire_settles in Hfire as (cascade & Ht & Hs & Hf);
      [|rewrite firedProps_assigned; exact Hnil].
    exists (map (fun kv => Assigned kv.1 kv.2) propValues ++ cascade). split; [|split].
    + rewrite Ht, trace_assigned, changed_names_app, changed_names_assigned.
      simpl. rewrite <- !app_assoc. reflexivity.
    + apply Forall_app. split; [|exact Hs].
      apply Forall_forall. intros e He. apply list_elem_of_fmap in He as (kv & -> & _).
      reflexivity.
    + exact Hf.
Qed.

Lemma settle_once_witness :
  exists events,
    trace (after (set 3 (SetOne "length" (VNum 15))) rectangle)
      = trace rectangle ++ events ++ [PropChainCompleted (collapse (changed_names events))] /\
    Forall (fun e => is_settle e = false) events /\
    _firedProps (after (set 3 (SetOne "length" (VNum 15))) rectangle) = [].
Proof.
  apply (settle_once 3 noValidator (SetOne "length" (VNum 15)) rectangle).
  - vm_compute. reflexivity.
  - eexists. split; vm_compute; reflexivity.
  - vm_compute. reflexivity.
Defined.

(** C3 as stated fails for a single write that its change predicate does
    not report: the value is assigned and no settle notification follows. *)
Lemma settle_once_counterexample :
  _firedProps rectangle = [] /\
  exists m', set 3 (SetOne "length" (VNum 10)) rectangle = Returned tt m' /\
             trace_since rectangle m' = [Assigned "length" (VNum 10)].
Proof.
  split; [vm_compute; reflexivity|].
  eexists. split; vm_compute; reflexivity.
Qed.

(** ** Bulk writes *)

Lemma value_of_assign_cases k k' v m :
  value_of k' (assign k v m)
  = if decide (k = k') then (fun _ => v) <$> value_of k' m else value_of k' m.
Proof.
  unfold value_of. simpl. rewrite lookup_alter. case_decide; [subst|reflexivity].
  destruct (_props m !! k'); reflexivity.
Qed.

Lemma olds_of_ext propValues m1 m2 :
  (forall k, k ∈ propValues.*1 -> value_of k m1 = value_of k m2) ->
  olds_of propValues m1 = olds_of propValues m2.
Proof.
  revert m1 m2. induction propValues as [|[k v] rest IH]; intros m1 m2 H; [reflexivity|].
  simpl. f_equal.
  - rewrite (H k); [reflexivity | left].
  - apply IH. intros k' Hk'. rewrite !value_of_assign_cases.
    rewrite (H k') by (right; exact Hk'). reflexivity.
Qed.

(** With distinct keys, the old values are those the store held before the
    call. *)
Lemma olds_of_NoDup propValues m :
  NoDup propValues.*1 ->
  olds_of propValues m
  = map (fun kv => default VUndefined (value_of kv.1 m)) propValues.
Proof.
  revert m. induction propValues as [|[k v] rest IH]; intros m Hnd; [reflexivity|].
  simpl in *. apply NoDup_cons in Hnd as [Hk Hnd]. f_equal.
  rewrite <- (IH m Hnd). apply olds_of_ext. intros k' Hk'.
  rewrite value_of_assign_cases. case_decide; [subst; contradiction | reflexivity].
Qed.

Lemma entries_with_olds (propValues : list (string * val)) (g : string * val -> val) :
  imap (fun idx '(propName, v) =>
          (propName, (v, nth idx (map g propValues) VUndefined))) propValues
  = map (fun kv => (kv.1, (kv.2, g kv))) propValues.
Proof.
  transitivity (imap (const (fun kv : string * val => (kv.1, (kv.2, g kv)))) propValues);
    [|apply imap_const].
  apply imap_ext. intros i [k v] Hi. simpl.
  rewrite nth_lookup, list_lookup_fmap, Hi. reflexivity.
Qed.

Lemma props_assigned_lookup propValues m k p :
  _props m !! k = Some p ->
  exists q, _props (assigned propValues m) !! k = Some q /\ shape q = shape p.
Proof.
  revert m p. induction propValues as [|[k' v] rest IH]; intros m p Hp; [eauto|].
  unfold assigned in *. simpl.
  destruct (IH (assign k' v m) (if decide (k' = k) then with_value v p else p))
    as (q & Hq & Hs).
  - simpl. rewrite lookup_alter. case_decide; [subst|]; rewrite Hp; reflexivity.
  - exists q. split; [exact Hq|]. rewrite Hs. case_decide; reflexivity.
Qed.

(** The filter of [_set] keeps the entries of [change_events]. *)
Lemma filter_change_events (propValues : list (string * val)) m m1 :
  (forall k, k ∈ propValues.*1 -> is_Some (_props m !! k)) ->
  (forall k p, _props m !! k = Some p ->
     exists q, _props m1 !! k = Some q /\ shape q = shape p) ->
  filterM
    (map (fun kv => (kv.1, (kv.2, default VUndefined (value_of kv.1 m)))) propValues)
    (fun '(propName, (newValue, oldValue)) =>
       let* p := the_prop propName in
       ret (didChange p newValue oldValue)) m1
  = Returned (change_events propValues m) m1.
Proof.
  intros Hknown Hsame. induction propValues as [|[k v] rest IH]; [reflexivity|].
  simpl. destruct (Hknown k) as [p Hp]; [left|].
  destruct (Hsame k p Hp) as (q & Hq & Hs).
  unfold bind at 1. unfold bind at 1. unfold the_prop at 1. rewrite Hq. simpl.
  unfold bind at 1. rewrite IH by (intros k' Hk'; apply Hknown; right; exact Hk').
  unfold change_events. simpl. rewrite Hp. unfold value_of. rewrite Hp. simpl.
  assert (Hd : didChange q = didChange p) by (unfold shape in Hs; congruence).
  rewrite Hd. destruct (didChange p v (value p)); reflexivity.
Qed.

(** A bulk [set] with distinct keys that returns has fired exactly
    [change_events], from the store in which every value is assigned. *)
Lemma set_many_fires set_rec pv propValues m m' :
  NoDup propValues.*1 ->
  _set_body set_rec pv (SetMany propValues) m = Returned tt m' ->
  _firePropChangeEvents set_rec (change_events propValues m) (assigned propValues m)
  = Returned tt m'.
Proof.
  intros Hnd Hset.
  assert (Hknown : forall k, k ∈ propValues.*1 -> is_Some (_props m !! k)).
  { intros k Hk. destruct (_props m !! k) eqn:Hq; [eauto|]. exfalso.
    destruct (set_many_rejected set_rec pv propValues m) as (e & He & _).
    - left. exists k. auto.
    - rewrite He in Hset. discriminate. }
  apply set_many_Returned in Hset as (changeEvents & Hfilter & Hfire).
  rewrite olds_of_NoDup, entries_with_olds in Hfilter by exact Hnd.
  rewrite filter_change_events in Hfilter; [| exact Hknown |].
  - inversion Hfilter; subst. exact Hfire.
  - intros k p Hp. apply props_assigned_lookup, Hp.
Qed.

Lemma value_of_assigned propValues m k v :
  NoDup propValues.*1 ->
  (k, v) ∈ propValues ->
  is_Some (_props m !! k) ->
  value_of k (assigned propValues m) = Some v.
Proof.
  revert m. induction propValues as [|[k' v'] rest IH]; intros m Hnd Hin [p Hp].
  - inversion Hin.
  - simpl in Hnd. apply NoDup_cons in Hnd as [Hk' Hnd].
    unfold assigned in *. simpl.
    apply elem_of_cons in Hin as [Heq|Hin].
    + inversion Heq; subst k' v'. clear Heq.
      assert (Hfix : forall l m0, k ∉ l.*1 ->
                value_of k (foldl (fun m kv => assign kv.1 kv.2 m) m0 l) = value_of k m0).
      { clear. induction l as [|[a b] l IHl]; intros m0 Hk; [reflexivity|].
        simpl. rewrite IHl by (intros H; apply Hk; right; exact H).
        apply value_of_assign_ne. intros ->. apply Hk. left. }
      rewrite Hfix by exact Hk'. eapply value_of_assign, Hp.
    + apply IH; [exact Hnd | exact Hin |].
      simpl. rewrite lookup_alter. case_decide; [subst k'|]; rewrite Hp; simpl; eauto.
Qed.

Lemma set_extends_trace m0 fuel pv args :
  maintains (extends_trace m0) (_set fuel pv args).
Proof.
  apply (maintains_set _ (fun _ => True) (fun _ => True)); auto.
  - intros p v m _ H. apply extends_trace_record, H.
  - intros p n o m _ H. apply extends_trace_record, H.
  - intros m1 m _ _ H. apply extends_trace_record, H.
  - intros set_rec Hrec p n o m1 h _ _ _.
    apply (maintains_handler_target _ (fun _ => True)); auto.
  - apply Forall_forall. auto.
Qed.

(** One change event: its emission, then whatever its listeners do. *)
Lemma announce_then_cascade fuel p n o m m1 :
  (update (set_firedProps (Set_add p)) >> emit_changed (_set fuel) p n o) m
    = Returned tt m1 ->
  exists cascade, trace m1 = trace m ++ PropChanged p n o :: cascade.
Proof.
  set (m2 := record (PropChanged p n o) (set_firedProps (Set_add p) m)).
  change ((update (set_firedProps (Set_add p)) >> emit_changed (_set fuel) p n o) m)
    with (forEach (listeners (changed p) m2)
            (fun h => run_handler (_set fuel) h p n o) m2).
  intros Hloop.
  pose proof (hoare_forEach (extends_trace m2)
    (listeners (changed p) m2) (fun h => run_handler (_set fuel) h p n o)
    (fun _ => extends_trace m2)) as H.
  specialize (H ltac:(intros h _;
    apply (maintains_handler_target _ (fun _ => True)); auto;
    intros pv args _; apply set_extends_trace) m2 (extends_trace_refl m2)).
  rewrite Hloop in H. destruct H as [cascade H]. exists cascade.
  rewrite H. simpl. rewrite <- app_assoc. reflexivity.
Qed.

Lemma forEach_interleaved fuel events m m1 :
  forEach events (fun '(propName, (newValue, oldValue)) =>
    update (set_firedProps (Set_add propName)) >>
    emit_changed (_set fuel) propName newValue oldValue) m = Returned tt m1 ->
  exists cascades,
    length cascades = length events /\
    trace m1 = trace m ++ interleaved events cascades.
Proof.
  revert m. induction events as [|[p [n o]] events IH]; intros m H.
  - inversion H; subst. exists []. split; [reflexivity|].
    unfold interleaved. simpl. rewrite app_nil_r. reflexivity.
  - simpl in H. apply bind_Returned in H as ([] & m2 & Hstep & H).
    apply announce_then_cascade in Hstep as [cascade Hc].
    apply IH in H as (cascades & Hlen & Ht).
    exists (cascade :: cascades). split; [simpl; rewrite Hlen; reflexivity|].
    rewrite Ht, Hc. unfold interleaved. simpl. rewrite <- !app_assoc. reflexivity.
Qed.

(** The change events are emitted one after the other in the order of the
    list, each followed by its cascade; a settle notification may close. *)
Lemma fire_interleaved fuel events m m' :
  _firePropChangeEvents (_set fuel) events m = Returned tt m' ->
  exists cascades tail,
    length cascades = length events /\
    trace m' = trace m ++ interleaved events cascades ++ tail /\
    (tail = [] \/ exists names, tail = [PropChainCompleted names]).
Proof.
  intros H. unfold _firePropChangeEvents in H.
  change (bind this ?k m) with (k m m) in H. cbv beta in H.
  apply bind_Returned in H as ([] & m1 & Hloop & H).
  apply forEach_interleaved in Hloop as (cascades & Hlen & Ht).
  exists cascades. case_bool_decide.
  - inversion H; subst. eexists. split; [exact Hlen|]. split; [|right; eauto].
    simpl. rewrite Ht, <- app_assoc. reflexivity.
  - inversion H; subst. exists []. rewrite app_nil_r. auto.
Qed.

Lemma forEach_all_Returned {A} (l : list A) (f : A -> M unit) m :
  (forall x, pure (f x)) ->
  (forall x, x ∈ l -> f x m = Returned tt m) ->
  forEach l f m = Returned tt m.
Proof.
  intros Hpure Hall.
  destruct (forEach_pure_result l f m Hpure) as [[H _]|(x & e & Hx & Hthrow & _)];
    [exact H|].
  rewrite (Hall x Hx) in Hthrow. discriminate.
Qed.

Lemma assign_all_eq propValues oldValues m :
  (forall k, k ∈ propValues.*1 -> is_Some (_props m !! k)) ->
  assign_all propValues oldValues m
  = Returned (oldValues ++ olds_of propValues m) (assigned propValues m).
Proof.
  revert oldValues m. induction propValues as [|[k v] rest IH]; intros oldValues m Hknown.
  - simpl. rewrite app_nil_r. reflexivity.
  - simpl. destruct (Hknown k) as [p Hp]; [left|].
    unfold bind at 1. unfold the_prop. rewrite Hp.
    unfold bind at 1. unfold update at 1. rewrite IH.
    + unfold value_of. rewrite Hp. simpl. rewrite <- app_assoc. reflexivity.
    + intros k' Hk'. simpl. rewrite lookup_alter.
      destruct (Hknown k') as [q Hq]; [right; exact Hk'|].
      case_decide; [subst k'|]; rewrite Hq; simpl; eauto.
Qed.

(** A bulk [set] all of whose checks pass. *)
Lemma set_many_unfold set_rec pv propValues m :
  NoDup propValues.*1 ->
  ~ unknown_key propValues m ->
  ~ denied_key pv propValues m ->
  (forall payload, ~ rejected_value propValues m payload) ->
  _set_body set_rec pv (SetMany propValues) m
  = _firePropChangeEvents set_rec (change_events propValues m) (assigned propValues m).
Proof.
  intros Hnd Hknown Hallowed Hvalid. unfold _set_body.
  assert (Hk : forall k, k ∈ propValues.*1 -> is_Some (_props m !! k))
    by (intros k; apply not_unknown_key, Hknown).
  rewrite (bind_eq_Returned _ _ m tt m).
  2:{ apply forEach_all_Returned; [apply pure_check_exists|].
      intros k Hin. apply check_exists_Returned, known_defined, Hk, Hin. }
  rewrite (bind_eq_Returned _ _ m tt m).
  2:{ apply forEach_all_Returned; [apply pure_validate|].
      intros k Hin. apply validate_Returned.
      destruct (pv m k) as [e|] eqn:He; [|reflexivity].
      exfalso. apply Hallowed. exists k, e. auto. }
  rewrite (bind_eq_Returned _ _ m tt m).
  2:{ apply forEach_all_Returned; [apply pure_check_value|].
      intros [k v] Hin.
      destruct (Hk k) as [p Hp].
      { apply list_elem_of_fmap. exists (k, v). auto. }
      unfold check_value, bind, the_prop. simpl. rewrite Hp.
      destruct (valueValidator p v) as [payload|] eqn:Hv; [|reflexivity].
      exfalso. apply (Hvalid payload). exists k, v, p. auto. }
  rewrite (bind_eq_Returned _ _ _ _ _ (assign_all_eq _ [] _ Hk)). simpl.
  rewrite olds_of_NoDup, entries_with_olds by exact Hnd.
  rewrite (bind_eq_Returned _ _ _ _ _
    (filter_change_events propValues m (assigned propValues m) Hk
       (fun k p Hp => props_assigned_lookup propValues m k p Hp))).
  reflexivity.
Qed.

Lemma trace_announced m events :
  trace (foldl announce m events) = trace m ++ map event_of events.
Proof.
  revert m. induction events as [|ev events IH]; intros m; simpl.
  - rewrite app_nil_r. reflexivity.
  - rewrite IH. simpl. rewrite <- app_assoc. reflexivity.
Qed.

Lemma firedProps_announced m (events : list (string * (val * val))) :
  _firedProps (foldl announce m events) = add_all (_firedProps m) events.*1.
Proof.
  revert m. induction events as [|ev events IH]; intros m; [reflexivity|].
  simpl. rewrite IH. reflexivity.
Qed.

Lemma add_all_NoDup s names :
  NoDup (s ++ names) -> add_all s names = s ++ names.
Proof.
  revert s. induction names as [|x names IH]; intros s Hnd; simpl.
  - rewrite app_nil_r. reflexivity.
  - unfold add_all in *. simpl. unfold Set_add at 2.
    assert (Hx : x ∉ s).
    { apply NoDup_app in Hnd as (_ & Hdisj & _). intros Hin.
      apply (Hdisj x Hin). left. }
    rewrite bool_decide_eq_false_2 by exact Hx.
    rewrite IH; rewrite <- app_assoc; [reflexivity | exact Hnd].
Qed.

Lemma change_events_names_sublist propValues m :
  (change_events propValues m).*1 `sublist_of` propValues.*1.
Proof.
  induction propValues as [|[k v] rest IH]; [constructor|].
  unfold change_events in *. simpl.
  destruct (_props m !! k) as [p|]; [|apply sublist_cons, IH].
  destruct (didChange p v (value p)); [apply sublist_skip, IH | apply sublist_cons, IH].
Qed.

Lemma events_assigned propValues m : _events (assigned propValues m) = _events m.
Proof.
  revert m. induction propValues as [|[k v] rest IH]; intros m; [reflexivity|].
  unfold assigned in *. simpl. rewrite IH. reflexivity.
Qed.

(** A bulk [set] whose checks pass, on properties nobody listens to, from
    an empty batch: assignments, then the change events in order, then one
    settle notification with their names. *)
Lemma set_many_independent fuel pv propValues m :
  NoDup propValues.*1 ->
  ~ unknown_key propValues m ->
  ~ denied_key pv propValues m ->
  (forall payload, ~ rejected_value propValues m payload) ->
  (forall k, k ∈ propValues.*1 -> listeners (changed k) m = []) ->
  _firedProps m = [] ->
  exists m', _set (S fuel) pv (SetMany propValues) m = Returned tt m' /\
    trace m' = trace m ++ map (fun kv => Assigned kv.1 kv.2) propValues
               ++ map event_of (change_events propValues m)
               ++ [PropChainCompleted (change_events propValues m).*1].
Proof.
  intros Hnd Hknown Hallowed Hvalid Hnone Hnil.
  rewrite _set_S, set_many_unfold by assumption.
  rewrite fire_no_listeners.
  - eexists. split; [reflexivity|].
    unfold settle. rewrite firedProps_assigned, Hnil. simpl.
    rewrite trace_announced, firedProps_announced, trace_assigned,
      firedProps_assigned, Hnil.
    rewrite add_all_NoDup.
    + simpl. rewrite <- !app_assoc. reflexivity.
    + simpl. eapply sublist_NoDup; [exact Hnd | apply change_events_names_sublist].
  - intros ev Hev. unfold listeners. rewrite events_assigned.
    apply Hnone.
    eapply elem_of_sublist; [|apply (change_events_names_sublist propValues m)].
    apply list_elem_of_fmap. exists ev. split; [reflexivity | exact Hev].
Qed.

Lemma set_many_Returned_known set_rec pv propValues m m' :
  _set_body set_rec pv (SetMany propValues) m = Returned tt m' ->
  forall k, k ∈ propValues.*1 -> is_Some (_props m !! k).
Proof.
  intros Hset k Hk. destruct (_props m !! k) eqn:Hq; [eauto|]. exfalso.
  destruct (set_many_rejected set_rec pv propValues m) as (e & He & _).
  - left. exists k. auto.
  - rewrite He in Hset. discriminate.
Qed.

(** C5.  A bulk [set] over distinct keys that returns has assigned every
    value before it emits anything, and then emits a change event for
    exactly the entries whose change predicate reports a change from the
    value held before the call, in the order of the entries, each followed
    by what its listeners do.  When its checks pass and nobody listens to
    the properties it names, it returns, and from an empty batch the trace
    is: the assignments, those change events, one settle notification with
    their names.  For two properties with the default change predicate and
    new values that differ from the old ones: two change events, first
    then second, and one settle notification listing both. *)
Theorem bulk_set_order fuel pv propValues m :
  NoDup propValues.*1 ->
  (forall m', _set (S fuel) pv (SetMany propValues) m = Returned tt m' ->
     (forall k v, (k, v) ∈ propValues ->
        value_of k (assigned propValues m) = Some v) /\
     _firePropChangeEvents (_set fuel) (change_events propValues m)
       (assigned propValues m) = Returned tt m' /\
     exists cascades tail,
       length cascades = length (change_events propValues m) /\
       trace m' = trace m ++ map (fun kv => Assigned kv.1 kv.2) propValues
                  ++ interleaved (change_events propValues m) cascades ++ tail /\
       (tail = [] \/ exists names, tail = [PropChainCompleted names])) /\
  (~ unknown_key propValues m -> ~ denied_key pv propValues m ->
   (forall payload, ~ rejected_value propValues m payload) ->
   (forall k, k ∈ propValues.*1 -> listeners (changed k) m = []) ->
   _firedProps m = [] ->
     exists m', _set (S fuel) pv (SetMany propValues) m = Returned tt m' /\
       trace m' = trace m ++ map (fun kv => Assigned kv.1 kv.2) propValues
                  ++ map event_of (change_events propValues m)
                  ++ [PropChainCompleted (change_events propValues m).*1]) /\
  (forall a b va vb pa pb,
     propValues = [(a, va); (b, vb)] ->
     _props m !! a = Some pa -> _props m !! b = Some pb ->
     pv m a = None -> pv m b = None ->
     valueValidator pa va = None -> valueValidator pb vb = None ->
     didChange pa = defaultDidChange -> didChange pb = defaultDidChange ->
     va <> value pa -> vb <> value pb ->
     listeners (changed a) m = [] -> listeners (changed b) m = [] ->
     _firedProps m = [] ->
     exists m', _set (S fuel) pv (SetMany propValues) m = Returned tt m' /\
       trace m' = trace m ++ [Assigned a va; Assigned b vb;
                              PropChanged a va (value pa); PropChanged b vb (value pb);
                              PropChainCompleted [a; b]]).
Proof.
  intros Hnd. split; [|split].
  - intros m' Hset. rewrite _set_S in Hset.
    pose proof (set_many_Returned_known _ _ _ _ _ Hset) as Hknown.
    apply set_many_fires in Hset; [|exact Hnd].
    split; [|split; [exact Hset|]].
    + intros k v Hin. apply value_of_assigned; [exact Hnd | exact Hin |].
      apply Hknown, list_elem_of_fmap. exists (k, v). auto.
    + apply fire_interleaved in Hset as (cascades & tail & Hlen & Ht & Htail).
      exists cascades, tail. split; [exact Hlen|]. split; [|exact Htail].
      rewrite Ht, trace_assigned, <- !app_assoc. reflexivity.
  - apply set_many_independent, Hnd.
  - intros a b va vb pa pb -> Ha Hb Hpa Hpb Hva Hvb Hda Hdb Hna Hnb Hla Hlb Hnil.
    assert (Hab : a <> b).
    { simpl in Hnd. apply NoDup_cons in Hnd as [Hnot _].
      intros ->. apply Hnot. left. }
    destruct (set_many_independent fuel pv [(a, va); (b, vb)] m Hnd) as (m' & Hset & Ht).
    + intros (k & Hk & Hnone). simpl in Hk.
      apply elem_of_cons in Hk as [->|Hk]; [congruence|].
      apply list_elem_of_singleton in Hk as ->. congruence.
    + intros (k & e & Hk & He). simpl in Hk.
      apply elem_of_cons in Hk as [->|Hk]; [congruence|].
      apply list_elem_of_singleton in Hk as ->. congruence.
    + intros payload (k & v & p & Hin & Hp & Hv).
      apply elem_of_cons in Hin as [Heq|Hin].
      * inversion Heq; subst. congruence.
      * apply list_elem_of_singleton in Hin. inversion Hin; subst. congruence.
    + intros k Hk. simpl in Hk.
      apply elem_of_cons in Hk as [->|Hk]; [exact Hla|].
      apply list_elem_of_singleton in Hk as ->. exact Hlb.
    + exact Hnil.
    + exists m'. split; [exact Hset|]. rewrite Ht.
      unfold change_events. simpl. rewrite Ha, Hb, Hda, Hdb.
      unfold defaultDidChange.
      rewrite !bool_decide_eq_false_2 by assumption. reflexivity.
Qed.

Lemma bulk_set_order_witness :
  (exists cascades tail,
     length cascades
       = length (change_events [("length", VNum 1); ("width", VNum 2)] rectangle) /\
     trace (after (set 3 (SetMany [("length", VNum 1); ("width", VNum 2)])) rectangle)
       = trace rectangle
         ++ map (fun kv => Assigned kv.1 kv.2) [("length", VNum 1); ("width", VNum 2)]
         ++ interleaved (change_events [("length", VNum 1); ("width", VNum 2)] rectangle)
              cascades
         ++ tail /\
     (tail = [] \/ exists names, tail = [PropChainCompleted names])) /\
  (exists m', _set 1 noValidator (SetMany [("a", VNum 1); ("b", VNum 2)]) two_props
                = Returned tt m' /\
     trace m' = trace two_props
                ++ [Assigned "a" (VNum 1); Assigned "b" (VNum 2);
                    PropChanged "a" (VNum 1) (value a_prop);
                    PropChanged "b" (VNum 2) (value a_prop);
                    PropChainCompleted ["a"; "b"]]).
Proof.
  split.
  - assert (Hnd : NoDup [("length", VNum 1); ("width", VNum 2)].*1).
    { simpl. refine (bool_decide_unpack _ _). vm_compute. exact Logic.I. }
    apply (proj1 (bulk_set_order 2 noValidator
             [("length", VNum 1); ("width", VNum 2)] rectangle Hnd)).
    vm_compute. reflexivity.
  - assert (Hnd : NoDup [("a", VNum 1); ("b", VNum 2)].*1).
    { simpl. refine (bool_decide_unpack _ _). vm_compute. exact Logic.I. }
    apply (proj2 (proj2 (bulk_set_order 0 noValidator
             [("a", VNum 1); ("b", VNum 2)] two_props Hnd))
             "a" "b" (VNum 1) (VNum 2) a_prop a_prop);
      try reflexivity; try (vm_compute; reflexivity); discriminate.
Defined.

(** ** Views: the write-back window *)

Lemma in_window_record v m0 m e :
  concerns v e = false -> in_window v m0 m -> in_window v m0 (record e m).
Proof.
  intros He (Hs & Hf & Hv & events & Ht & Hev).
  split; [exact Hs|]. split; [exact Hf|]. split; [exact Hv|].
  exists (events ++ [e]). split.
  - simpl. rewrite Ht, app_assoc. reflexivity.
  - apply Forall_app. split; [exact Hev | repeat constructor; exact He].
Qed.

Lemma in_window_assign v m0 m p x :
  p <> v -> in_window v m0 m -> in_window v m0 (assign p x m).
Proof.
  intros Hp H. unfold assign. apply in_window_record.
  - simpl. apply bool_decide_eq_false_2, Hp.
  - destruct H as (Hs & Hf & Hv & Hev). split; [|split; [exact Hf|split; [|exact Hev]]].
    + apply (static_same_assign m0 m p x) in Hs. exact Hs.
    + rewrite <- Hv. apply (value_of_assign_ne p v x m Hp).
Qed.

Lemma in_window_fired v m0 m f :
  in_window v m0 m -> in_window v m0 (set_firedProps f m).
Proof. intros H. exact H. Qed.

Lemma in_window_triggered v m0 m w b :
  w <> v -> in_window v m0 m -> in_window v m0 (set_triggered w b m).
Proof.
  intros Hw (Hs & Hf & Hv & Hev). split; [exact Hs|]. split; [|split; [exact Hv | exact Hev]].
  unfold is_triggered in *. simpl. rewrite lookup_insert_ne by exact Hw. exact Hf.
Qed.

Lemma view_guarded_listeners v m p h :
  view_guarded v m -> p <> v -> h ∈ listeners (changed p) m -> quiet_for v h.
Proof.
  intros Hg Hp Hh. apply elem_of_listeners in Hh as (hs & Hhs & Hh).
  apply (map_Forall_lookup_1 _ _ _ _ Hg) in Hhs as [Heq|Hq].
  - apply changed_inj in Heq. contradiction.
  - rewrite Forall_forall in Hq. apply Hq, Hh.
Qed.

(** While the flag of a guarded view is up, no [set] of another property
    touches the view, however deep its cascade. *)
Lemma window_set v m0 fuel pv args :
  view_guarded v m0 ->
  Forall (fun p => p <> v) (args_names args) ->
  maintains (in_window v m0) (_set fuel pv args).
Proof.
  intros Hg. apply (maintains_set _ (fun p => p <> v) (fun p => p <> v)); auto.
  - intros p x m Hp H. apply in_window_assign; assumption.
  - intros p n o m Hp H. apply in_window_record.
    + simpl. apply bool_decide_eq_false_2, Hp.
    + apply in_window_fired, H.
  - intros m1 m _ _ H. apply in_window_fired, in_window_record; [reflexivity | exact H].
  - intros set_rec Hrec p n o m1 h Hp Hm1 Hh.
    rewrite (static_same_listeners _ _ _ (proj1 Hm1)) in Hh.
    pose proof (view_guarded_listeners v m0 p h Hg Hp Hh) as Hq.
    destruct h as [t u|w u|w b r]; simpl in *.
    + apply maintains_bind; [apply maintains_pure, pure_call_utilizer|]. intros x.
      apply Hrec. constructor; [exact Hq | constructor].
    + intros m Hm. change (bind this ?k m) with (k m m). cbv beta.
      destruct (is_triggered w m) eqn:Hw; [exact Hm|].
      assert (Hwv : w <> v).
      { intros ->. destruct Hm as (_ & Hf & _). congruence. }
      revert m Hm Hw. intros m Hm _. revert m Hm.
      apply maintains_bind; [apply maintains_pure, pure_call_utilizer|]. intros x.
      apply Hrec. constructor; [exact Hwv | constructor].
    + destruct Hq as [Hw Hb].
      apply maintains_bind; [apply maintains_pure, pure_get|]. intros base.
      apply maintains_bind; [apply maintains_pure, pure_this|]. intros m2.
      apply maintains_bind; [apply maintains_pure, pure_complete|]. intros x.
      apply maintains_bind; [intros m Hm; apply in_window_triggered; assumption|].
      intros u1.
      apply maintains_bind; [apply Hrec; constructor; [exact Hb | constructor]|].
      intros u2 m Hm. apply in_window_triggered; assumption.
Qed.

Lemma view_guarded_same_events v m m1 :
  _events m1 = _events m -> view_guarded v m -> view_guarded v m1.
Proof. unfold view_guarded. intros ->. auto. Qed.

Lemma get_Returned n m v m' :
  _get noValidator n m = Returned v m' -> m' = m /\ read n m = Some v.
Proof.
  unfold _get, validate, bind, this. simpl.
  destruct (read n m); intros H; inversion H. auto.
Qed.

Lemma value_of_read n m v : value_of n m = Some v -> read n m = Some v.
Proof.
  unfold value_of, read. destruct (_props m !! n); simpl; [auto | discriminate].
Qed.

Lemma read_stored n m v :
  is_Some (_props m !! n) -> read n m = Some v -> value_of n m = Some v.
Proof. intros [p Hp]. unfold read, value_of. rewrite Hp. auto. Qed.

(** A single [set] that returns has named a property of the store. *)
Lemma set_one_Returned_defined fuel pv n x m m' :
  _set fuel pv (SetOne n x) m = Returned tt m' -> is_Some (_props m !! n).
Proof.
  intros H. destruct fuel as [|fuel]; [discriminate|].
  rewrite _set_S, set_one_unfold in H.
  destruct (_props m !! n) as [q|]; [eauto|].
  destruct (inherited n); [|discriminate]. destruct (pv m n); discriminate.
Qed.

Lemma complete_Returned c m v m' :
  complete c m = Returned v m' -> m' = m /\ c = Return v.
Proof. destruct c; intros H; inversion H. auto. Qed.

(** The write-back of a guarded view, from beginning to end: the base is
    assigned what [reduceBaseValue] returned, and until the listener has
    finished nothing assigns the view or announces a change of it. *)
Lemma set_one_first_event fuel pv n x m m' :
  _set fuel pv (SetOne n x) m = Returned tt m' ->
  exists rest, trace m' = trace m ++ Assigned n x :: rest.
Proof.
  intros H. destruct fuel as [|fuel]; [discriminate|].
  pose proof (set_one_Returned_defined _ _ _ _ _ _ H) as [q Hq].
  rewrite _set_S, set_one_unfold, Hq in H.
  destruct (pv m n); [discriminate|].
  destruct (valueValidator q x); [discriminate|].
  destruct (didChange q x (value q)).
  - pose proof (fire_extends_trace (assign n x m) fuel [(n, (x, value q))]
                  (assign n x m) (extends_trace_refl _)) as Hext.
    unfold _firePropChangeEvent in H. rewrite H in Hext.
    destruct Hext as [rest Hrest]. exists rest. rewrite Hrest. simpl.
    rewrite <- app_assoc. reflexivity.
  - inversion H; subst. exists []. reflexivity.
Qed.

Lemma write_back_window fuel v b r p n o m m' :
  view_guarded v m -> b <> v ->
  run_handler (_set fuel) (ReduceBase v b r) p n o m = Returned tt m' ->
  exists base x events,
    value_of b m = Some base /\
    r (fun k => read k m) n base = Return x /\
    value_of v m' = value_of v m /\
    is_triggered v m' = false /\
    trace m' = trace m ++ Assigned b x :: events /\
    Forall (fun e => concerns v e = false) events.
Proof.
  intros Hg Hb H. simpl in H.
  apply bind_Returned in H as (base & m1 & Hget & H).
  apply get_Returned in Hget as [-> Hbase].
  apply bind_Returned in H as (m0 & m1 & Hthis & H). inversion Hthis; subst m0 m1.
  apply bind_Returned in H as (x & m1 & Hc & H).
  apply complete_Returned in Hc as [-> Hr].
  apply bind_Returned in H as ([] & m1 & Hup & H). inversion Hup; subst m1.
  apply bind_Returned in H as ([] & m2 & Hset & H). inversion H; subst m'. clear H Hup Hthis.
  set (m1 := set_triggered v true m) in *.
  assert (Hin : in_window v m1 m1).
  { split; [apply static_same_refl|]. split; [|split; [reflexivity|]].
    - unfold is_triggered, m1. simpl. rewrite lookup_insert_eq. reflexivity.
    - exists []. rewrite app_nil_r. split; [reflexivity | constructor]. }
  pose proof (window_set v m1 fuel noValidator (SetOne b x)
                (view_guarded_same_events v m m1 eq_refl Hg)
                ltac:(constructor; [exact Hb | constructor]) m1 Hin) as Hwin.
  rewrite Hset in Hwin. destruct Hwin as (_ & _ & Hv & events & Ht & Hev).
  pose proof (set_one_Returned_defined _ _ _ _ _ _ Hset) as Hdef.
  apply set_one_first_event in Hset as [rest Hrest].
  rewrite Hrest in Ht. apply app_inv_head in Ht. subst events.
  exists base, x, rest. split; [exact (read_stored _ _ _ Hdef Hbase)|].
  split; [exact Hr|].
  split; [exact Hv|]. split.
  { unfold is_triggered. simpl. rewrite lookup_insert_eq. reflexivity. }
  split; [exact Hrest|]. inversion Hev; assumption.
Qed.

(** C1, as amended.  The flag of a view suppresses the recomputation of the
    view, not the write-back: while it is up, the listener that recomputes
    the view does nothing; and the write-back of a guarded view, which
    raises it around its [set] of the base, runs to its end without the
    view being assigned or announced again. *)
Theorem write_back_suppresses_recompute fuel v b r u p n o m m' :
  view_guarded v m -> b <> v ->
  run_handler (_set fuel) (ReduceBase v b r) p n o m = Returned tt m' ->
  (forall m1, is_triggered v m1 = true ->
     run_handler (_set fuel) (RecomputeView v u) p n o m1 = Returned tt m1) /\
  value_of v m' = value_of v m /\
  exists x events,
    trace m' = trace m ++ Assigned b x :: events /\
    Forall (fun e => concerns v e = false) events.
Proof.
  intros Hg Hb H. split.
  - intros m1 Hup. apply run_handler_muted. exact Hup.
  - apply write_back_window in H as (base & x & events & _ & _ & Hv & _ & Ht & Hev);
      [|exact Hg | exact Hb].
    split; [exact Hv|]. exists x, events. auto.
Qed.

Lemma write_back_suppresses_recompute_witness :
  (forall m1, is_triggered "size" m1 = true ->
     run_handler (_set 2) (RecomputeView "size" (Utilizer ["number"] (unary magnitude_of)))
       "size" (VNum 7) (VNum 1) m1 = Returned tt m1) /\
  value_of "size"
    (after (run_handler (_set 2) (ReduceBase "size" "number" (fun _ v _ => Return v))
              "size" (VNum 7) (VNum 1)) magnitude)
  = value_of "size" magnitude /\
  exists x events,
    trace (after (run_handler (_set 2) (ReduceBase "size" "number" (fun _ v _ => Return v))
                    "size" (VNum 7) (VNum 1)) magnitude)
      = trace magnitude ++ Assigned "number" x :: events /\
    Forall (fun e => concerns "size" e = false) events.
Proof.
  apply (write_back_suppresses_recompute 2 "size" "number" (fun _ v _ => Return v)
           (Utilizer ["number"] (unary magnitude_of)) "size" (VNum 7) (VNum 1) magnitude).
  - unfold view_guarded. refine (bool_decide_unpack _ _). vm_compute. exact Logic.I.
  - discriminate.
  - vm_compute. reflexivity.
Defined.

(** C1 as stated fails: a [set] of the base recomputes the view, the view's
    change runs the write-back, and the base is assigned a second time in
    the same cascade. *)
Lemma write_back_counterexample :
  exists m', set 3 (SetOne "number" (VNum (-3))) magnitude = Returned tt m' /\
    trace_since magnitude m'
    = [Assigned "number" (VNum (-3)); PropChanged "number" (VNum (-3)) (VNum 1);
       Assigned "size" (VNum 3); PropChanged "size" (VNum 3) (VNum 1);
       Assigned "number" (VNum 3); PropChanged "number" (VNum 3) (VNum (-3));
       PropChainCompleted ["number"; "size"]].
Proof. eexists. split; vm_compute; reflexivity. Qed.

(** ** Views: setting the view *)

(** [set] of the base from inside the write-back of its only view: one
    level deep. *)
Lemma set_base_in_window fuel v b u x m :
  is_triggered v m = true ->
  listeners (changed b) m = [RecomputeView v u] ->
  _set (S fuel) noValidator (SetOne b x) m <> Diverged.
Proof.
  intros Hup Hl. rewrite _set_S, set_one_unfold.
  destruct (_props m !! b) as [q|]; [|destruct (inherited b); discriminate].
  unfold noValidator.
  destruct (valueValidator q x); [discriminate|].
  destruct (didChange q x (value q)); [|discriminate].
  unfold _firePropChangeEvent. rewrite fire_muted; [discriminate|].
  intros ev Hev. apply list_elem_of_singleton in Hev as ->. simpl.
  change (listeners (changed b) (assign b x m)) with (listeners (changed b) m).
  rewrite Hl. repeat constructor. exact Hup.
Qed.

Lemma write_back_not_Diverged fuel v b r u p n o m :
  listeners (changed b) m = [RecomputeView v u] ->
  run_handler (_set (S fuel)) (ReduceBase v b r) p n o m <> Diverged.
Proof.
  intros Hl. unfold run_handler. unfold bind at 1.
  pose proof (pure_get noValidator b m) as Hget.
  destruct (_get noValidator b m) as [base m1|e m1|]; [subst m1| discriminate | contradiction].
  change (bind this ?k m) with (k m m). cbv beta. unfold bind at 1.
  destruct (r _ n base) as [x|payload]; [|discriminate]. cbn [complete]. unfold ret at 1.
  unfold bind at 1. unfold update at 1. unfold bind at 1.
  pose proof (set_base_in_window fuel v b u x (set_triggered v true m)) as Hset.
  destruct (_set (S fuel) noValidator (SetOne b x) (set_triggered v true m));
    [discriminate | discriminate |].
  exfalso. apply Hset; [|exact Hl| reflexivity].
  unfold is_triggered. simpl. rewrite lookup_insert_eq. reflexivity.
Qed.

(** Firing one change event: its listeners run in the store in which it was
    announced, then the chain settles if this call started it. *)
Lemma fire_one_Returned set_rec p n o m m' :
  _firePropChangeEvents set_rec [(p, (n, o))] m = Returned tt m' ->
  exists m3,
    forEach (listeners (changed p) m) (fun h => run_handler set_rec h p n o)
      (announce m (p, (n, o))) = Returned tt m3 /\
    m' = settle m m3.
Proof.
  unfold _firePropChangeEvents. change (bind this ?k m) with (k m m). cbv beta.
  intros H. apply bind_Returned in H as ([] & m3 & Hloop & H).
  simpl in Hloop. apply bind_Returned in Hloop as ([] & m4 & Hstep & Hret).
  inversion Hret; subst m4. exists m3. split; [exact Hstep|].
  unfold settle. case_bool_decide; inversion H; reflexivity.
Qed.

Lemma fire_one_not_Diverged set_rec p n o m :
  forEach (listeners (changed p) m) (fun h => run_handler set_rec h p n o)
    (announce m (p, (n, o))) <> Diverged ->
  _firePropChangeEvents set_rec [(p, (n, o))] m <> Diverged.
Proof.
  intros Hloop. unfold _firePropChangeEvents.
  change (bind this ?k m) with (k m m). cbv beta. simpl forEach.
  unfold bind at 1. unfold bind at 1.
  change ((update (set_firedProps (Set_add p)) >> emit_changed set_rec p n o) m)
    with (forEach (listeners (changed p) m) (fun h => run_handler set_rec h p n o)
            (announce m (p, (n, o)))).
  destruct (forEach _ _ (announce m (p, (n, o)))); [|discriminate | contradiction].
  simpl. case_bool_decide; discriminate.
Qed.

Lemma fire_static_same m0 fuel events :
  maintains (static_same m0) (_firePropChangeEvents (_set fuel) events).
Proof.
  apply (maintains_fire_set _ (fun _ => True) (fun _ => True)); auto.
  - intros p v m _ H. apply static_same_assign, H.
  - intros set_rec Hrec p n o m1 h _ _ _.
    apply (maintains_handler_target _ (fun _ => True)); auto.
  - apply Forall_forall. auto.
Qed.

Lemma createUtilizer_inv names f m u m' :
  createUtilizer names f m = Returned u m' ->
  m' = m /\ u = Utilizer names f /\ forall n, n ∈ names -> known n m = true.
Proof.
  unfold createUtilizer, _createUtilizer. intros H.
  rewrite (bind_eq_Returned _ _ _ _ _ (forEach_noValidator names m)) in H.
  match type of H with bind (forEach names ?g) _ m = _ =>
    destruct (forEach_pure_result names g m) as [[Hex Hall]|(k & e & _ & _ & Hex)]
  end.
  - intros x. apply pure_bind; [apply pure_this|]. intros m2.
    destruct (known x m2); [apply pure_ret | apply pure_throw].
  - rewrite (bind_eq_Returned _ _ _ _ _ Hex) in H. inversion H; subst.
    split; [reflexivity|]. split; [reflexivity|]. intros n Hn.
    specialize (Hall n Hn). unfold bind, this in Hall.
    destruct (known n m'); [reflexivity | discriminate].
  - rewrite (bind_eq_Thrown _ _ _ _ _ Hex) in H. discriminate.
Qed.

(** What [definePropView] leaves behind: the recomputation of the view
    listens to the base, the write-back listens to the view, each after the
    listeners that were there. *)
Lemma definePropView_listeners fuel v b calc r dc m m1 :
  definePropView fuel v b calc r dc m = Returned tt m1 ->
  known v m = false /\ known b m = true /\ b <> v /\
  forall ch,
    listeners ch m1 =
      if decide (ch = changed v) then listeners ch m ++ [ReduceBase v b r]
      else if decide (ch = changed b)
           then listeners ch m ++ [RecomputeView v (Utilizer [b] (unary calc))]
           else listeners ch m.
Proof.
  unfold definePropView. intros H.
  apply bind_Returned in H as ([] & m2 & Hfresh & H).
  assert (m2 = m) as -> by (eapply pure_Returned; [|exact Hfresh];
    apply pure_bind; [apply pure_this|]; intros m3;
    destruct (known v m3); [apply pure_throw | apply pure_ret]).
  assert (Hv : known v m = false).
  { unfold check_undefined, bind, this in Hfresh.
    destruct (known v m); [discriminate | reflexivity]. }
  apply bind_Returned in H as (u & m2 & Hu & H).
  apply createUtilizer_inv in Hu as (-> & -> & Hdef).
  assert (Hb : known b m = true) by (apply Hdef; left).
  assert (Hbv : b <> v) by (intros ->; congruence).
  apply bind_Returned in H as (x & m2 & Hx & H).
  apply pure_Returned in Hx as ->; [|apply pure_call_utilizer].
  apply bind_Returned in H as ([] & m2 & Hup & H). inversion Hup; subst m2. clear Hup.
  apply bind_Returned in H as ([] & m2 & Hup & H). inversion Hup; subst m2. clear Hup.
  apply bind_Returned in H as ([] & m2 & Hon & H).
  rewrite onAny_subscribes in Hon. inversion Hon; subst m2. clear Hon.
  apply bind_Returned in H as ([] & m2 & Hon & H).
  rewrite onAny_subscribes in Hon. inversion Hon; subst m2. clear Hon.
  split; [exact Hv|]. split; [exact Hb|]. split; [exact Hbv|].
  match type of H with (_ ?mm = _) => set (mf := mm) in * end.
  assert (Hinit : forall ch, listeners ch mf
                 = if decide (ch = changed v) then listeners ch m ++ [ReduceBase v b r]
                   else if decide (ch = changed b)
                        then listeners ch m ++ [RecomputeView v (Utilizer [b] (unary calc))]
                        else listeners ch m).
  { intros ch. unfold mf. rewrite !listeners_subscribe.
    match goal with |- context [listeners ch (set_triggered v false ?m3)] =>
      change (listeners ch (set_triggered v false m3)) with (listeners ch m) end.
    repeat case_decide; subst; try reflexivity; try congruence.
    exfalso. match goal with Heq : changed _ = changed _ |- _ =>
      apply changed_inj in Heq; congruence end. }
  destruct (dc x VUndefined).
  - pose proof (fire_static_same mf fuel [(v, (x, VUndefined))] mf (static_same_refl mf)) as Hs.
    unfold _firePropChangeEvent in H. rewrite H in Hs.
    intros ch. rewrite (static_same_listeners _ _ ch Hs). apply Hinit.
  - inversion H; subst m1. exact Hinit.
Qed.

(** In a store none of whose listeners concerns the new view, the pair
    that [definePropView] defines is guarded, and the write-back is the
    only listener of the view. *)
Lemma definePropView_ready fuel v b calc r dc m m1 :
  definePropView fuel v b calc r dc m = Returned tt m1 ->
  listeners (changed v) m = [] ->
  map_Forall (fun _ hs => Forall (quiet_for v) hs) (_events m) ->
  b <> v /\
  listeners (changed v) m1 = [ReduceBase v b r] /\
  RecomputeView v (Utilizer [b] (unary calc)) ∈ listeners (changed b) m1 /\
  view_guarded v m1.
Proof.
  intros Hdef Hnone Hquiet.
  apply definePropView_listeners in Hdef as (_ & _ & Hbv & Hl).
  split; [exact Hbv|]. split; [|split].
  - rewrite Hl, decide_True by reflexivity. rewrite Hnone. reflexivity.
  - rewrite Hl, decide_False by (intros Heq; apply changed_inj in Heq; contradiction).
    rewrite decide_True by reflexivity. apply elem_of_app. right. left.
  - unfold view_guarded. apply map_Forall_lookup_2. intros ch hs Hhs.
    destruct (decide (ch = changed v)) as [->|Hne]; [left; reflexivity|]. right.
    assert (Hhs' : hs = listeners ch m1) by (unfold listeners; rewrite Hhs; reflexivity).
    rewrite Hhs', Hl, decide_False by exact Hne.
    assert (Hold : Forall (quiet_for v) (listeners ch m)).
    { unfold listeners. destruct (_events m !! ch) as [hs0|] eqn:H0; [|constructor].
      apply (map_Forall_lookup_1 _ _ _ _ Hquiet) in H0. exact H0. }
    case_decide; [|exact Hold].
    apply Forall_app. split; [exact Hold | repeat constructor].
Qed.

Lemma untouched_refl v m : untouched v m m.
Proof.
  split; [apply static_same_refl|]. split; [reflexivity|].
  exists []. rewrite app_nil_r. split; [reflexivity | constructor].
Qed.

Lemma untouched_record v m0 m e :
  concerns v e = false -> untouched v m0 m -> untouched v m0 (record e m).
Proof.
  intros He (Hs & Hv & events & Ht & Hev).
  split; [exact Hs|]. split; [exact Hv|].
  exists (events ++ [e]). split.
  - simpl. rewrite Ht, app_assoc. reflexivity.
  - apply Forall_app. split; [exact Hev | repeat constructor; exact He].
Qed.

Lemma untouched_assign v m0 m p x :
  p <> v -> untouched v m0 m -> untouched v m0 (assign p x m).
Proof.
  intros Hp H. unfold assign. apply untouched_record.
  - simpl. apply bool_decide_eq_false_2, Hp.
  - destruct H as (Hs & Hv & Hev). split; [|split; [|exact Hev]].
    + apply (static_same_assign m0 m p x) in Hs. exact Hs.
    + rewrite <- Hv. apply (value_of_assign_ne p v x m Hp).
Qed.

(** A cascade among properties closed under their listeners leaves every
    property outside of them untouched. *)
Lemma untouched_set (reach : string -> Prop) v m0 fuel pv args :
  closed_under reach m0 -> ~ reach v ->
  Forall reach (args_names args) ->
  maintains (untouched v m0) (_set fuel pv args).
Proof.
  intros Hclosed Hv. apply (maintains_set _ reach reach); auto.
  - intros p x m Hp H. apply untouched_assign; [intros ->; contradiction | exact H].
  - intros p n o m Hp H. apply untouched_record; [|exact H].
    simpl. apply bool_decide_eq_false_2. intros ->. contradiction.
  - intros m1 m _ _ H. apply untouched_record; [reflexivity | exact H].
  - intros set_rec Hrec p n o m1 h Hp Hm1 Hh.
    apply (maintains_handler_target _ reach); auto.
    rewrite (static_same_listeners _ _ _ (proj1 Hm1)) in Hh.
    eapply Hclosed; eassumption.
Qed.

Lemma closed_under_same_events reach m m1 :
  _events m1 = _events m -> closed_under reach m -> closed_under reach m1.
Proof.
  intros He H p h Hp Hh. apply (H p h Hp). unfold listeners in *. rewrite <- He. exact Hh.
Qed.

(** ** Depth of a cascade *)

Lemma difference_cons_le (views up : list string) v :
  length (list_difference views (v :: up)) <= length (list_difference views up).
Proof.
  induction views as [|x views IH]; simpl; [lia|].
  repeat case_decide; simpl; try lia.
  exfalso. set_solver.
Qed.

Lemma difference_cons_lt (views up : list string) v :
  v ∈ views -> v ∉ up ->
  length (list_difference views (v :: up)) < length (list_difference views up).
Proof.
  intros Hv Hup. induction views as [|x views IH]; [inversion Hv|].
  simpl. pose proof (difference_cons_le views up v) as Hle.
  apply elem_of_cons in Hv as [<-|Hv].
  - repeat case_decide; simpl; try lia; exfalso; set_solver.
  - specialize (IH Hv). repeat case_decide; simpl; try lia. exfalso. set_solver.
Qed.

Lemma raised_flag up m0 m v b :
  v ∉ up -> raised up m0 m -> raised up m0 (set_triggered v b m).
Proof.
  intros Hv [Hs Hup]. split; [exact Hs|]. intros w Hw.
  unfold is_triggered. simpl. rewrite lookup_insert_ne; [|intros ->; contradiction].
  apply Hup, Hw.
Qed.

Lemma raised_cons up m0 m v :
  raised up m0 m -> raised (v :: up) m0 (set_triggered v true m).
Proof.
  intros [Hs Hup]. split; [exact Hs|]. intros w Hw.
  unfold is_triggered. simpl. destruct (decide (w = v)) as [->|Hne].
  - rewrite lookup_insert_eq. reflexivity.
  - rewrite lookup_insert_ne by congruence.
    apply elem_of_cons in Hw as [?|Hw]; [contradiction|]. apply Hup, Hw.
Qed.

Lemma raised_tail up m0 m v :
  raised (v :: up) m0 m -> raised up m0 m.
Proof. intros [Hs Hup]. split; [exact Hs|]. intros w Hw. apply Hup. right. exact Hw. Qed.

Section Depth.
Variable height : string -> nat.
Variable A : nat.
Variable views : list string.
Variable m0 : PropsModel.
Hypothesis m0_ranked : ranked height A views m0.

Lemma ranked_listener up m p h :
  raised up m0 m -> h ∈ listeners (changed p) m ->
  ranked_on height A views (changed p) h.
Proof.
  intros [Hs _] Hh. rewrite (static_same_listeners m0 m _ Hs) in Hh.
  apply elem_of_listeners in Hh as (hs & Hhs & Hh).
  specialize (m0_ranked _ _ Hhs). rewrite Forall_forall in m0_ranked.
  apply m0_ranked, Hh.
Qed.

Section Level.
Variable set_rec : propValidator -> setArgs -> M unit.
Variable k : nat.
Hypothesis rec : forall up pv t v,
  up ⊆ views -> t ∉ up -> depth height A views up t < k ->
  keeps False (raised up m0) (set_rec pv (SetOne t v)).

Lemma handler_bounded up p n o m1 h :
  up ⊆ views -> p ∉ up -> depth height A views up p <= k ->
  raised up m0 m1 -> h ∈ listeners (changed p) m1 ->
  keeps False (raised up m0) (run_handler set_rec h p n o).
Proof.
  intros Hsub Hp Hd Hm1 Hh.
  pose proof (ranked_listener up m1 p h Hm1 Hh) as Hr.
  destruct h as [t u|w u|w b r]; simpl in Hr.
  - destruct Hr as [Hlt Ht]. unfold run_handler.
    apply keeps_bind; [apply keeps_pure, pure_call_utilizer|]. intros x.
    apply rec; [exact Hsub | intros Hin; apply Ht, Hsub, Hin |].
    unfold depth in *. lia.
  - unfold run_handler. intros m Hm. change (bind this ?c m) with (c m m). cbv beta.
    destruct (is_triggered w m) eqn:Hflag; [exact Hm|].
    revert m Hm Hflag. intros m Hm Hflag.
    assert (Hw : w ∉ up).
    { intros Hin. destruct Hm as [_ Hup]. rewrite (Hup w Hin) in Hflag. discriminate. }
    revert Hm. generalize m. 
    apply keeps_bind; [apply keeps_pure, pure_call_utilizer|]. intros x.
    apply rec; [exact Hsub | exact Hw |]. unfold depth in *. lia.
  - destruct Hr as (Hch & Hw & Hb & Hle). apply changed_inj in Hch. subst w.
    unfold run_handler.
    apply keeps_bind; [apply keeps_pure, pure_get|]. intros base.
    apply keeps_bind; [apply keeps_pure, pure_this|]. intros mm.
    apply keeps_bind; [apply keeps_pure, pure_complete|]. intros x.
    intros m Hm. unfold bind at 1. unfold update at 1.
    pose proof (rec (p :: up) noValidator b x) as Hrec.
    assert (Hsub' : p :: up ⊆ views).
    { intros y Hy. apply elem_of_cons in Hy as [->|Hy]; [exact Hw | apply Hsub, Hy]. }
    assert (Hb' : b ∉ p :: up).
    { intros Hin. apply Hb, Hsub', Hin. }
    assert (Hd' : depth height A views (p :: up) b < k).
    { unfold depth in *. pose proof (difference_cons_lt views up p Hw Hp). nia. }
    specialize (Hrec Hsub' Hb' Hd' (set_triggered p true m) (raised_cons up m0 m p Hm)).
    unfold bind at 1.
    destruct (set_rec noValidator (SetOne b x) (set_triggered p true m))
      as [[] m2|e m2|]; [|exact (raised_tail _ _ _ _ Hrec)|exact Hrec].
    apply raised_flag; [exact Hp|]. exact (raised_tail _ _ _ _ Hrec).
Qed.

Lemma set_body_bounded up pv args :
  up ⊆ views ->
  Forall (fun p => (p ∉ up) /\ depth height A views up p <= k) (args_names args) ->
  keeps False (raised up m0) (_set_body set_rec pv args).
Proof.
  intros Hsub Hok.
  apply (keeps_set_body False (raised up m0)
           (fun p => (p ∉ up) /\ depth height A views up p <= k)
           (fun p => (p ∉ up) /\ depth height A views up p <= k)); auto.
  - intros p v m _ [Hs Hup]. split; [apply static_same_assign, Hs | exact Hup].
  - intros p n o m1 h [Hp Hd] Hm1 Hh. eapply handler_bounded; eauto.
Qed.
End Level.

(** In a store whose listeners follow the heights, [set] returns or throws
    within the depth of the properties it is given. *)
Lemma set_bounded fuel up pv args :
  up ⊆ views ->
  Forall (fun p => (p ∉ up) /\ depth height A views up p <= fuel) (args_names args) ->
  keeps False (raised up m0) (_set (S fuel) pv args).
Proof.
  revert up pv args. induction fuel as [|fuel IH]; intros up pv args Hsub Hok.
  - rewrite _set_S. apply (set_body_bounded (_set 0) 0); auto.
    intros up' pv' t v _ _ Hd. lia.
  - rewrite _set_S. apply (set_body_bounded (_set (S fuel)) (S fuel)); auto.
    intros up' pv' t v Hsub' Ht Hd. apply IH; [exact Hsub'|].
    constructor; [|constructor]. split; [exact Ht | lia].
Qed.
End Depth.

Lemma list_difference_nil_r (l : list string) : list_difference l [] = l.
Proof.
  induction l as [|x l IH]; simpl; [reflexivity | rewrite IH; reflexivity].
Qed.

(** From any store whose listeners follow the heights, whatever the flags:
    no cascade nests more levels of [set] than the views and the heights
    allow. *)
Lemma set_depth_bounded height A views fuel pv args m :
  ranked height A views m ->
  Forall (fun p => length views * (A + 1) + height (changed p) <= fuel)
    (args_names args) ->
  _set (S fuel) pv args m <> Diverged.
Proof.
  intros Hr Hok.
  pose proof (set_bounded height A views m Hr fuel [] pv args) as H.
  assert (Hsub : ([] : list string) ⊆ views) by (intros y Hy; inversion Hy).
  specialize (H Hsub). unfold depth in H. rewrite list_difference_nil_r in H.
  assert (Hok' : Forall (fun p => (p ∉ ([] : list string)) /\
                           length views * (A + 1) + height (changed p) <= fuel)
                   (args_names args)).
  { eapply Forall_impl; [exact Hok|]. intros p Hp. split; [|exact Hp].
    intros Hin. inversion Hin. }
  specialize (H Hok' m).
  assert (Hm : raised [] m m).
  { split; [apply static_same_refl|]. intros w Hw. inversion Hw. }
  specialize (H Hm). intros Hd. rewrite Hd in H. exact H.
Qed.

(** C6, as amended.  Setting a view that no listener writes but its own
    recomputation -- so a view that is not the base of another view --
    and whose change event is listened to by its write-back first, and
    then by listeners whose cascades stay among properties that do not
    include the view: the view is assigned once, by the caller, and
    announced at most once; whatever the write-back and the other
    listeners set off, nothing in the call assigns the view or announces
    it again, and the view keeps the value that was set.  When the view
    and the base are listened to by the pair's two listeners only, two
    nested levels of [set] are all the cascade needs: the call returns or
    throws, it does not go on.  In any store where recomputations go down
    the heights of the change events and no view is the base of another,
    whatever else listens to the view and the base, the call nests no
    more levels than one round of heights for each view, and one more
    down from the view. *)
Theorem view_set_bounded fuel pv v b r rest (reach : string -> Prop) x m :
  b <> v ->
  listeners (changed v) m = ReduceBase v b r :: rest ->
  (view_guarded v m ->
   closed_under reach m -> ~ reach v -> Forall (fun h => reach (target h)) rest ->
   forall m', _set fuel pv (SetOne v x) m = Returned tt m' ->
     value_of v m' = Some x /\
     exists tail, trace m' = trace m ++ Assigned v x :: tail /\
       (tail = [] \/
        exists old events, tail = PropChanged v x old :: events /\
                           Forall (fun e => concerns v e = false) events)) /\
  (rest = [] ->
   forall u, listeners (changed b) m = [RecomputeView v u] ->
   forall n, _set (S (S n)) pv (SetOne v x) m <> Diverged) /\
  (forall height A views n,
     ranked height A views m ->
     length views * (A + 1) + height (changed v) <= n ->
     _set (S n) pv (SetOne v x) m <> Diverged).
Proof.
  intros Hb Hl. split; [|split].
  - intros Hg Hclosed Hreach Hrest m' Hset. destruct fuel as [|fuel]; [discriminate|].
    rewrite _set_S, set_one_unfold in Hset.
    destruct (_props m !! v) as [q|] eqn:Hq;
      [|destruct (inherited v); [destruct (pv m v)|]; discriminate].
    destruct (pv m v); [discriminate|].
    destruct (valueValidator q x); [discriminate|].
    destruct (didChange q x (value q)).
    + apply fire_one_Returned in Hset as (m3 & Hloop & ->).
      change (listeners (changed v) (assign v x m)) with (listeners (changed v) m) in Hloop.
      rewrite Hl in Hloop. cbn [forEach] in Hloop.
      apply bind_Returned in Hloop as ([] & m4 & Hback & Hrun).
      set (m2 := announce (assign v x m) (v, (x, value q))) in *.
      assert (Hs24 : static_same m2 m4).
      { pose proof (maintains_handler_target (static_same m2) (fun _ => True)
                      (_set fuel) (ReduceBase v b r) v x (value q)
                      ltac:(auto) ltac:(intros; apply set_static_same) Logic.I
                      m2 (static_same_refl m2)) as H.
        rewrite Hback in H. exact H. }
      apply write_back_window in Hback
        as (base & nb & events & _ & _ & Hv & _ & Ht & Hev); [|exact Hg | exact Hb].
      assert (Hafter : untouched v m4 m3).
      { pose proof (hoare_forEach (untouched v m4) rest
          (fun h => run_handler (_set fuel) h v x (value q))
          (fun _ => untouched v m4)) as H.
        specialize (H ltac:(intros h Hh;
          apply (maintains_handler_target _ reach); auto;
          [ intros pv' args' Hargs;
            apply (untouched_set reach v m4 fuel pv' args'); auto;
            apply (closed_under_same_events reach m m4); [|exact Hclosed];
            exact (proj1 Hs24)
          | rewrite Forall_forall in Hrest; apply Hrest, Hh ]) m4 (untouched_refl v m4)).
        rewrite Hrun in H. exact H. }
      destruct Hafter as (_ & Hv3 & events' & Ht3 & Hev3).
      split.
      * rewrite value_of_settle, Hv3, Hv. eapply value_of_assign, Hq.
      * unfold settle. case_bool_decide.
        -- eexists. split.
           ++ simpl. rewrite Ht3, Ht. simpl. rewrite <- !app_assoc. simpl. reflexivity.
           ++ right. eexists _, _. split; [reflexivity|].
              constructor; [simpl; apply bool_decide_eq_false_2, Hb|].
              apply Forall_app. split; [exact Hev|].
              apply Forall_app. split; [exact Hev3 | repeat constructor].
        -- eexists. split.
           ++ rewrite Ht3, Ht. simpl. rewrite <- !app_assoc. simpl. reflexivity.
           ++ right. eexists _, _. split; [reflexivity|].
              constructor; [simpl; apply bool_decide_eq_false_2, Hb|].
              apply Forall_app. split; [exact Hev | exact Hev3].
    + inversion Hset; subst m'. split; [eapply value_of_assign, Hq|].
      exists []. split; [reflexivity | left; reflexivity].
  - intros -> u Hlb n. rewrite _set_S, set_one_unfold.
    destruct (_props m !! v) as [q|];
      [|destruct (inherited v); [destruct (pv m v)|]; discriminate].
    destruct (pv m v); [discriminate|].
    destruct (valueValidator q x); [discriminate|].
    destruct (didChange q x (value q)); [|discriminate].
    apply fire_one_not_Diverged.
    change (listeners (changed v) (assign v x m)) with (listeners (changed v) m).
    rewrite Hl. cbn [forEach]. unfold bind.
    pose proof (write_back_not_Diverged n v b r u v x (value q)
                  (announce (assign v x m) (v, (x, value q))) Hlb) as Hback.
    destruct (run_handler _ _ _ _ _ _); [discriminate | discriminate | contradiction].
  - intros height A views n Hr Hn. apply (set_depth_bounded height A views); [exact Hr|].
    constructor; [exact Hn | constructor].
Qed.

Lemma view_set_bounded_witness :
  (value_of "size" (after (set 3 (SetOne "size" (VNum 7))) magnitude_doubled)
     = Some (VNum 7) /\
   exists tail,
     trace (after (set 3 (SetOne "size" (VNum 7))) magnitude_doubled)
       = trace magnitude_doubled ++ Assigned "size" (VNum 7) :: tail /\
     (tail = [] \/
      exists old events, tail = PropChanged "size" (VNum 7) old :: events /\
                         Forall (fun e => concerns "size" e = false) events)) /\
  _set 2 noValidator (SetOne "size" (VNum 7)) magnitude <> Diverged /\
  _set 5 noValidator (SetOne "size" (VNum 7)) magnitude_doubled <> Diverged.
Proof.
  split; [|split].
  - refine (proj1 (view_set_bounded 3 noValidator "size" "number" (fun _ v _ => Return v)
              [RecomputeDerived "double" (Utilizer ["size"] twice)]
              (fun p => p = "double") (VNum 7) magnitude_doubled _ _) _ _ _ _ _ _).
    + discriminate.
    + vm_compute. reflexivity.
    + unfold view_guarded. refine (bool_decide_unpack _ _). vm_compute. exact Logic.I.
    + intros p h -> Hh.
      assert (Hl : listeners (changed "double") magnitude_doubled = [])
        by (vm_compute; reflexivity).
      rewrite Hl in Hh. inversion Hh.
    + discriminate.
    + constructor; [reflexivity | constructor].
    + vm_compute. reflexivity.
  - refine (proj1 (proj2 (view_set_bounded 2 noValidator "size" "number"
              (fun _ v _ => Return v) [] (fun _ => False) (VNum 7) magnitude _ _))
              eq_refl (Utilizer ["number"] (unary magnitude_of)) _ 0).
    + discriminate.
    + vm_compute. reflexivity.
    + vm_compute. reflexivity.
  - refine (proj2 (proj2 (view_set_bounded 5 noValidator "size" "number"
              (fun _ v _ => Return v)
              [RecomputeDerived "double" (Utilizer ["size"] twice)]
              (fun _ => False) (VNum 7) magnitude_doubled _ _))
              magnitude_heights 2 ["size"] 4 _ _).
    + discriminate.
    + vm_compute. reflexivity.
    + unfold ranked. refine (bool_decide_unpack _ _). vm_compute. exact Logic.I.
    + vm_compute. lia.
Defined.

(** C6 as stated fails for a view that is the base of another view.  The
    flag of a view is up during its own write-back only, and the
    write-back of the view above it comes after that: setting the size to
    -5 makes the extent 5, whose write-back sets the size again.  The size
    is assigned twice and announced twice, the number is written back
    twice, and the size does not keep the value that was set. *)
Lemma view_set_counterexample :
  exists m', set 4 (SetOne "size" (VNum (-5))) magnitude_nested = Returned tt m' /\
    trace_since magnitude_nested m'
    = [Assigned "size" (VNum (-5)); PropChanged "size" (VNum (-5)) (VNum 1);
       Assigned "number" (VNum (-5)); PropChanged "number" (VNum (-5)) (VNum 1);
       Assigned "extent" (VNum 5); PropChanged "extent" (VNum 5) (VNum 1);
       Assigned "size" (VNum 5); PropChanged "size" (VNum 5) (VNum (-5));
       Assigned "number" (VNum 5); PropChanged "number" (VNum 5) (VNum (-5));
       PropChainCompleted ["size"; "number"; "extent"]] /\
    value_of "size" m' = Some (VNum 5).
Proof. eexists. split; [|split]; vm_compute; reflexivity. Qed.

(** ** Derived properties follow their dependencies *)

Lemma read_ext k m1 m2 : value_of k m1 = value_of k m2 -> read k m1 = read k m2.
Proof.
  unfold value_of, read.
  destruct (_props m1 !! k), (_props m2 !! k); simpl; intros H;
    inversion H; reflexivity.
Qed.

Lemma current_values_ext names m1 m2 :
  (forall k, k ∈ names -> value_of k m1 = value_of k m2) ->
  current_values names m1 = current_values names m2.
Proof.
  induction names as [|n names IH]; intros H; [reflexivity|].
  simpl. rewrite (read_ext n m1 m2) by (apply H; left). rewrite IH; [reflexivity|].
  intros k Hk. apply H. right. exact Hk.
Qed.

Lemma consistent_ext d u m1 m2 :
  (forall k, k = d \/ k ∈ propNames u -> value_of k m1 = value_of k m2) ->
  consistent d u m1 -> consistent d u m2.
Proof.
  intros H (vs & v & Hvs & Hv & Hd). exists vs, v. split; [|split; [exact Hv|]].
  - rewrite <- Hvs. symmetry. apply current_values_ext. intros k Hk. apply H. right. exact Hk.
  - rewrite <- Hd. symmetry. apply H. left. reflexivity.
Qed.

Lemma consistent_props d u m1 m2 :
  _props m2 = _props m1 -> consistent d u m1 -> consistent d u m2.
Proof.
  intros Hp. apply consistent_ext. intros k _. unfold value_of. rewrite Hp. reflexivity.
Qed.

Lemma consistent_assign_other d u p v m :
  p <> d -> p ∉ propNames u -> consistent d u m -> consistent d u (assign p v m).
Proof.
  intros Hd Hu. apply consistent_ext. intros k Hk.
  symmetry. apply value_of_assign_ne. intros ->.
  destruct Hk as [->|Hk]; contradiction.
Qed.

Lemma consistent_assign_same d u p q m :
  _props m !! p = Some q -> consistent d u m -> consistent d u (assign p (value q) m).
Proof.
  intros Hq. apply consistent_ext. intros k _.
  rewrite value_of_assign_cases. case_decide; [subst k|reflexivity].
  unfold value_of. rewrite Hq. reflexivity.
Qed.

Lemma values_of_Returned names m vs m' :
  values_of names m = Returned vs m' -> current_values names m = Some vs.
Proof.
  revert vs m'. induction names as [|n names IH]; simpl; intros vs m' H.
  - inversion H. reflexivity.
  - unfold bind, the_value in H.
    destruct (read n m) as [v|]; [|discriminate]. simpl.
    destruct (values_of names m) as [vs' m1|e m1|] eqn:Hvs; [|discriminate..].
    rewrite (IH vs' m1 eq_refl). inversion H. reflexivity.
Qed.

Lemma call_utilizer_Returned u m v m' :
  call_utilizer u m = Returned v m' ->
  m' = m /\ exists vs, current_values (propNames u) m = Some vs /\ delegate u vs = Return v.
Proof.
  intros H. pose proof (pure_Returned _ _ _ _ (pure_call_utilizer u) H) as ->.
  split; [reflexivity|]. unfold call_utilizer in H.
  apply bind_Returned in H as (vs & m1 & Hvs & H).
  pose proof (pure_Returned _ _ _ _ (pure_values_of (propNames u)) Hvs) as ->.
  apply values_of_Returned in Hvs. apply complete_Returned in H as [_ H].
  exists vs. auto.
Qed.

Lemma consistent_after_recompute d u v m :
  d ∉ propNames u ->
  is_Some (_props m !! d) ->
  call_utilizer u m = Returned v m ->
  consistent d u (assign d v m).
Proof.
  intros Hd [q Hq] H. apply call_utilizer_Returned in H as (_ & vs & Hvs & Hv).
  exists vs, v. split; [|split; [exact Hv | eapply value_of_assign, Hq]].
  rewrite <- Hvs. apply current_values_ext. intros k Hk.
  apply value_of_assign_ne. intros ->. contradiction.
Qed.

Lemma leads_bind {A B} P (c : M A) (k : A -> M B) R Q :
  leads P c R -> (forall a, leads R (k a) Q) -> leads P (bind c k) Q.
Proof. intros Hc Hk. eapply hoare_bind; [exact Hc | exact Hk]. Qed.

Lemma leads_pure {A} (c : M A) (P : PropsModel -> Prop) : pure c -> leads P c P.
Proof.
  intros Hc m Hm. specialize (Hc m). destruct (c m); subst; auto.
Qed.

Lemma leads_update f (P Q : PropsModel -> Prop) :
  (forall m, P m -> Q (f m)) -> leads P (update f) Q.
Proof. intros H m Hm. apply H, Hm. Qed.

Lemma leads_weaken {A} (P P' Q Q' : PropsModel -> Prop) (c : M A) :
  leads P' c Q' -> (forall m, P m -> P' m) -> (forall m, Q' m -> Q m) -> leads P c Q.
Proof.
  intros H HP HQ. eapply hoare_conseq; [exact H | exact HP | | auto].
  intros a m Hm. apply HQ, Hm.
Qed.

Lemma leads_maintains {A} (I : PropsModel -> Prop) (c : M A) :
  maintains I c -> leads I c I.
Proof. intros H. eapply hoare_conseq; [exact H | auto | auto | auto]. Qed.

Lemma leads_forEach {A} (I : PropsModel -> Prop) (l : list A) (f : A -> M unit) :
  (forall x, x ∈ l -> leads I (f x) I) -> leads I (forEach l f) I.
Proof. apply hoare_forEach. Qed.

Lemma forEach_ext {A} (l : list A) (f g : A -> M unit) :
  (forall x, f x = g x) -> forEach l f = forEach l g.
Proof.
  intros H. induction l as [|x l IH]; [reflexivity|]. simpl. rewrite H, IH. reflexivity.
Qed.

Lemma fire_as_steps set_rec events m :
  _firePropChangeEvents set_rec events m
  = (forEach events (step_of set_rec) >>
     if bool_decide (length (_firedProps m) = 0)
     then emit_chain_completed >> update (set_firedProps (fun _ => []))
     else ret tt) m.
Proof.
  unfold _firePropChangeEvents. change (bind this ?k m) with (k m m). cbv beta.
  rewrite (forEach_ext events _ (step_of set_rec)); [reflexivity|].
  intros [p [n o]]. reflexivity.
Qed.

Lemma in_change_events propValues m k v p :
  (k, v) ∈ propValues -> _props m !! k = Some p ->
  didChange p v (value p) = true ->
  (k, (v, value p)) ∈ change_events propValues m.
Proof.
  intros Hin Hp Hch. unfold change_events. apply list_elem_of_omap.
  exists (k, v). split; [exact Hin|]. simpl. rewrite Hp, Hch. reflexivity.
Qed.

Lemma value_of_assigned_other propValues m k :
  k ∉ propValues.*1 -> value_of k (assigned propValues m) = value_of k m.
Proof.
  revert m. induction propValues as [|[k' v] rest IH]; intros m Hk; [reflexivity|].
  unfold assigned in *. simpl. rewrite IH by (intros H; apply Hk; right; exact H).
  apply value_of_assign_ne. intros ->. apply Hk. left.
Qed.

Section Derived.
Variables (d : string) (u : utilizer) (m0 : PropsModel).
Hypothesis d_not_dep : d ∉ propNames u.
Hypothesis Hsub : subscribed d u m0.
Hypothesis Hstrict : strict_dependencies u m0.
Hypothesis Hsole : sole_writer d u m0.

Lemma writer_of_d h ch m :
  static_same m0 m -> h ∈ listeners ch m -> target h = d -> h = RecomputeDerived d u.
Proof.
  intros Hs Hh Ht. rewrite (static_same_listeners _ _ _ Hs) in Hh.
  apply elem_of_listeners in Hh as (hs & Hhs & Hh).
  apply (map_Forall_lookup_1 _ _ _ _ Hsole) in Hhs.
  rewrite Forall_forall in Hhs. apply Hhs; assumption.
Qed.

Lemma strict_dependency dep q m :
  static_same m0 m -> dep ∈ propNames u -> _props m !! dep = Some q ->
  strict (didChange q).
Proof.
  intros Hs Hdep Hq. unfold strict_dependencies in Hstrict.
  rewrite Forall_forall in Hstrict. destruct (Hstrict dep Hdep) as (p & Hp & Hst).
  destruct (static_same_lookup _ _ _ _ Hs Hp) as (q' & Hq' & Hshape).
  rewrite Hq in Hq'. inversion Hq'; subst q'.
  unfold shape in Hshape. replace (didChange q) with (didChange p) by congruence.
  exact Hst.
Qed.

Lemma steady_props m m' :
  _props m' = _props m -> _events m' = _events m ->
  steady d u m0 m -> steady d u m0 m'.
Proof.
  intros Hp He [[Hev Hsh] Hc]. split; [split|].
  - rewrite He. exact Hev.
  - rewrite Hp. exact Hsh.
  - eapply consistent_props; eassumption.
Qed.

Section Step.
Variable set_rec : propValidator -> setArgs -> M unit.
Hypothesis rec_static : forall pv args, maintains (static_same m0) (set_rec pv args).
Hypothesis rec_steady : forall pv t v, t <> d ->
  leads (steady d u m0) (set_rec pv (SetOne t v)) (steady d u m0).
Hypothesis rec_recompute : forall pv v,
  leads (fun m => static_same m0 m /\ call_utilizer u m = Returned v m)
    (set_rec pv (SetOne d v)) (steady d u m0).

Lemma handler_static h p n o :
  leads (static_same m0) (run_handler set_rec h p n o) (static_same m0).
Proof.
  apply leads_maintains.
  apply (maintains_handler_target _ (fun _ => True)); auto.
Qed.

Lemma recompute_restores p n o :
  leads (static_same m0) (run_handler set_rec (RecomputeDerived d u) p n o)
    (steady d u m0).
Proof.
  intros m Hs. simpl. unfold bind.
  pose proof (pure_call_utilizer u m) as Hpure.
  destruct (call_utilizer u m) as [v m1|e m1|] eqn:Hc; [subst m1 | exact I | exact I].
  apply (rec_recompute noValidator v m). auto.
Qed.

Lemma handler_steady h ch p n o m1 :
  static_same m0 m1 -> h ∈ listeners ch m1 ->
  leads (steady d u m0) (run_handler set_rec h p n o) (steady d u m0).
Proof.
  intros Hs1 Hh. pose proof (writer_of_d h ch m1 Hs1 Hh) as Hw.
  destruct h as [t u'|w u'|w b r]; simpl in Hw.
  - destruct (decide (t = d)) as [Ht|Ht].
    + rewrite (Hw Ht). eapply leads_weaken; [apply recompute_restores | | auto].
      intros m [Hs _]. exact Hs.
    + simpl. eapply leads_bind; [apply leads_pure, pure_call_utilizer|].
      intros v. apply rec_steady. exact Ht.
  - assert (Hwd : w <> d) by (intros Heq; specialize (Hw Heq); discriminate).
    simpl. intros m Hm. change (bind this ?k m) with (k m m). cbv beta.
    destruct (is_triggered w m); [exact Hm|].
    revert m Hm. eapply leads_bind; [apply leads_pure, pure_call_utilizer|].
    intros v. apply rec_steady. exact Hwd.
  - assert (Hbd : b <> d) by (intros Heq; specialize (Hw Heq); discriminate).
    simpl. eapply leads_bind; [apply leads_pure, pure_get|]. intros base.
    eapply leads_bind; [apply leads_pure, pure_this|]. intros m2.
    eapply leads_bind; [apply leads_pure, pure_complete|]. intros x.
    eapply leads_bind;
      [apply leads_update; intros m; apply steady_props; reflexivity|].
    intros u1. eapply leads_bind; [apply rec_steady, Hbd|].
    intros u2. apply leads_update. intros m. apply steady_props; reflexivity.
Qed.

Lemma listeners_restore hs ch p n o m1 :
  static_same m0 m1 ->
  (forall h, h ∈ hs -> h ∈ listeners ch m1) ->
  RecomputeDerived d u ∈ hs ->
  leads (static_same m0) (forEach hs (fun h => run_handler set_rec h p n o))
    (steady d u m0).
Proof.
  intros Hs1. induction hs as [|h hs IH]; intros Hsub' Hin; [inversion Hin|].
  simpl. apply elem_of_cons in Hin as [<-|Hin].
  - eapply leads_bind; [apply recompute_restores|]. intros u1.
    apply leads_forEach. intros h Hh.
    eapply handler_steady; [exact Hs1 | apply Hsub'; right; exact Hh].
  - eapply leads_bind; [apply handler_static|]. intros u1.
    apply IH; [|exact Hin]. intros h' Hh'. apply Hsub'. right. exact Hh'.
Qed.

Lemma step_steady ev : leads (steady d u m0) (step_of set_rec ev) (steady d u m0).
Proof.
  intros m Hm. destruct ev as [p [n o]].
  change (step_of set_rec (p, (n, o)) m)
    with (forEach (listeners (changed p) (announce m (p, (n, o))))
            (fun h => run_handler set_rec h p n o) (announce m (p, (n, o)))).
  assert (Hm2 : steady d u m0 (announce m (p, (n, o))))
    by (revert Hm; apply steady_props; reflexivity).
  revert Hm2. generalize (announce m (p, (n, o))). intros m2 Hm2.
  apply (leads_forEach (steady d u m0)); [|exact Hm2].
  intros h Hh. eapply handler_steady; [exact (proj1 Hm2) | exact Hh].
Qed.

Lemma step_static ev : leads (static_same m0) (step_of set_rec ev) (static_same m0).
Proof.
  intros m Hm. destruct ev as [p [n o]].
  change (step_of set_rec (p, (n, o)) m)
    with (forEach (listeners (changed p) (announce m (p, (n, o))))
            (fun h => run_handler set_rec h p n o) (announce m (p, (n, o)))).
  assert (Hm2 : static_same m0 (announce m (p, (n, o)))) by exact Hm.
  revert Hm2. generalize (announce m (p, (n, o))). intros m2 Hm2.
  apply (leads_forEach (static_same m0)); [|exact Hm2].
  intros h Hh. apply handler_static.
Qed.

Lemma step_restore ev :
  ev.1 ∈ propNames u -> leads (static_same m0) (step_of set_rec ev) (steady d u m0).
Proof.
  intros Hdep m Hm. destruct ev as [p [n o]]. simpl in Hdep.
  change (step_of set_rec (p, (n, o)) m)
    with (forEach (listeners (changed p) (announce m (p, (n, o))))
            (fun h => run_handler set_rec h p n o) (announce m (p, (n, o)))).
  assert (Hm2 : static_same m0 (announce m (p, (n, o)))) by exact Hm.
  revert Hm2. generalize (announce m (p, (n, o))). intros m2 Hm2.
  apply (listeners_restore _ (changed p) p n o m2 Hm2); [auto | | exact Hm2].
  rewrite (static_same_listeners _ _ _ Hm2).
  unfold subscribed in Hsub. rewrite Forall_forall in Hsub. apply Hsub, Hdep.
Qed.

Lemma loop_restore events :
  (exists ev, ev ∈ events /\ ev.1 ∈ propNames u) ->
  leads (static_same m0) (forEach events (step_of set_rec)) (steady d u m0).
Proof.
  induction events as [|ev events IH]; intros (ev' & Hin & Hdep); [inversion Hin|].
  simpl. destruct (decide (ev.1 ∈ propNames u)) as [Hev|Hev].
  - eapply leads_bind; [apply step_restore, Hev|]. intros u1.
    apply leads_forEach. intros x _. apply step_steady.
  - eapply leads_bind; [apply step_static|]. intros u1.
    apply IH. apply elem_of_cons in Hin as [->|Hin]; [contradiction|].
    exists ev'. auto.
Qed.

Lemma fire_steady events :
  leads (steady d u m0) (_firePropChangeEvents set_rec events) (steady d u m0).
Proof.
  intros m Hm. rewrite fire_as_steps. revert m Hm.
  intros m. generalize (bool_decide (length (_firedProps m) = 0)). intros first.
  revert m. eapply leads_bind.
  - apply leads_forEach. intros ev _. apply step_steady.
  - intros u1. destruct first; [|intros m Hm; exact Hm].
    intros m Hm. revert Hm. apply steady_props; reflexivity.
Qed.

Lemma fire_restore events :
  (exists ev, ev ∈ events /\ ev.1 ∈ propNames u) ->
  leads (static_same m0) (_firePropChangeEvents set_rec events) (steady d u m0).
Proof.
  intros Hev m Hm. rewrite fire_as_steps. revert m Hm.
  intros m. generalize (bool_decide (length (_firedProps m) = 0)). intros first.
  revert m. eapply leads_bind.
  - apply loop_restore, Hev.
  - intros u1. destruct first; [|intros m Hm; exact Hm].
    intros m Hm. revert Hm. apply steady_props; reflexivity.
Qed.

(** A single write to a property other than [d]. *)
Lemma set_one_steady pv p v :
  p <> d ->
  leads (fun m => static_same m0 m /\
                  (consistent d u m \/ changes_dependency u (SetOne p v) m))
    (_set_body set_rec pv (SetOne p v)) (steady d u m0).
Proof.
  intros Hpd m [Hs Hcase]. rewrite set_one_unfold.
  destruct (_props m !! p) as [q|] eqn:Hq;
    [|destruct (inherited p); [destruct (pv m p)|]; exact I].
  destruct (pv m p); [exact I|].
  destruct (valueValidator q v); [exact I|].
  assert (Hs1 : static_same m0 (assign p v m)) by (apply static_same_assign, Hs).
  destruct (decide (p ∈ propNames u)) as [Hdep|Hdep].
  - destruct (decide (v = value q)) as [->|Hne].
    + assert (Hc : consistent d u m).
      { destruct Hcase as [Hc|(dep & x & q' & _ & Hin & Hq' & Hx)]; [exact Hc|].
        apply list_elem_of_singleton in Hin. inversion Hin; subst. congruence. }
      assert (Hst : steady d u m0 (assign p (value q) m))
        by (split; [exact Hs1 | apply consistent_assign_same; assumption]).
      destruct (didChange q (value q) (value q)); [|exact Hst].
      apply (fire_steady _ _ Hst).
    + rewrite (strict_dependency p q m Hs Hdep Hq _ _ Hne).
      apply (fire_restore [(p, (v, value q))]); [|exact Hs1].
      exists (p, (v, value q)). split; [left | exact Hdep].
  - assert (Hc : consistent d u m).
    { destruct Hcase as [Hc|(dep & x & q' & Hin' & Hin & _)]; [exact Hc|].
      apply list_elem_of_singleton in Hin. inversion Hin; subst. contradiction. }
    assert (Hst : steady d u m0 (assign p v m))
      by (split; [exact Hs1 | apply consistent_assign_other; assumption]).
    destruct (didChange q v (value q)); [|exact Hst].
    apply (fire_steady _ _ Hst).
Qed.

(** The write of the recomputation: [d] gets the value just computed. *)
Lemma set_one_recompute pv v :
  leads (fun m => static_same m0 m /\ call_utilizer u m = Returned v m)
    (_set_body set_rec pv (SetOne d v)) (steady d u m0).
Proof.
  intros m [Hs Hc]. rewrite set_one_unfold.
  destruct (_props m !! d) as [q|] eqn:Hq;
    [|destruct (inherited d); [destruct (pv m d)|]; exact I].
  destruct (pv m d); [exact I|].
  destruct (valueValidator q v); [exact I|].
  assert (Hst : steady d u m0 (assign d v m)).
  { split; [apply static_same_assign, Hs|].
    apply consistent_after_recompute; eauto. }
  destruct (didChange q v (value q)); [|exact Hst].
  apply (fire_steady _ _ Hst).
Qed.

(** A bulk write that does not name [d]. *)
Lemma set_many_steady pv propValues :
  d ∉ propValues.*1 -> NoDup propValues.*1 ->
  leads (fun m => static_same m0 m /\
                  (consistent d u m \/ changes_dependency u (SetMany propValues) m))
    (_set_body set_rec pv (SetMany propValues)) (steady d u m0).
Proof.
  intros Hd Hnd m [Hs Hcase].
  destruct (_set_body set_rec pv (SetMany propValues) m) as [[] m'|e m'|] eqn:Hbody;
    [|exact I|exact I].
  pose proof (set_many_Returned_known _ _ _ _ _ Hbody) as Hknown.
  apply set_many_fires in Hbody; [|exact Hnd].
  assert (Hs1 : static_same m0 (assigned propValues m)).
  { clear -Hs. revert m Hs. induction propValues as [|[k v] rest IH]; intros m Hs;
      [exact Hs|]. apply IH, static_same_assign, Hs. }
  destruct (decide (Exists (fun ev => ev.1 ∈ propNames u)
                      (change_events propValues m))) as [Hex|Hno].
  - apply Exists_exists in Hex.
    pose proof (fire_restore _ Hex _ Hs1) as H. rewrite Hbody in H. exact H.
  - assert (Hquiet : forall dep v p, dep ∈ propNames u -> (dep, v) ∈ propValues ->
              _props m !! dep = Some p -> v = value p).
    { intros dep v p Hdep Hin Hp. destruct (decide (v = value p)) as [|Hne]; [assumption|].
      exfalso. apply Hno. apply Exists_exists. exists (dep, (v, value p)).
      split; [|exact Hdep].
      apply (in_change_events propValues m dep v p Hin Hp).
      apply (strict_dependency dep p m Hs Hdep Hp _ _ Hne). }
    assert (Hc : consistent d u m).
    { destruct Hcase as [Hc|(dep & v & p & Hdep & Hin & Hp & Hne)]; [exact Hc|].
      exfalso. apply Hne. eapply Hquiet; eassumption. }
    assert (Hst : steady d u m0 (assigned propValues m)).
    { split; [exact Hs1|]. revert Hc. apply consistent_ext. intros k Hk.
      destruct (decide (k ∈ propValues.*1)) as [Hin|Hout].
      - destruct Hk as [->|Hk]; [contradiction|].
        apply list_elem_of_fmap in Hin as ([k' v] & Heq & Hin). simpl in Heq. subst k'.
        destruct (Hknown k) as [p Hp].
        { apply list_elem_of_fmap. exists (k, v). auto. }
        rewrite (value_of_assigned propValues m k v Hnd Hin) by eauto.
        unfold value_of. rewrite Hp. simpl. f_equal.
        symmetry. eapply Hquiet; eassumption.
      - symmetry. apply value_of_assigned_other, Hout. }
    pose proof (fire_steady (change_events propValues m) _ Hst) as H.
    rewrite Hbody in H. exact H.
Qed.
End Step.

(** At every depth: a [set] that does not name [d] leaves it consistent
    if it was or if the call changes a dependency, and the write of the
    recomputation makes it consistent. *)
Lemma set_steady fuel :
  (forall pv args, d ∉ args_names args -> NoDup (args_names args) ->
     leads (fun m => static_same m0 m /\
                     (consistent d u m \/ changes_dependency u args m))
       (_set fuel pv args) (steady d u m0)) /\
  (forall pv v,
     leads (fun m => static_same m0 m /\ call_utilizer u m = Returned v m)
       (_set fuel pv (SetOne d v)) (steady d u m0)).
Proof.
  induction fuel as [|fuel [IH1 IH2]].
  - split; intros; intros m _; exact I.
  - assert (Hrec : forall pv t v, t <> d ->
              leads (steady d u m0) (_set fuel pv (SetOne t v)) (steady d u m0)).
    { intros pv t v Ht. eapply leads_weaken; [apply (IH1 pv (SetOne t v))| |auto].
      - simpl. intros Hin. apply list_elem_of_singleton in Hin. congruence.
      - simpl. apply NoDup_singleton.
      - intros m [Hs Hc]. auto. }
    split.
    + intros pv [p v|propValues] Hd Hnd; rewrite _set_S; simpl in Hd.
      * apply set_one_steady; [| exact Hrec | exact IH2 |].
        -- intros pv' args'. apply set_static_same.
        -- intros ->. apply Hd. left.
      * apply set_many_steady; [| exact Hrec | exact IH2 | exact Hd | exact Hnd].
        intros pv' args'. apply set_static_same.
    + intros pv v. rewrite _set_S. apply set_one_recompute; [exact Hrec | exact IH2].
Qed.
End Derived.

Lemma listeners_onAny_mono names h m ch h0 :
  h0 ∈ listeners ch m ->
  h0 ∈ listeners ch (foldl (fun m n => subscribe (changed n) h m) m names).
Proof.
  revert m. induction names as [|n names IH]; intros m H0; [exact H0|].
  simpl. apply IH. rewrite listeners_subscribe.
  case_decide; [apply elem_of_app; left; exact H0 | exact H0].
Qed.

Lemma listeners_onAny_in names h m dep :
  dep ∈ names ->
  h ∈ listeners (changed dep) (foldl (fun m n => subscribe (changed n) h m) m names).
Proof.
  revert m. induction names as [|n names IH]; intros m Hdep; [inversion Hdep|].
  simpl. apply elem_of_cons in Hdep as [->|Hdep]; [|apply IH, Hdep].
  apply listeners_onAny_mono. rewrite listeners_subscribe.
  rewrite decide_True by reflexivity. apply elem_of_app. right. left.
Qed.

Lemma listeners_onAny_from names h m ch h0 :
  h0 ∈ listeners ch (foldl (fun m n => subscribe (changed n) h m) m names) ->
  h0 = h \/ h0 ∈ listeners ch m.
Proof.
  revert m. induction names as [|n names IH]; intros m H0; [right; exact H0|].
  simpl in H0. apply IH in H0 as [->|H0]; [left; reflexivity|].
  rewrite listeners_subscribe in H0. case_decide; [|right; exact H0].
  apply elem_of_app in H0 as [H0|H0]; [right; exact H0|].
  apply list_elem_of_singleton in H0. left. exact H0.
Qed.

Lemma lookup_listeners ch m hs h :
  _events m !! ch = Some hs -> h ∈ hs -> h ∈ listeners ch m.
Proof. intros Hhs Hh. unfold listeners. rewrite Hhs. exact Hh. Qed.

Lemma props_settle m0 m : _props (settle m0 m) = _props m.
Proof. unfold settle. case_bool_decide; reflexivity. Qed.

Lemma events_settle m0 m : _events (settle m0 m) = _events m.
Proof. unfold settle. case_bool_decide; reflexivity. Qed.

(** What [defineDerivedProp] leaves behind when it computes the initial
    value: the conditions under which the derived property follows its
    dependencies. *)
Lemma defineDerivedProp_ready fuel d deps calc dc m vs v :
  known d m = false ->
  current_values deps m = Some vs ->
  listeners (changed d) m = [] ->
  no_listener_writes d m ->
  strict_dependencies (Utilizer deps calc) m ->
  calc vs = Return v ->
  exists m1,
    defineDerivedProp fuel d deps calc VUndefined dc m = Returned tt m1 /\
    (d ∉ deps) /\
    subscribed d (Utilizer deps calc) m1 /\
    strict_dependencies (Utilizer deps calc) m1 /\
    sole_writer d (Utilizer deps calc) m1 /\
    consistent d (Utilizer deps calc) m1.
Proof.
  intros Hfresh Hvs Hnone Hwrites Hstrict Hcalc.
  rewrite (defineDerivedProp_unfold _ _ _ _ _ _ _ _ Hfresh Hvs Hnone).
  simpl typeof_undefined. cbv iota. rewrite Hcalc. cbv zeta.
  assert (Hd : d ∉ deps).
  { intros Hin. apply (current_values_defined _ _ _ Hvs) in Hin. congruence. }
  set (h := RecomputeDerived d (Utilizer deps calc)).
  set (m1 := foldl (fun m n => subscribe (changed n) h m)
               (set_props (insert d {| value := v; derived := true;
                  valueValidator := fun _ => None; didChange := dc |}) m) deps).
  assert (Hprops : _props m1 = <[d := {| value := v; derived := true;
             valueValidator := fun _ => None; didChange := dc |}]> (_props m))
    by apply props_onAny.
  eexists. split; [reflexivity|]. split; [exact Hd|].
  assert (Hfinal : forall m2, _props m2 = _props m1 -> _events m2 = _events m1 ->
    subscribed d (Utilizer deps calc) m2 /\
    strict_dependencies (Utilizer deps calc) m2 /\
    sole_writer d (Utilizer deps calc) m2 /\
    consistent d (Utilizer deps calc) m2).
  { intros m2 Hp He. split; [|split; [|split]].
    - unfold subscribed. simpl. apply Forall_forall. intros dep Hdep.
      unfold listeners. rewrite He. apply (listeners_onAny_in deps h _ dep Hdep).
    - unfold strict_dependencies in *. simpl in *. rewrite Forall_forall in *.
      intros dep Hdep. destruct (Hstrict dep Hdep) as (p & Hp' & Hst).
      exists p. split; [|exact Hst].
      rewrite Hp, Hprops, lookup_insert_ne; [exact Hp'|]. intros ->. contradiction.
    - unfold sole_writer. rewrite He. apply map_Forall_lookup_2. intros ch hs Hhs.
      apply Forall_forall. intros h0 Hh0 Ht.
      apply (lookup_listeners _ _ _ _ Hhs), listeners_onAny_from in Hh0 as [->|Hh0];
        [reflexivity|].
      exfalso. apply elem_of_listeners in Hh0 as (hs0 & Hhs0 & Hh0).
      apply (map_Forall_lookup_1 _ _ _ _ Hwrites) in Hhs0.
      rewrite Forall_forall in Hhs0. apply (Hhs0 h0 Hh0 Ht).
    - exists vs, v. simpl. split; [|split; [exact Hcalc|]].
      + rewrite <- Hvs. apply current_values_ext. intros k Hk.
        unfold value_of. rewrite Hp, Hprops, lookup_insert_ne; [reflexivity|].
        intros ->. contradiction.
      + unfold value_of. rewrite Hp, Hprops, lookup_insert_eq. reflexivity. }
  destruct (dc v VUndefined).
  - apply Hfinal; [rewrite props_settle | rewrite events_settle]; reflexivity.
  - apply Hfinal; reflexivity.
Qed.




Lemma strict_default : strict defaultDidChange.
Proof.
  intros n o Hne. unfold defaultDidChange.
  rewrite bool_decide_eq_false_2 by exact Hne. reflexivity.
Qed.



(** ** Writing a derived property *)

(** The store's own [set] of a property nobody listens to. *)
Lemma set_unheard fuel d x p m :
  _props m !! d = Some p -> valueValidator p x = None ->
  listeners (changed d) m = [] ->
  exists m', _set (S fuel) noValidator (SetOne d x) m = Returned tt m' /\
    value_of d m' = Some x /\
    exists post, trace m' = trace m ++ Assigned d x :: post.
Proof.
  intros Hp Hvalid Hnone.
  rewrite _set_S, set_one_unfold, Hp. unfold noValidator. rewrite Hvalid.
  destruct (didChange p x (value p)).
  - unfold _firePropChangeEvent. rewrite fire_no_listeners.
    2:{ intros ev Hev. apply list_elem_of_singleton in Hev as ->. exact Hnone. }
    eexists. split; [reflexivity|]. split.
    + rewrite value_of_settle. simpl.
      change (value_of d (assign d x m) = Some x). eapply value_of_assign, Hp.
    + unfold settle. case_bool_decide; simpl; rewrite <- ?app_assoc; simpl; eauto.
  - eexists. split; [reflexivity|]. split; [eapply value_of_assign, Hp|].
    exists []. reflexivity.
Qed.

(** A write to a property that the recomputation of [d] alone listens to:
    the call goes through the recomputation's [set] of [d] and returns. *)
Lemma recomputation_write_succeeds fuel pv k v q d p u vs x m :
  k <> d ->
  _props m !! k = Some q -> pv m k = None ->
  valueValidator q v = None -> didChange q v (value q) = true ->
  listeners (changed k) m = [RecomputeDerived d u] ->
  listeners (changed d) m = [] ->
  _props m !! d = Some p -> (forall y, valueValidator p y = None) ->
  current_values (propNames u) (assign k v m) = Some vs -> delegate u vs = Return x ->
  exists m', _set (S (S fuel)) pv (SetOne k v) m = Returned tt m' /\
     value_of d m' = Some x /\
     exists pre post, trace m' = trace m ++ pre ++ Assigned d x :: post.
Proof.
  intros Hkd Hq Hpv Hvv Hdc Hlk Hld Hp Hvp Hvs Hx.
  rewrite _set_S, set_one_unfold, Hq, Hpv, Hvv, Hdc.
  unfold _firePropChangeEvent. rewrite fire_as_steps.
  set (m1 := assign k v m).
  set (m2 := announce m1 (k, (v, value q))).
  assert (Hp2 : _props m2 !! d = Some p).
  { unfold m2, m1. simpl. rewrite lookup_alter_ne by exact Hkd. exact Hp. }
  destruct (set_unheard fuel d x p m2 Hp2 (Hvp x) Hld) as (m3 & Hset & Hv3 & post & Ht3).
  assert (Hstep : forEach [(k, (v, value q))] (step_of (_set (S fuel))) m1
                  = Returned tt m3).
  { cbn [forEach].
    assert (E : step_of (_set (S fuel)) (k, (v, value q)) m1
                = forEach [RecomputeDerived d u]
                    (fun h => run_handler (_set (S fuel)) h k v (value q)) m2)
      by (rewrite <- Hlk; reflexivity).
    rewrite (bind_eq_Returned _ _ _ tt m3); [reflexivity|].
    rewrite E. cbn [forEach]. unfold run_handler.
    destruct u as [names f]. simpl in Hvs, Hx.
    rewrite (bind_eq_Returned _ _ _ tt m3); [reflexivity|].
    rewrite (bind_eq_Returned _ _ _ x m2); [exact Hset|].
    rewrite (call_utilizer_current names f m2 vs), Hx; [reflexivity|].
    rewrite <- Hvs. apply current_values_ext. intros n _. reflexivity. }
  rewrite (bind_eq_Returned _ _ _ _ _ Hstep).
  change (_firedProps m1) with (_firedProps m).
  exists (settle m m3). split.
  - unfold settle. case_bool_decide; reflexivity.
  - split; [rewrite value_of_settle; exact Hv3|].
    exists [Assigned k v; PropChanged k v (value q)].
    unfold settle. case_bool_decide; simpl; rewrite Ht3; simpl;
      rewrite <- ?app_assoc; simpl; eauto.
Qed.

(** C9.  A derived property cannot be written through the standard public
    facade nor through the standard owner facade: a single write throws an
    access-denied error and so does a bulk write that names it (all keys
    passing the existence check), the store unchanged.  The store's own
    [set], which recomputation uses, is not refused: the value is
    assigned, and the call returns when nobody listens to the property.
    So a write to a dependency through either facade, when it returns, has
    had the recomputation assign the derived property: it is left with the
    compute function's value for the new values of its dependencies,
    whatever it held before.  And such a write does return, the
    recomputation's write of the derived property being let through
    where the facade would refuse it: when the dependency is a primary
    property that the facade lets the caller write and that the
    recomputation alone listens to, its validator accepts the value and
    its change predicate reports the change, the compute function returns
    and nobody listens to the derived property, the facade's [set] of the
    dependency returns with the derived property assigned the computed
    value. *)
Theorem derived_write_denied fuel d p m :
  _props m !! d = Some p -> derived p = true ->
  (forall v, exists e,
     api_set getStandardPublicApi (S fuel) (SetOne d v) m = Thrown e m /\
     kind_of e = AccessDeniedError) /\
  (forall v,
     api_set getStandardPrivateApi (S fuel) (SetOne d v) m
       = Thrown (DerivedWriteDenied d) m) /\
  (forall api propValues,
     api = getStandardPublicApi \/ api = getStandardPrivateApi ->
     d ∈ propValues.*1 -> ~ missing_key propValues m ->
     exists e, api_set api (S fuel) (SetMany propValues) m = Thrown e m /\
               kind_of e = AccessDeniedError) /\
  (forall x m', (forall y, valueValidator p y = None) ->
     state_of (set (S fuel) (SetOne d x) m) = Some m' ->
     exists rest, trace m' = trace m ++ Assigned d x :: rest) /\
  (forall x, (forall y, valueValidator p y = None) ->
     listeners (changed d) m = [] ->
     exists m', set (S fuel) (SetOne d x) m = Returned tt m' /\
                value_of d m' = Some x) /\
  (forall u api args m',
     api = getStandardPublicApi \/ api = getStandardPrivateApi ->
     d ∉ propNames u -> subscribed d u m -> strict_dependencies u m ->
     sole_writer d u m ->
     d ∉ args_names args -> NoDup (args_names args) ->
     changes_dependency u args m ->
     api_set api fuel args m = Returned tt m' ->
     consistent d u m') /\
  (forall u api k q v vs x,
     api = getStandardPublicApi \/ api = getStandardPrivateApi ->
     (api = getStandardPublicApi -> propNameIsPublic k = true) ->
     _props m !! k = Some q -> derived q = false ->
     valueValidator q v = None -> didChange q v (value q) = true ->
     listeners (changed k) m = [RecomputeDerived d u] ->
     listeners (changed d) m = [] ->
     (forall y, valueValidator p y = None) ->
     current_values (propNames u) (assign k v m) = Some vs ->
     delegate u vs = Return x ->
     exists m', api_set api (S (S fuel)) (SetOne k v) m = Returned tt m' /\
       value_of d m' = Some x /\
       exists pre post, trace m' = trace m ++ pre ++ Assigned d x :: post).
Proof.
  intros Hp Hd.
  pose proof (standard_write_validator_derived m d p Hp Hd) as Hden.
  split; [|split; [|split; [|split; [|split; [|split]]]]].
  - intros v. rewrite public_api_set, _set_S, set_one_unfold, Hp.
    unfold assertPropNameIsPublic. destruct (propNameIsPublic d).
    + rewrite Hden. eexists. split; reflexivity.
    + eexists. split; reflexivity.
  - intros v. rewrite private_api_set, _set_S, set_one_unfold, Hp, Hden. reflexivity.
  - intros api propValues Hapi Hin Hknown.
    destruct Hapi as [-> | ->].
    + rewrite public_api_set, _set_S.
      match goal with |- context [_set_body ?r ?pv _ _] =>
        destruct (set_many_rejected r pv propValues m) as (e & He & _ & Hauth & _);
        [|assert (Hdenied : denied_key pv propValues m)]
      end.
      1,2: try (right; left); exists d;
        unfold assertPropNameIsPublic; destruct (propNameIsPublic d); eauto.
      exists e. split; [exact He|].
      destruct (Hauth Hknown Hdenied) as (k & Hk & Hpv).
      unfold assertPropNameIsPublic in Hpv.
      destruct (propNameIsPublic k); [|inversion Hpv; reflexivity].
      eapply standard_write_validator_kind; [|exact Hpv].
      eapply not_missing_key; eassumption.
    + rewrite private_api_set, _set_S.
      assert (Hdenied : denied_key createStandardWriteValidator propValues m)
        by (exists d; eauto).
      destruct (set_many_rejected (_set fuel) createStandardWriteValidator propValues m)
        as (e & He & _ & Hauth & _); [right; left; exact Hdenied|].
      exists e. split; [exact He|].
      destruct (Hauth Hknown Hdenied) as (k & Hk & Hpv).
      eapply standard_write_validator_kind; [|exact Hpv].
      eapply not_missing_key; eassumption.
  - intros x m' Hvalid Hstate. unfold set in Hstate.
    rewrite _set_S, set_one_unfold, Hp in Hstate.
    unfold noValidator in Hstate. rewrite Hvalid in Hstate.
    destruct (didChange p x (value p)).
    + pose proof (fire_extends_trace (assign d x m) fuel [(d, (x, value p))]
                    (assign d x m) (extends_trace_refl _)) as H.
      unfold _firePropChangeEvent in Hstate.
      destruct (_firePropChangeEvents _ _ _) as [u m1|e m1|]; simpl in Hstate;
        inversion Hstate; subst; destruct H as [rest H]; exists rest;
        rewrite H; simpl; rewrite <- app_assoc; reflexivity.
    + inversion Hstate; subst. exists []. reflexivity.
  - intros x Hvalid Hnone. unfold set.
    rewrite _set_S, set_one_unfold, Hp. unfold noValidator. rewrite Hvalid.
    destruct (didChange p x (value p)).
    + unfold _firePropChangeEvent. rewrite fire_no_listeners.
      * eexists. split; [reflexivity|].
        unfold settle. case_bool_decide; simpl; unfold value_of; simpl;
          rewrite lookup_alter_eq, Hp; reflexivity.
      * intros ev Hev. apply list_elem_of_singleton in Hev as ->. exact Hnone.
    + eexists. split; [reflexivity|]. eapply value_of_assign, Hp.
  - intros u api args m' Hapi Hnot Hsub Hstrict Hsole Hargs Hnd Hch Hset.
    assert (Hpv : exists pv, api_set api fuel args = _set fuel pv args).
    { destruct Hapi as [-> | ->]; eexists; reflexivity. }
    destruct Hpv as [pv Hpv]. rewrite Hpv in Hset.
    pose proof (proj1 (set_steady d u m Hnot Hsub Hstrict Hsole fuel) pv args Hargs Hnd m)
      as Hs.
    rewrite Hset in Hs. apply Hs. split; [apply static_same_refl | right; exact Hch].
  - intros u api k q v vs x Hapi Hpublic Hq Hprimary Hvv Hdc Hlk Hld Hvp Hvs Hx.
    assert (Hkd : k <> d) by (intros ->; congruence).
    assert (Hstd : createStandardWriteValidator m k = None)
      by (unfold createStandardWriteValidator; rewrite Hq, Hprimary; reflexivity).
    destruct Hapi as [-> | ->].
    + rewrite public_api_set.
      apply (recomputation_write_succeeds fuel _ k v q d p u vs x m); auto.
      unfold assertPropNameIsPublic. rewrite (Hpublic eq_refl). exact Hstd.
    + rewrite private_api_set.
      apply (recomputation_write_succeeds fuel _ k v q d p u vs x m); auto.
Qed.

Lemma derived_write_denied_witness :
  (exists e,
     api_set getStandardPublicApi 1 (SetOne "area" (VNum 0)) rectangle = Thrown e rectangle /\
     kind_of e = AccessDeniedError) /\
  api_set getStandardPrivateApi 1 (SetOne "area" (VNum 0)) rectangle
    = Thrown (DerivedWriteDenied "area") rectangle /\
  (exists m', set 1 (SetOne "area" (VNum 0)) rectangle = Returned tt m' /\
              value_of "area" m' = Some (VNum 0)) /\
  (let m' := after (api_set getStandardPublicApi 3 (SetOne "length" (VNum 15))) rectangle in
   api_set getStandardPublicApi 3 (SetOne "length" (VNum 15)) rectangle = Returned tt m' /\
   value_of "area" m' = Some (VNum 300) /\
   consistent "area" (Utilizer ["length"; "width"] product) m') /\
  (exists m',
     api_set getStandardPrivateApi 2 (SetOne "length" (VNum 15)) rectangle
     = Returned tt m' /\
     value_of "area" m' = Some (VNum 300) /\
     exists pre post,
       trace m' = trace rectangle ++ pre ++ Assigned "area" (VNum 300) :: post).
Proof.
  assert (Hp : _props rectangle !! "area" = Some area_prop) by (vm_compute; reflexivity).
  destruct (derived_write_denied 0 "area" area_prop rectangle Hp eq_refl)
    as (Hpublic & Hprivate & _ & _ & Hown & _ & Hrun).
  split; [apply Hpublic|]. split; [apply Hprivate|].
  split; [apply Hown; [reflexivity | vm_compute; reflexivity]|].
  split.
  2:{ apply (Hrun (Utilizer ["length"; "width"] product) getStandardPrivateApi "length"
               {| value := VNum 10; derived := false;
                  valueValidator := isValidDimension; didChange := defaultDidChange |}
               (VNum 15) [VNum 15; VNum 20] (VNum 300)).
      - right. reflexivity.
      - intros _. reflexivity.
      - vm_compute. reflexivity.
      - reflexivity.
      - vm_compute. reflexivity.
      - vm_compute. reflexivity.
      - vm_compute. reflexivity.
      - vm_compute. reflexivity.
      - reflexivity.
      - vm_compute. reflexivity.
      - vm_compute. reflexivity. }
  cbv zeta. split; [vm_compute; reflexivity|]. split; [vm_compute; reflexivity|].
  destruct (derived_write_denied 3 "area" area_prop rectangle Hp eq_refl)
    as (_ & _ & _ & _ & _ & Hrec & _).
  assert (Hl : listeners (changed "length") rectangle
               = [RecomputeDerived "area" (Utilizer ["length"; "width"] product)])
    by (vm_compute; reflexivity).
  assert (Hw : listeners (changed "width") rectangle
               = [RecomputeDerived "area" (Utilizer ["length"; "width"] product)])
    by (vm_compute; reflexivity).
  apply (Hrec (Utilizer ["length"; "width"] product) getStandardPublicApi
           (SetOne "length" (VNum 15))).
  - left. reflexivity.
  - simpl. refine (bool_decide_unpack _ _). vm_compute. exact Logic.I.
  - unfold subscribed. simpl propNames.
    constructor; [rewrite Hl; left|]. constructor; [rewrite Hw; left|]. constructor.
  - unfold strict_dependencies. simpl propNames.
    constructor; [|constructor; [|constructor]].
    + exists {| value := VNum 10; derived := false;
                valueValidator := isValidDimension; didChange := defaultDidChange |}.
      split; [vm_compute; reflexivity | exact strict_default].
    + exists {| value := VNum 20; derived := false;
                valueValidator := isValidDimension; didChange := defaultDidChange |}.
      split; [vm_compute; reflexivity | exact strict_default].
  - unfold sole_writer. apply map_Forall_to_list.
    assert (He : map_to_list (_events rectangle)
                 = [("width-changed",
                     [RecomputeDerived "area" (Utilizer ["length"; "width"] product)]);
                    ("length-changed",
                     [RecomputeDerived "area" (Utilizer ["length"; "width"] product)])])
      by (vm_compute; reflexivity).
    rewrite He.
    constructor; [constructor; [reflexivity | constructor]|].
    constructor; [constructor; [reflexivity | constructor]|]. constructor.
  - simpl. refine (bool_decide_unpack _ _). vm_compute. exact Logic.I.
  - simpl. repeat constructor. intros H. inversion H.
  - exists "length", (VNum 15),
      {| value := VNum 10; derived := false;
         valueValidator := isValidDimension; didChange := defaultDidChange |}.
    split; [left|]. split; [left|]. split; [vm_compute; reflexivity | discriminate].
  - vm_compute. reflexivity.
Defined.

(** * Further properties of the store

    What the code does when a call is rejected or interrupted, what the
    defining operations check and leave behind, and how the queries of the
    facades relate to [get]. *)

(** ** Rejected and interrupted writes *)

Lemma listeners_maintain (I : PropsModel -> Prop) fuel hs p n o :
  (forall v b m, I m -> I (set_triggered v b m)) ->
  (forall pv args, maintains I (_set fuel pv args)) ->
  maintains I (forEach hs (fun h => run_handler (_set fuel) h p n o)).
Proof.
  intros Hflag Hset. apply hoare_forEach. intros h _.
  apply (maintains_handler_target I (fun _ => True)); auto.
Qed.

Lemma fire_one_Thrown set_rec p n o m e m' :
  _firePropChangeEvents set_rec [(p, (n, o))] m = Thrown e m' ->
  forEach (listeners (changed p) m) (fun h => run_handler set_rec h p n o)
    (announce m (p, (n, o))) = Thrown e m'.
Proof.
  unfold _firePropChangeEvents. change (bind this ?k m) with (k m m). cbv beta.
  simpl forEach. unfold bind at 1. unfold bind at 1. unfold bind at 1.
  unfold update at 1. unfold emit_changed. unfold bind at 1. unfold update at 1.
  change (bind this ?k ?s) with (k s s). cbv beta.
  change (listeners (changed p)
            (record (PropChanged p n o) (set_firedProps (Set_add p) m)))
    with (listeners (changed p) m).
  change (record (PropChanged p n o) (set_firedProps (Set_add p) m))
    with (announce m (p, (n, o))).
  destruct (forEach _ _ (announce m (p, (n, o)))) as [[] m3|e3 m3|]; simpl.
  - case_bool_decide; discriminate.
  - intros H. exact H.
  - discriminate.
Qed.

(** X1.  A single [set] throws, and leaves the store exactly as it was,
    in this order of precedence: for a name under which [_props] has
    nothing, own or inherited, the error for an unknown property; for a
    name the write validator denies, what the validator threw; for a name
    that is not a property of the store but the name of a member of
    [Object.prototype], a [TypeError], the member having no
    [valueValidator] to call; for a value the property's validator
    rejects, what that validator threw.  A single [set] that passes these
    checks and throws all the same, because a listener of its cascade
    threw, has assigned the value and announced the change: nothing is
    rolled back. *)
Theorem single_set_rejected_or_assigned fuel pv propName v m :
  (known propName m = false ->
   _set (S fuel) pv (SetOne propName v) m = Thrown (NoSuchProperty propName) m) /\
  (forall e, known propName m = true -> pv m propName = Some e ->
   _set (S fuel) pv (SetOne propName v) m = Thrown e m) /\
  (_props m !! propName = None -> inherited propName = true -> pv m propName = None ->
   _set (S fuel) pv (SetOne propName v) m = Thrown TypeError m) /\
  (forall p payload, _props m !! propName = Some p -> pv m propName = None ->
   valueValidator p v = Some payload ->
   _set (S fuel) pv (SetOne propName v) m = Thrown (Raised payload) m) /\
  (forall p e m', _props m !! propName = Some p -> pv m propName = None ->
   valueValidator p v = None ->
   _set (S fuel) pv (SetOne propName v) m = Thrown e m' ->
   exists tail,
     trace m' = trace m ++ Assigned propName v :: PropChanged propName v (value p) :: tail).
Proof.
  rewrite _set_S, set_one_unfold. repeat split.
  - intros Hno. rewrite (unknown_not_known _ _ Hno).
    unfold known in Hno. rewrite (unknown_not_known _ _ Hno) in Hno.
    rewrite Hno. reflexivity.
  - intros e Hk ->. apply known_cases in Hk as [[p ->]|[-> ->]]; reflexivity.
  - intros -> -> ->. reflexivity.
  - intros p payload -> -> ->. reflexivity.
  - intros p e m' -> -> -> H.
    destruct (didChange p v (value p)); [|discriminate].
    apply fire_one_Thrown in H.
    pose proof (listeners_maintain
      (extends_trace (announce (assign propName v m) (propName, (v, value p))))
      fuel (listeners (changed propName) (assign propName v m)) propName v (value p)
      ltac:(auto) ltac:(intros; apply set_extends_trace) _ (extends_trace_refl _)) as Hext.
    rewrite H in Hext. destruct Hext as [tail Ht]. exists tail.
    rewrite Ht. simpl. rewrite <- !app_assoc. reflexivity.
Qed.

Lemma single_set_rejected_or_assigned_witness :
  _set 2 noValidator (SetOne "missing" (VNum 0)) shares
    = Thrown (NoSuchProperty "missing") shares /\
  _set 2 createStandardWriteValidator (SetOne "share" (VNum 0)) shares
    = Thrown (DerivedWriteDenied "share") shares /\
  _set 2 noValidator (SetOne "valueOf" (VNum 1)) shares = Thrown TypeError shares /\
  _set 2 noValidator (SetOne "width" (VNum (-1))) rectangle
    = Thrown (Raised (VStr "Invalid dimension, must be non-negative")) rectangle /\
  exists tail,
    trace (after (_set 2 noValidator (SetOne "parts" (VNum 0))) shares)
    = trace shares ++ Assigned "parts" (VNum 0)
        :: PropChanged "parts" (VNum 0) (VNum 4) :: tail.
Proof.
  split; [|split; [|split; [|split]]].
  - apply (proj1 (single_set_rejected_or_assigned 1 noValidator "missing" (VNum 0) shares)).
    vm_compute. reflexivity.
  - refine (proj1 (proj2 (single_set_rejected_or_assigned 1 createStandardWriteValidator
              "share" (VNum 0) shares)) _ _ _); vm_compute; reflexivity.
  - refine (proj1 (proj2 (proj2 (single_set_rejected_or_assigned 1 noValidator
              "valueOf" (VNum 1) shares))) _ _ _); vm_compute; reflexivity.
  - refine (proj1 (proj2 (proj2 (proj2 (single_set_rejected_or_assigned 1 noValidator
              "width" (VNum (-1)) rectangle))))
              {| value := VNum 20; derived := false; valueValidator := isValidDimension;
                 didChange := defaultDidChange |} _ _ _ _).
    all: vm_compute; reflexivity.
  - refine (proj2 (proj2 (proj2 (proj2 (single_set_rejected_or_assigned 1 noValidator
              "parts" (VNum 0) shares))))
              {| value := VNum 4; derived := false; valueValidator := NOOP;
                 didChange := defaultDidChange |}
              (Raised (VStr "no parts"))
              (after (_set 2 noValidator (SetOne "parts" (VNum 0))) shares) _ _ _ _).
    all: vm_compute; reflexivity.
Defined.

(** Once a name is in the batch, nothing a cascade does empties it before
    the call that started the chain reaches its end. *)
Lemma batch_kept fuel pv args :
  maintains (fun m => _firedProps m <> []) (_set fuel pv args).
Proof.
  intros m Hm.
  pose proof (nested_set_in_chain m fuel pv args m (conj (in_chain_refl m) Hm)) as H.
  destruct (_set fuel pv args m); [apply H | apply H | exact Logic.I].
Qed.

Lemma loop_Thrown_batch fuel events m e m' :
  forEach events (fun '(propName, (newValue, oldValue)) =>
    update (set_firedProps (Set_add propName)) >>
    emit_changed (_set fuel) propName newValue oldValue) m = Thrown e m' ->
  _firedProps m' <> [].
Proof.
  revert m. induction events as [|[p [n o]] events IH]; intros m H; [discriminate|].
  simpl in H. unfold bind at 1 in H.
  pose proof (listeners_maintain (fun m => _firedProps m <> []) fuel
    (listeners (changed p) m) p n o ltac:(auto) ltac:(intros; apply batch_kept)
    (announce m (p, (n, o))) (Set_add_nonempty p (_firedProps m))) as Hkept.
  change ((update (set_firedProps (Set_add p)) >> emit_changed (_set fuel) p n o) m)
    with (forEach (listeners (changed p) m)
            (fun h => run_handler (_set fuel) h p n o) (announce m (p, (n, o)))) in H.
  destruct (forEach (listeners (changed p) m) _ (announce m (p, (n, o))))
    as [[] m2|e2 m2|]; [|inversion H; subst; exact Hkept | discriminate].
  apply (IH m2 H).
Qed.

Lemma fire_Thrown_batch fuel events m e m' :
  _firePropChangeEvents (_set fuel) events m = Thrown e m' -> _firedProps m' <> [].
Proof.
  unfold _firePropChangeEvents. change (bind this ?k m) with (k m m). cbv beta.
  unfold bind at 1. intros H.
  destruct (forEach events _ m) as [[] m2|e2 m2|] eqn:Hloop.
  - case_bool_decide; discriminate.
  - inversion H; subst. eapply loop_Thrown_batch, Hloop.
  - discriminate.
Qed.

Lemma filterM_known (l : list (string * (val * val))) m :
  (forall k, k ∈ l.*1 -> is_Some (_props m !! k)) ->
  exists r, filterM l (fun '(propName, (newValue, oldValue)) =>
                         let* p := the_prop propName in
                         ret (didChange p newValue oldValue)) m = Returned r m.
Proof.
  induction l as [|[k [a b]] l IH]; intros Hknown; [eexists; reflexivity|].
  destruct (Hknown k) as [p Hp]; [left|].
  destruct IH as [r Hr]; [intros k' Hk'; apply Hknown; right; exact Hk'|].
  simpl. unfold bind at 1. unfold bind at 1. unfold the_prop at 1. rewrite Hp. simpl.
  unfold bind at 1. rewrite Hr. eexists. reflexivity.
Qed.

(** A [set] that throws after it has touched the store was interrupted in
    its cascade. *)
Lemma set_Thrown_batch fuel pv args m e m' :
  _set fuel pv args m = Thrown e m' -> trace m' <> trace m -> _firedProps m' <> [].
Proof.
  intros H Hne. destruct fuel as [|fuel]; [discriminate|].
  rewrite _set_S in H. destruct args as [p v|propValues].
  - rewrite set_one_unfold in H.
    destruct (_props m !! p) as [q|];
      [|destruct (inherited p); [destruct (pv m p)|]; inversion H; subst; contradiction].
    destruct (pv m p); [inversion H; subst; contradiction|].
    destruct (valueValidator q v); [inversion H; subst; contradiction|].
    destruct (didChange q v (value q)); [|discriminate].
    eapply fire_Thrown_batch, H.
  - unfold _set_body in H.
    destruct (forEach_pure_result propValues.*1 check_exists m pure_check_exists)
      as [[Hex Hall]|(k & e0 & _ & _ & Hex)].
    2:{ rewrite (bind_eq_Thrown _ _ _ _ _ Hex) in H. inversion H; subst. contradiction. }
    rewrite (bind_eq_Returned _ _ _ _ _ Hex) in H.
    destruct (forEach_pure_result propValues.*1 (validate pv) m (pure_validate pv))
      as [[Hauth _]|(k & e0 & _ & _ & Hauth)].
    2:{ rewrite (bind_eq_Thrown _ _ _ _ _ Hauth) in H. inversion H; subst. contradiction. }
    rewrite (bind_eq_Returned _ _ _ _ _ Hauth) in H.
    destruct (forEach_pure_result propValues check_value m pure_check_value)
      as [[Hval Hall3]|(k & e0 & _ & _ & Hval)].
    2:{ rewrite (bind_eq_Thrown _ _ _ _ _ Hval) in H. inversion H; subst. contradiction. }
    rewrite (bind_eq_Returned _ _ _ _ _ Hval) in H.
    assert (Hk : forall k, k ∈ propValues.*1 -> is_Some (_props m !! k)).
    { intros k Hin. apply list_elem_of_fmap in Hin as ([k' v] & -> & Hin).
      eapply check_value_Returned_defined, Hall3, Hin. }
    rewrite (bind_eq_Returned _ _ _ _ _ (assign_all_eq _ [] _ Hk)) in H.
    cbv beta in H.
    match type of H with context [filterM ?l _] =>
      destruct (filterM_known l (assigned propValues m)) as [r Hr]
    end.
    { intros k Hin. rewrite imap_entry_names in Hin.
      destruct (Hk k Hin) as [p Hp].
      destruct (props_assigned_lookup propValues m k p Hp) as (q & Hq & _). eauto. }
    rewrite (bind_eq_Returned _ _ _ _ _ Hr) in H.
    eapply fire_Thrown_batch, H.
Qed.

(** X2.  A [set] that throws after it has changed the store -- a listener
    of its cascade threw -- leaves names in the batch of fired properties:
    the code clears the batch only at the end of the call that started the
    chain.  From then on every call of [set] on the store finds a chain in
    progress: whether it returns or throws, it emits no settle
    notification and leaves the batch non-empty. *)
Theorem interrupted_chain_never_settles fuel pv args m e m1 :
  _set fuel pv args m = Thrown e m1 ->
  trace m1 <> trace m ->
  (_firedProps m1 <> []) /\
  forall fuel' pv' args' m2,
    state_of (_set fuel' pv' args' m1) = Some m2 ->
    Forall (fun ev => is_settle ev = false) (trace_since m1 m2) /\
    _firedProps m2 <> [].
Proof.
  intros H Hne.
  assert (Hb : _firedProps m1 <> []) by (eapply set_Thrown_batch; eauto).
  split; [exact Hb|]. intros fuel' pv' args' m2 Hm2.
  pose proof (nested_set_in_chain m1 fuel' pv' args' m1 (conj (in_chain_refl m1) Hb)) as Hin.
  assert (Hboth : in_chain m1 m2 /\ _firedProps m2 <> []).
  { destruct (_set fuel' pv' args' m1); simpl in Hm2; inversion Hm2; subst; exact Hin. }
  destruct Hboth as [(events & Ht & Hs & _) Hb2]. split; [|exact Hb2].
  unfold trace_since. rewrite Ht, drop_app_length. exact Hs.
Qed.

Lemma interrupted_chain_never_settles_witness :
  _firedProps (after (_set 2 noValidator (SetOne "parts" (VNum 0))) shares) <> [] /\
  forall fuel' pv' args' m2,
    state_of (_set fuel' pv' args'
                (after (_set 2 noValidator (SetOne "parts" (VNum 0))) shares)) = Some m2 ->
    Forall (fun ev => is_settle ev = false)
      (trace_since (after (_set 2 noValidator (SetOne "parts" (VNum 0))) shares) m2) /\
    _firedProps m2 <> [].
Proof.
  apply (interrupted_chain_never_settles 2 noValidator (SetOne "parts" (VNum 0)) shares
           (Raised (VStr "no parts"))).
  - vm_compute. reflexivity.
  - vm_compute. intros H. discriminate H.
Defined.

Lemma in_window_start v m :
  is_triggered v m = true -> in_window v m m.
Proof.
  intros Hup. split; [apply static_same_refl|]. split; [exact Hup|].
  split; [reflexivity|]. exists []. rewrite app_nil_r. split; [reflexivity | constructor].
Qed.

(** X3.  The write-back of a view raises the view's flag, sets the base and
    lowers the flag, with nothing to lower it if the [set] of the base
    throws (the base's validator rejects the reduced value, or a listener
    of the base throws).  For a view that no listener writes but its own
    recomputation -- so a view that is not the base of another view --
    and a write-back that has read the base and reduced a value for it
    before it throws, the flag then stays up: the view keeps the value it
    had, and in every later call of [set] that does not name the view,
    whether it returns or throws, the view is neither recomputed nor
    announced, whatever happens to its base. *)
Theorem interrupted_write_back_freezes_view fuel v b r p n o base x m e m1 :
  view_guarded v m -> b <> v ->
  read b m = Some base ->
  r (fun k => read k m) n base = Return x ->
  run_handler (_set fuel) (ReduceBase v b r) p n o m = Thrown e m1 ->
  is_triggered v m1 = true /\
  value_of v m1 = value_of v m /\
  forall fuel' pv' args' m2,
    v ∉ args_names args' ->
    state_of (_set fuel' pv' args' m1) = Some m2 ->
    is_triggered v m2 = true /\
    value_of v m2 = value_of v m1 /\
    Forall (fun ev => concerns v ev = false) (trace_since m1 m2).
Proof.
  intros Hg Hb Hbase Hr H. unfold run_handler in H.
  rewrite (bind_eq_Returned _ _ m base m) in H.
  2:{ unfold _get, validate, noValidator, bind, this. simpl.
      rewrite Hbase. reflexivity. }
  change (bind this ?k m) with (k m m) in H. cbv beta in H.
  rewrite Hr in H. cbn [complete] in H.
  unfold bind at 1 in H. unfold ret at 1 in H.
  unfold bind at 1 in H. unfold update at 1 in H.
  unfold bind at 1 in H.
  set (m0 := set_triggered v true m) in *.
  assert (Hup : is_triggered v m0 = true).
  { unfold is_triggered, m0. simpl. rewrite lookup_insert_eq. reflexivity. }
  assert (Hg0 : view_guarded v m0) by (apply (view_guarded_same_events v m m0 eq_refl Hg)).
  pose proof (window_set v m0 fuel noValidator (SetOne b x) Hg0
                ltac:(constructor; [exact Hb | constructor]) m0 (in_window_start v m0 Hup))
    as Hwin.
  destruct (_set fuel noValidator (SetOne b x) m0) as [[] m2|e2 m2|]; [discriminate| |discriminate].
  inversion H; subst e2 m2. clear H.
  destruct Hwin as (Hs & Hup1 & Hv1 & _).
  split; [exact Hup1|]. split; [exact Hv1|].
  intros fuel' pv' args' m2 Hargs Hm2.
  assert (Hg1 : view_guarded v m1).
  { apply (view_guarded_same_events v m0 m1); [exact (proj1 Hs) | exact Hg0]. }
  pose proof (window_set v m1 fuel' pv' args' Hg1
                ltac:(apply Forall_forall; intros q Hq ->; contradiction)
                m1 (in_window_start v m1 Hup1)) as Hwin2.
  assert (Hin : in_window v m1 m2).
  { destruct (_set fuel' pv' args' m1); simpl in Hm2; inversion Hm2; subst; exact Hwin2. }
  destruct Hin as (_ & Hup2 & Hv2 & events & Ht & Hev).
  split; [exact Hup2|]. split; [exact Hv2|].
  unfold trace_since. rewrite Ht, drop_app_length. exact Hev.
Qed.

Lemma interrupted_write_back_freezes_view_witness :
  let stuck := after (run_handler (_set 2)
                        (ReduceBase "opposite" "width" (fun _ v _ => negated v))
                        "opposite" (VNum 4) (VNum (-3))) mirrored in
  is_triggered "opposite" stuck = true /\
  value_of "opposite" stuck = value_of "opposite" mirrored /\
  forall fuel' pv' args' m2,
    "opposite" ∉ args_names args' ->
    state_of (_set fuel' pv' args' stuck) = Some m2 ->
    is_triggered "opposite" m2 = true /\
    value_of "opposite" m2 = value_of "opposite" stuck /\
    Forall (fun ev => concerns "opposite" ev = false) (trace_since stuck m2).
Proof.
  intros stuck.
  refine (interrupted_write_back_freezes_view 2 "opposite" "width"
            (fun _ v _ => negated v) "opposite" (VNum 4) (VNum (-3)) (VNum 3) (VNum (-4))
            mirrored (Raised (VStr "Invalid dimension, must be non-negative")) stuck
            _ _ _ _ _).
  - unfold view_guarded. refine (bool_decide_unpack _ _). vm_compute. exact Logic.I.
  - discriminate.
  - vm_compute. reflexivity.
  - reflexivity.
  - vm_compute. reflexivity.
Defined.

(** ** What [set] never changes *)

(** X4.  A call of [set], whether it returns or throws and whatever its
    cascade does, neither defines nor removes a property, changes no
    property's kind, validator or change predicate, and leaves every
    subscription as it was: only values, the batch, the flags and the
    trace move. *)
Theorem set_never_restructures fuel pv args m m' :
  state_of (_set fuel pv args m) = Some m' ->
  _events m' = _events m /\
  dom (_props m') = dom (_props m) /\
  forall name p, _props m !! name = Some p ->
    exists q, _props m' !! name = Some q /\
              derived q = derived p /\
              valueValidator q = valueValidator p /\
              didChange q = didChange p.
Proof.
  intros Hm'.
  assert (Hs : static_same m m').
  { pose proof (set_static_same fuel pv args m m (static_same_refl m)) as H.
    destruct (_set fuel pv args m); simpl in Hm'; inversion Hm'; subst; exact H. }
  split; [exact (proj1 Hs)|]. split.
  - destruct Hs as [_ Hs]. apply (f_equal dom) in Hs.
    rewrite !dom_fmap_L in Hs. exact Hs.
  - intros name p Hp. destruct (static_same_lookup m m' name p Hs Hp) as (q & Hq & Hshape).
    exists q. split; [exact Hq|]. unfold shape in Hshape. inversion Hshape. auto.
Qed.

Lemma set_never_restructures_witness :
  let m' := after (_set 2 noValidator (SetOne "parts" (VNum 0))) shares in
  _events m' = _events shares /\
  dom (_props m') = dom (_props shares) /\
  forall name p, _props shares !! name = Some p ->
    exists q, _props m' !! name = Some q /\
              derived q = derived p /\
              valueValidator q = valueValidator p /\
              didChange q = didChange p.
Proof.
  intros m'.
  apply (set_never_restructures 2 noValidator (SetOne "parts" (VNum 0)) shares m').
  vm_compute. reflexivity.
Defined.

(** ** Bulk writes that change nothing *)

(** X5.  A bulk [set] whose checks pass and in which no entry's change
    predicate reports a change -- an empty mapping is one -- still assigns
    every value and, unlike a single [set] in the same situation, goes
    through the firing of change events: made outside any chain it emits
    one settle notification, whose list is empty; made inside a chain it
    emits nothing. *)
Theorem bulk_set_without_change fuel pv propValues m :
  NoDup propValues.*1 ->
  ~ unknown_key propValues m ->
  ~ denied_key pv propValues m ->
  (forall payload, ~ rejected_value propValues m payload) ->
  change_events propValues m = [] ->
  exists m',
    _set (S fuel) pv (SetMany propValues) m = Returned tt m' /\
    (forall k v, (k, v) ∈ propValues -> value_of k m' = Some v) /\
    _firedProps m' = _firedProps m /\
    trace m' = trace m ++ map (fun kv => Assigned kv.1 kv.2) propValues
                 ++ (if bool_decide (_firedProps m = [])
                     then [PropChainCompleted []] else []).
Proof.
  intros Hnd Hknown Hallowed Hvalid Hnone.
  rewrite _set_S, set_many_unfold by assumption.
  rewrite Hnone, fire_no_listeners by (intros ev Hev; inversion Hev).
  eexists. split; [reflexivity|]. simpl foldl.
  assert (Hval : forall k v, (k, v) ∈ propValues ->
            value_of k (assigned propValues m) = Some v).
  { intros k v Hin. apply value_of_assigned; [exact Hnd | exact Hin |].
    apply not_unknown_key with propValues; [exact Hknown|].
    apply list_elem_of_fmap. exists (k, v). auto. }
  unfold settle. rewrite firedProps_assigned.
  destruct (_firedProps m) as [|x s] eqn:Hb; simpl.
  - split; [exact Hval|]. split; [reflexivity|].
    rewrite trace_assigned, <- app_assoc. reflexivity.
  - split; [exact Hval|]. split; [rewrite firedProps_assigned; exact Hb|].
    rewrite trace_assigned, app_nil_r. reflexivity.
Qed.

Lemma bulk_set_without_change_witness :
  let same := [("length", VNum 10); ("width", VNum 20)] in
  exists m',
    _set 1 noValidator (SetMany same) rectangle = Returned tt m' /\
    (forall k v, (k, v) ∈ same -> value_of k m' = Some v) /\
    _firedProps m' = _firedProps rectangle /\
    trace m' = trace rectangle ++ map (fun kv => Assigned kv.1 kv.2) same
                 ++ (if bool_decide (_firedProps rectangle = [])
                     then [PropChainCompleted []] else []).
Proof.
  intros same.
  apply (bulk_set_without_change 0 noValidator same rectangle).
  - refine (bool_decide_unpack _ _). vm_compute. exact Logic.I.
  - intros (k & Hk & Hnone). simpl in Hk.
    repeat (apply elem_of_cons in Hk as [->|Hk]; [vm_compute in Hnone; discriminate|]).
    inversion Hk.
  - intros (k & e & _ & He). discriminate.
  - intros payload (k & v & p & Hk & Hp & Hv). unfold same in Hk.
    repeat (apply elem_of_cons in Hk as [Heq|Hk];
            [inversion Heq; subst; vm_compute in Hp; inversion Hp; subst;
             vm_compute in Hv; discriminate|]).
    inversion Hk.
  - vm_compute. reflexivity.
Defined.

(** ** The defining operations *)

Lemma check_undefined_defined n m :
  known n m = true -> check_undefined n m = Thrown (PropertyAlreadyDefined n) m.
Proof. intros Hp. unfold check_undefined, bind, this. rewrite Hp. reflexivity. Qed.

(** [defineProp] of a fresh name: the entry, then the first change event. *)
Lemma defineProp_eq fuel propName initialValue vv dc m :
  known propName m = false ->
  defineProp fuel propName initialValue vv dc m
  = first_event fuel propName initialValue dc
      (entered propName (primary initialValue vv dc) m).
Proof.
  intros Hfresh. unfold defineProp.
  rewrite (bind_eq_Returned _ _ _ _ _ (check_undefined_fresh _ _ Hfresh)).
  reflexivity.
Qed.

(** [defineDerivedProp] of a fresh name over known dependencies. *)
Lemma defineDerivedProp_eq fuel propName dependsOn calc init dc m vs :
  known propName m = false ->
  current_values dependsOn m = Some vs ->
  defineDerivedProp fuel propName dependsOn calc init dc m =
    match (if typeof_undefined init then calc vs else Return init) with
    | Raise payload => Thrown (Raised payload) m
    | Return v =>
        first_event fuel propName v dc (derived_entered propName dependsOn calc v dc m)
    end.
Proof.
  intros Hfresh Hvs. unfold defineDerivedProp.
  rewrite (bind_eq_Returned _ _ _ _ _ (check_undefined_fresh _ _ Hfresh)).
  rewrite (bind_eq_Returned _ _ _ _ _
    (createUtilizer_Returned _ calc _ (current_values_defined _ _ _ Hvs))).
  assert (Hv : (if typeof_undefined init
                then call_utilizer (Utilizer dependsOn calc)
                else ret init) m
               = complete (if typeof_undefined init then calc vs else Return init) m).
  { destruct (typeof_undefined init); [|reflexivity].
    apply call_utilizer_current, Hvs. }
  unfold bind at 1. rewrite Hv.
  destruct (if typeof_undefined init then calc vs else Return init) as [v|payload];
    [|reflexivity].
  simpl complete. unfold ret at 1. unfold bind at 1. unfold update at 1.
  unfold bind at 1. rewrite onAny_subscribes. reflexivity.
Qed.

(** [definePropView] of a fresh name over a known base. *)
Lemma definePropView_eq fuel v b calc r dc m base :
  known v m = false ->
  read b m = Some base ->
  definePropView fuel v b calc r dc m =
    match calc base with
    | Raise payload => Thrown (Raised payload) m
    | Return x => first_event fuel v x dc (view_entered v b calc r x dc m)
    end.
Proof.
  intros Hfresh Hbase. unfold definePropView.
  rewrite (bind_eq_Returned _ _ _ _ _ (check_undefined_fresh _ _ Hfresh)).
  assert (Hvs : current_values [b] m = Some [base]) by (simpl; rewrite Hbase; reflexivity).
  rewrite (bind_eq_Returned _ _ _ _ _
    (createUtilizer_Returned _ (unary calc) _ (current_values_defined _ _ _ Hvs))).
  unfold bind at 1. rewrite (call_utilizer_current _ _ _ _ Hvs). unfold unary at 1. simpl nth.
  destruct (calc base) as [x|payload]; [|reflexivity].
  simpl complete. unfold ret at 1. unfold bind at 1. unfold update at 1.
  unfold bind at 1. unfold update at 1.
  unfold bind at 1. rewrite onAny_subscribes.
  unfold bind at 1. rewrite onAny_subscribes. reflexivity.
Qed.

Lemma createUtilizer_unknown names f m k :
  k ∈ names -> known k m = false ->
  exists k', k' ∈ names /\ known k' m = false /\
             createUtilizer names f m = Thrown (UnknownUtilizedProperty k') m.
Proof.
  intros Hk Hnone. unfold createUtilizer, _createUtilizer.
  rewrite (bind_eq_Returned _ _ _ _ _ (forEach_noValidator names m)).
  match goal with |- context [bind (forEach names ?g) _ m] =>
    destruct (forEach_pure_result names g m) as [[_ Hall]|(k' & e & Hk' & Hthrow & Hex)]
  end.
  - intros x. apply pure_bind; [apply pure_this|]. intros m2.
    destruct (known x m2); [apply pure_ret | apply pure_throw].
  - specialize (Hall k Hk). unfold bind, this in Hall. rewrite Hnone in Hall. discriminate.
  - exists k'. unfold bind at 1, this at 1 in Hthrow.
    destruct (known k' m) eqn:Hk'none; [discriminate|]. inversion Hthrow; subst e.
    split; [exact Hk'|]. split; [reflexivity|].
    apply bind_eq_Thrown, Hex.
Qed.

(** X6.  A defining operation that fails one of its preliminary checks
    throws and leaves the store exactly as it was, with no property
    entered and no listener subscribed.  The checks look at
    [this._props[name]], which is there for a property of the store and
    for the name of a member of [Object.prototype]: the name is taken (for
    any of the three operations); a dependency of a derived property or
    the base of a view is not there, which is the case of a property that
    depends on itself or is a view of itself; the view's compute function
    throws on the base's value. *)
Theorem failed_definition_changes_nothing fuel propName m :
  (known propName m = true ->
   (forall initialValue vv dc,
      defineProp fuel propName initialValue vv dc m
      = Thrown (PropertyAlreadyDefined propName) m) /\
   (forall dependsOn calc init dc,
      defineDerivedProp fuel propName dependsOn calc init dc m
      = Thrown (PropertyAlreadyDefined propName) m) /\
   (forall viewOf calc r dc,
      definePropView fuel propName viewOf calc r dc m
      = Thrown (PropertyAlreadyDefined propName) m)) /\
  (known propName m = false ->
   (forall dependsOn calc init dc k,
      k ∈ dependsOn -> known k m = false ->
      exists k', k' ∈ dependsOn /\ known k' m = false /\
        defineDerivedProp fuel propName dependsOn calc init dc m
        = Thrown (UnknownUtilizedProperty k') m) /\
   (forall viewOf calc r dc,
      known viewOf m = false ->
      definePropView fuel propName viewOf calc r dc m
      = Thrown (UnknownUtilizedProperty viewOf) m) /\
   (forall viewOf calc r dc base payload,
      read viewOf m = Some base -> calc base = Raise payload ->
      definePropView fuel propName viewOf calc r dc m = Thrown (Raised payload) m)).
Proof.
  split.
  - intros Hdef. repeat split; intros.
    + unfold defineProp. apply bind_eq_Thrown, check_undefined_defined, Hdef.
    + unfold defineDerivedProp. apply bind_eq_Thrown, check_undefined_defined, Hdef.
    + unfold definePropView. apply bind_eq_Thrown, check_undefined_defined, Hdef.
  - intros Hfresh. split; [|split].
    + intros dependsOn calc init dc k Hk Hnone.
      destruct (createUtilizer_unknown dependsOn calc m k Hk Hnone) as (k' & Hk' & Hn' & Hu).
      exists k'. split; [exact Hk'|]. split; [exact Hn'|].
      unfold defineDerivedProp.
      rewrite (bind_eq_Returned _ _ _ _ _ (check_undefined_fresh _ _ Hfresh)).
      apply bind_eq_Thrown, Hu.
    + intros viewOf calc r dc Hnone.
      destruct (createUtilizer_unknown [viewOf] (unary calc) m viewOf ltac:(left) Hnone)
        as (k' & Hk' & _ & Hu).
      apply list_elem_of_singleton in Hk' as ->.
      unfold definePropView.
      rewrite (bind_eq_Returned _ _ _ _ _ (check_undefined_fresh _ _ Hfresh)).
      apply bind_eq_Thrown, Hu.
    + intros viewOf calc r dc base payload Hbase Hcalc.
      rewrite (definePropView_eq fuel propName viewOf calc r dc m base Hfresh Hbase), Hcalc.
      reflexivity.
Qed.

Lemma failed_definition_changes_nothing_witness :
  defineProp 1 "area" (VNum 0) NOOP defaultDidChange rectangle
    = Thrown (PropertyAlreadyDefined "area") rectangle /\
  defineProp 1 "constructor" (VNum 0) NOOP defaultDidChange rectangle
    = Thrown (PropertyAlreadyDefined "constructor") rectangle /\
  (exists k', k' ∈ ["length"; "loop"] /\ known k' rectangle = false /\
     defineDerivedProp 1 "loop" ["length"; "loop"] product VUndefined defaultDidChange
       rectangle = Thrown (UnknownUtilizedProperty k') rectangle) /\
  definePropView 1 "self" "self" Return (fun _ v _ => Return v) defaultDidChange rectangle
    = Thrown (UnknownUtilizedProperty "self") rectangle /\
  definePropView 1 "side" "length" (fun v => share_of [v]) (fun _ v _ => Return v)
    defaultDidChange (after (set 1 (SetOne "length" (VNum 0))) two_lengths)
    = Thrown (Raised (VStr "no parts"))
        (after (set 1 (SetOne "length" (VNum 0))) two_lengths).
Proof.
  split; [|split; [|split; [|split]]].
  - apply (proj1 (proj1 (failed_definition_changes_nothing 1 "area" rectangle)
                    ltac:(vm_compute; reflexivity))).
  - apply (proj1 (proj1 (failed_definition_changes_nothing 1 "constructor" rectangle)
                    ltac:(vm_compute; reflexivity))).
  - apply (proj1 (proj2 (failed_definition_changes_nothing 1 "loop" rectangle)
                    ltac:(vm_compute; reflexivity))) with (k := "loop").
    + right. left.
    + vm_compute. reflexivity.
  - apply (proj1 (proj2 (proj2 (failed_definition_changes_nothing 1 "self" rectangle)
                    ltac:(vm_compute; reflexivity)))).
    vm_compute. reflexivity.
  - apply (proj2 (proj2 (proj2 (failed_definition_changes_nothing 1 "side"
                    (after (set 1 (SetOne "length" (VNum 0))) two_lengths))
                    ltac:(vm_compute; reflexivity))))
      with (base := VNum 0); vm_compute; reflexivity.
Defined.

(** X7.  [defineProp] of a name that is not taken (no property of the
    store and no member of [Object.prototype] has it) and whose change
    event nobody listens to always returns: the validator is not asked
    about the initial value.
    The property is entered with that value; its change from [undefined]
    is announced if the change predicate reports one, followed by the
    settle notification when the definition is not made inside a chain.
    An initial value the validator rejects is therefore stored all the
    same, and a later [set] of that very value is refused. *)
Theorem defineProp_enters_unvalidated fuel propName initialValue vv dc m :
  known propName m = false ->
  listeners (changed propName) m = [] ->
  exists m',
    defineProp fuel propName initialValue vv dc m = Returned tt m' /\
    _props m' = <[propName := primary initialValue vv dc]> (_props m) /\
    _events m' = _events m /\
    trace m' = trace m ++
      (if dc initialValue VUndefined
       then PropChanged propName initialValue VUndefined
              :: (if bool_decide (_firedProps m = [])
                  then [PropChainCompleted [propName]] else [])
       else []) /\
    (forall payload pv fuel',
       vv initialValue = Some payload -> pv m' propName = None ->
       _set (S fuel') pv (SetOne propName initialValue) m'
       = Thrown (Raised payload) m').
Proof.
  intros Hfresh Hnone. rewrite defineProp_eq by exact Hfresh.
  set (m1 := entered propName (primary initialValue vv dc) m).
  assert (Hrefused : forall m', _props m' = _props m1 ->
            forall payload pv fuel',
              vv initialValue = Some payload -> pv m' propName = None ->
              _set (S fuel') pv (SetOne propName initialValue) m'
              = Thrown (Raised payload) m').
  { intros m' Hp payload pv fuel' Hvv Hpv. rewrite _set_S, set_one_unfold, Hp.
    unfold m1, entered. simpl. rewrite lookup_insert_eq, Hpv. simpl. rewrite Hvv.
    reflexivity. }
  unfold first_event. destruct (dc initialValue VUndefined).
  - unfold _firePropChangeEvent. rewrite fire_no_listeners.
    2:{ intros ev Hev. apply list_elem_of_singleton in Hev as ->. exact Hnone. }
    eexists. split; [reflexivity|]. simpl foldl. unfold settle.
    change (_firedProps m1) with (_firedProps m).
    destruct (_firedProps m) as [|x s] eqn:Hb; simpl.
    + rewrite ?Hb. repeat split; try reflexivity.
      * simpl. rewrite <- app_assoc. reflexivity.
      * apply Hrefused. reflexivity.
    + rewrite ?Hb. repeat split; try reflexivity. apply Hrefused. reflexivity.
  - exists m1. repeat split; try reflexivity.
    + simpl. rewrite app_nil_r. reflexivity.
    + apply Hrefused. reflexivity.
Qed.

Lemma defineProp_enters_unvalidated_witness :
  exists m',
    defineProp 0 "depth" (VNum (-5)) isValidDimension defaultDidChange rectangle
      = Returned tt m' /\
    _props m' = <[ "depth" := primary (VNum (-5)) isValidDimension defaultDidChange ]>
                  (_props rectangle) /\
    _events m' = _events rectangle /\
    trace m' = trace rectangle ++
      (if defaultDidChange (VNum (-5)) VUndefined
       then PropChanged "depth" (VNum (-5)) VUndefined
              :: (if bool_decide (_firedProps rectangle = [])
                  then [PropChainCompleted ["depth"]] else [])
       else []) /\
    (forall payload pv fuel',
       isValidDimension (VNum (-5)) = Some payload -> pv m' "depth" = None ->
       _set (S fuel') pv (SetOne "depth" (VNum (-5))) m'
       = Thrown (Raised payload) m').
Proof.
  apply (defineProp_enters_unvalidated 0 "depth" (VNum (-5)) isValidDimension
           defaultDidChange rectangle).
  - vm_compute. reflexivity.
  - vm_compute. reflexivity.
Defined.

Lemma listeners_subscribe_all ch names h m :
  listeners ch (subscribe_all names h m)
  = listeners ch m ++ replicate (length (filter (fun n => changed n = ch) names)) h.
Proof.
  unfold subscribe_all. revert m. induction names as [|n names IH]; intros m; simpl.
  - rewrite app_nil_r. reflexivity.
  - rewrite IH, listeners_subscribe, filter_cons.
    case_decide; simpl; [rewrite <- app_assoc|]; reflexivity.
Qed.

Lemma listeners_view_entered ch v b calc r x dc m :
  listeners ch (view_entered v b calc r x dc m) =
    listeners ch m
    ++ (if decide (changed b = ch)
        then [RecomputeView v (Utilizer [b] (unary calc))] else [])
    ++ (if decide (changed v = ch) then [ReduceBase v b r] else []).
Proof.
  unfold view_entered. rewrite !listeners_subscribe_all, !filter_cons, !filter_nil.
  rewrite <- app_assoc. f_equal.
  repeat case_decide; reflexivity.
Qed.

(** X8.  Defining a view writes to its base.  When the change predicate
    reports the view's first value as a change from [undefined], the first
    change event of the view runs the write-back that the definition has
    just subscribed: [reduceBaseValue], which sees the store with the view
    in it, is applied to the view's value and the base's, and the base is
    assigned the result before [definePropView] returns. *)
Theorem definePropView_writes_back fuel v b calc r dc m base x m' :
  _props m !! v = None ->
  listeners (changed v) m = [] ->
  value_of b m = Some base ->
  calc base = Return x ->
  dc x VUndefined = true ->
  definePropView fuel v b calc r dc m = Returned tt m' ->
  exists y tail,
    r (fun k => read k (view_entered v b calc r x dc m)) x base = Return y /\
    trace m' = trace m ++ PropChanged v x VUndefined :: Assigned b y :: tail.
Proof.
  intros Hfresh Hnone Hbase Hcalc Hdc H.
  assert (Hbv : b <> v).
  { intros ->. unfold value_of in Hbase. rewrite Hfresh in Hbase. discriminate. }
  pose proof (proj1 (definePropView_listeners _ _ _ _ _ _ _ _ H)) as Hfree.
  rewrite (definePropView_eq fuel v b calc r dc m base Hfree (value_of_read _ _ _ Hbase)),
    Hcalc in H.
  unfold first_event in H. rewrite Hdc in H. unfold _firePropChangeEvent in H.
  set (mid := view_entered v b calc r x dc m) in *.
  apply fire_one_Returned in H as (m3 & Hloop & ->).
  assert (Hl : listeners (changed v) mid = [ReduceBase v b r]).
  { unfold mid. rewrite listeners_view_entered, Hnone.
    rewrite decide_False by (intros Heq; apply changed_inj in Heq; contradiction).
    rewrite decide_True by reflexivity. reflexivity. }
  rewrite Hl in Hloop. cbn [forEach] in Hloop.
  apply bind_Returned in Hloop as ([] & m4 & Hback & Hret). inversion Hret; subst m4.
  clear Hret. unfold run_handler in Hback.
  apply bind_Returned in Hback as (base' & m1 & Hget & Hback).
  apply get_Returned in Hget as [-> Hbase'].
  assert (base' = base) as ->.
  { apply value_of_read in Hbase. unfold read in Hbase, Hbase'. simpl in Hbase'.
    rewrite lookup_insert_ne in Hbase' by (intros Heq; apply Hbv; symmetry; exact Heq).
    congruence. }
  apply bind_Returned in Hback as (m0 & m1 & Hthis & Hback). inversion Hthis; subst m0 m1.
  apply bind_Returned in Hback as (y & m1 & Hc & Hback).
  apply complete_Returned in Hc as [-> Hr].
  apply bind_Returned in Hback as ([] & m1 & Hup & Hback). inversion Hup; subst m1.
  apply bind_Returned in Hback as ([] & m2 & Hset & Hback). inversion Hback; subst m3.
  apply set_one_first_event in Hset as [rest Hrest].
  exists y. unfold settle.
  case_bool_decide; eexists; (split; [exact Hr|]); simpl; rewrite Hrest; simpl;
    rewrite <- ?app_assoc; simpl; reflexivity.
Qed.

Lemma definePropView_writes_back_witness :
  let m' := after (definePropView 3 "size" "number" magnitude_of
                     (fun _ v _ => Return v) defaultDidChange) negative_number in
  exists y tail,
    Return (VNum 3) = Return y /\
    trace m' = trace negative_number
                 ++ PropChanged "size" (VNum 3) VUndefined :: Assigned "number" y :: tail.
Proof.
  intros m'.
  apply (definePropView_writes_back 3 "size" "number" magnitude_of
           (fun _ v _ => Return v) defaultDidChange negative_number (VNum (-3)) (VNum 3) m').
  all: vm_compute; reflexivity.
Defined.

(** ** Subscribing and utilizing *)

Lemma forEach_first_Thrown {A} (pre post : list A) (k : A) (f : A -> M unit) m e :
  (forall x, x ∈ pre -> f x m = Returned tt m) ->
  f k m = Thrown e m ->
  forEach (pre ++ k :: post) f m = Thrown e m.
Proof.
  intros Hpre Hk. induction pre as [|x pre IH]; simpl.
  - unfold bind. rewrite Hk. reflexivity.
  - unfold bind at 1. rewrite (Hpre x) by left.
    apply IH. intros y Hy. apply Hpre. right. exact Hy.
Qed.

Lemma forEach_validate_Returned pv names m :
  (forall n, n ∈ names -> pv m n = None) ->
  forEach names (validate pv) m = Returned tt m.
Proof.
  intros Hok. apply forEach_all_Returned; [apply pure_validate|].
  intros n Hn. apply validate_Returned, Hok, Hn.
Qed.

Lemma forEach_on_subscribes names h m :
  forEach names (fun propName => on (changed propName) h) m
  = Returned tt (subscribe_all names h m).
Proof.
  unfold subscribe_all. revert m. induction names as [|n names IH]; intros m; [reflexivity|].
  simpl. unfold bind at 1. unfold on, update at 1. apply IH.
Qed.

Lemma filter_changed_eq p (names : list string) :
  filter (fun n => changed n = changed p) names = filter (fun n => n = p) names.
Proof.
  apply list_filter_iff. intros n. split; [apply changed_inj | intros ->; reflexivity].
Qed.

(** X9.  [_onAny] asks the validator about every name before it subscribes
    to any: a denied name, wherever it is in the list, makes the call
    throw what the validator threw for the first denied name, with nothing
    subscribed.  Otherwise the listener is added to the change event of
    each name in turn, after the listeners already there and once for each
    occurrence of the name; whether the names are those of defined
    properties is not checked. *)
Theorem onAny_validates_then_subscribes pv names h m :
  ((forall n, n ∈ names -> pv m n = None) ->
   exists m',
     _onAny pv names h m = Returned tt m' /\
     _props m' = _props m /\
     forall p, listeners (changed p) m'
               = listeners (changed p) m
                   ++ replicate (length (filter (fun n => n = p) names)) h) /\
  (forall pre k post e,
     names = pre ++ k :: post ->
     (forall n, n ∈ pre -> pv m n = None) -> pv m k = Some e ->
     _onAny pv names h m = Thrown e m).
Proof.
  split.
  - intros Hok. exists (subscribe_all names h m). unfold _onAny.
    rewrite (bind_eq_Returned _ _ _ _ _ (forEach_validate_Returned pv names m Hok)).
    split; [apply forEach_on_subscribes|]. split.
    + apply props_onAny.
    + intros p. rewrite listeners_subscribe_all, filter_changed_eq. reflexivity.
  - intros pre k post e -> Hpre Hk. unfold _onAny.
    apply bind_eq_Thrown, forEach_first_Thrown.
    + intros n Hn. apply validate_Returned, Hpre, Hn.
    + unfold validate. rewrite Hk. reflexivity.
Qed.

Lemma onAny_validates_then_subscribes_witness :
  (exists m',
     _onAny assertPropNameIsPublic ["length"; "ghost"; "length"]
       (RecomputeDerived "area" (Utilizer ["length"; "width"] product)) rectangle
     = Returned tt m' /\
     _props m' = _props rectangle /\
     forall p, listeners (changed p) m'
               = listeners (changed p) rectangle
                   ++ replicate
                        (length (filter (fun n => n = p) ["length"; "ghost"; "length"]))
                        (RecomputeDerived "area" (Utilizer ["length"; "width"] product))) /\
  _onAny assertPropNameIsPublic ["length"; "_width"; "width"]
    (RecomputeDerived "area" (Utilizer ["length"; "width"] product)) rectangle
  = Thrown (NotPubliclyAccessible "_width") rectangle.
Proof.
  split.
  - apply (proj1 (onAny_validates_then_subscribes assertPropNameIsPublic
                    ["length"; "ghost"; "length"]
                    (RecomputeDerived "area" (Utilizer ["length"; "width"] product))
                    rectangle)).
    intros n Hn.
    repeat (apply elem_of_cons in Hn as [->|Hn]; [reflexivity|]). inversion Hn.
  - apply (proj2 (onAny_validates_then_subscribes assertPropNameIsPublic
                    ["length"; "_width"; "width"]
                    (RecomputeDerived "area" (Utilizer ["length"; "width"] product))
                    rectangle) ["length"] "_width" ["width"]).
    + reflexivity.
    + intros n Hn. apply list_elem_of_singleton in Hn as ->. reflexivity.
    + reflexivity.
Defined.

Lemma forEach_known_Returned names m :
  (forall n, n ∈ names -> known n m = true) ->
  forEach names (fun propName =>
    let* m := this in
    if known propName m then ret tt
    else throw (UnknownUtilizedProperty propName)) m = Returned tt m.
Proof.
  intros Hdef. induction names as [|n names IH]; [reflexivity|]. simpl.
  pose proof (Hdef n ltac:(left)) as Hp.
  unfold bind at 1. unfold bind at 1. unfold this at 1. rewrite Hp. simpl.
  apply IH. intros k Hk. apply Hdef. right. exact Hk.
Qed.

(** X10.  [_createUtilizer] asks the validator about every name before it
    looks any of them up: a denied name makes it throw what the validator
    threw, even when a name before it in the list does not exist; with
    every name allowed, the first name under which [_props] has nothing,
    own or inherited, makes it throw the error of an unknown property;
    otherwise it returns the utilizer of these names, also when some of
    them are names of members of [Object.prototype] and not of properties
    of the store.  In no case does it touch the store. *)
Theorem createUtilizer_validates_then_looks_up pv names f m :
  (forall pre k post e,
     names = pre ++ k :: post ->
     (forall n, n ∈ pre -> pv m n = None) -> pv m k = Some e ->
     _createUtilizer pv names f m = Thrown e m) /\
  (forall pre k post,
     (forall n, n ∈ names -> pv m n = None) ->
     names = pre ++ k :: post ->
     (forall n, n ∈ pre -> known n m = true) -> known k m = false ->
     _createUtilizer pv names f m = Thrown (UnknownUtilizedProperty k) m) /\
  ((forall n, n ∈ names -> pv m n = None) ->
   (forall n, n ∈ names -> known n m = true) ->
   _createUtilizer pv names f m = Returned (Utilizer names f) m).
Proof.
  split; [|split].
  - intros pre k post e -> Hpre Hk. unfold _createUtilizer.
    apply bind_eq_Thrown, forEach_first_Thrown.
    + intros n Hn. apply validate_Returned, Hpre, Hn.
    + unfold validate. rewrite Hk. reflexivity.
  - intros pre k post Hok -> Hpre Hk. unfold _createUtilizer.
    rewrite (bind_eq_Returned _ _ _ _ _ (forEach_validate_Returned pv _ m Hok)).
    apply bind_eq_Thrown, forEach_first_Thrown.
    + intros n Hn. unfold bind, this. rewrite (Hpre n Hn). reflexivity.
    + unfold bind, this. rewrite Hk. reflexivity.
  - intros Hok Hdef. unfold _createUtilizer.
    rewrite (bind_eq_Returned _ _ _ _ _ (forEach_validate_Returned pv _ m Hok)).
    rewrite (bind_eq_Returned _ _ _ _ _ (forEach_known_Returned _ m Hdef)).
    reflexivity.
Qed.

Lemma createUtilizer_validates_then_looks_up_witness :
  _createUtilizer assertPropNameIsPublic ["ghost"; "_width"] product rectangle
    = Thrown (NotPubliclyAccessible "_width") rectangle /\
  _createUtilizer assertPropNameIsPublic ["length"; "ghost"] product rectangle
    = Thrown (UnknownUtilizedProperty "ghost") rectangle /\
  _createUtilizer assertPropNameIsPublic ["length"; "toString"] product rectangle
    = Returned (Utilizer ["length"; "toString"] product) rectangle.
Proof.
  split; [|split].
  - apply (proj1 (createUtilizer_validates_then_looks_up assertPropNameIsPublic
                    ["ghost"; "_width"] product rectangle) ["ghost"] "_width" []).
    + reflexivity.
    + intros n Hn. apply list_elem_of_singleton in Hn as ->. reflexivity.
    + reflexivity.
  - apply (proj1 (proj2 (createUtilizer_validates_then_looks_up assertPropNameIsPublic
                    ["length"; "ghost"] product rectangle)) ["length"] "ghost" []).
    + intros n Hn.
      repeat (apply elem_of_cons in Hn as [->|Hn]; [reflexivity|]). inversion Hn.
    + reflexivity.
    + intros n Hn. apply list_elem_of_singleton in Hn as ->. vm_compute. reflexivity.
    + vm_compute. reflexivity.
  - apply (proj2 (proj2 (createUtilizer_validates_then_looks_up assertPropNameIsPublic
                    ["length"; "toString"] product rectangle))).
    + intros n Hn.
      repeat (apply elem_of_cons in Hn as [->|Hn]; [reflexivity|]). inversion Hn.
    + intros n Hn.
      repeat (apply elem_of_cons in Hn as [->|Hn]; [vm_compute; reflexivity|]).
      inversion Hn.
Defined.

Lemma _createUtilizer_inv pv names f m u m' :
  _createUtilizer pv names f m = Returned u m' ->
  m' = m /\ u = Utilizer names f /\
  (forall n, n ∈ names -> pv m n = None) /\
  (forall n, n ∈ names -> known n m = true).
Proof.
  unfold _createUtilizer. intros H.
  destruct (forEach_pure_result names (validate pv) m (pure_validate pv))
    as [[Hv Hallv]|(k & e & _ & _ & Hv)].
  2:{ rewrite (bind_eq_Thrown _ _ _ _ _ Hv) in H. discriminate. }
  rewrite (bind_eq_Returned _ _ _ _ _ Hv) in H.
  match type of H with bind (forEach names ?g) _ m = _ =>
    destruct (forEach_pure_result names g m) as [[Hex Hall]|(k & e & _ & _ & Hex)]
  end.
  - intros x. apply pure_bind; [apply pure_this|]. intros m2.
    destruct (known x m2); [apply pure_ret | apply pure_throw].
  - rewrite (bind_eq_Returned _ _ _ _ _ Hex) in H. inversion H; subst.
    split; [reflexivity|]. split; [reflexivity|]. split.
    + intros n Hn. apply validate_Returned, Hallv, Hn.
    + intros n Hn. specialize (Hall n Hn). unfold bind, this in Hall.
      destruct (known n m'); [reflexivity | discriminate].
  - rewrite (bind_eq_Thrown _ _ _ _ _ Hex) in H. discriminate.
Qed.

Lemma current_values_total names m :
  (forall n, n ∈ names -> known n m = true) ->
  exists vs, current_values names m = Some vs /\ length vs = length names.
Proof.
  induction names as [|n names IH]; intros Hdef; [exists []; split; reflexivity|].
  destruct (proj2 (read_known n m) (Hdef n ltac:(left))) as [v Hv].
  destruct IH as (vs & Hvs & Hlen); [intros k Hk; apply Hdef; right; exact Hk|].
  exists (v :: vs). simpl. rewrite Hv, Hvs. simpl.
  split; [reflexivity | rewrite Hlen; reflexivity].
Qed.

(** What is known stays known while no property is removed. *)
Lemma known_kept m m' n :
  (forall k, is_Some (_props m !! k) -> is_Some (_props m' !! k)) ->
  known n m = true -> known n m' = true.
Proof.
  intros Hkept Hn. apply known_cases in Hn as [Hown|[_ Hinh]].
  - apply known_defined, Hkept, Hown.
  - unfold known. destruct (_props m' !! n); [reflexivity | exact Hinh].
Qed.

(** X11.  The function [_createUtilizer] returns does not keep the values
    the properties had when it was created: each call reads the values the
    store holds then.  Properties are never removed, so after any call of
    [set], returned or thrown, the utilizer finds every one of its
    properties and passes their current values, in the order of its names,
    to the function it delegates to. *)
Theorem utilizer_reads_current_values pv names f m u m0 :
  _createUtilizer pv names f m = Returned u m0 ->
  (forall m',
     (forall n, is_Some (_props m !! n) -> is_Some (_props m' !! n)) ->
     exists vs, current_values names m' = Some vs /\
                call_utilizer u m' = complete (f vs) m') /\
  (forall fuel pv' args m',
     state_of (_set fuel pv' args m) = Some m' ->
     exists vs, current_values names m' = Some vs /\
                call_utilizer u m' = complete (f vs) m').
Proof.
  intros H. apply _createUtilizer_inv in H as (-> & -> & _ & Hdef).
  assert (Hgen : forall m',
     (forall n, is_Some (_props m !! n) -> is_Some (_props m' !! n)) ->
     exists vs, current_values names m' = Some vs /\
                call_utilizer (Utilizer names f) m' = complete (f vs) m').
  { intros m' Hkept.
    destruct (current_values_total names m') as (vs & Hvs & _).
    - intros n Hn. apply (known_kept m m' n Hkept), Hdef, Hn.
    - exists vs. split; [exact Hvs | apply call_utilizer_current, Hvs]. }
  split; [exact Hgen|].
  intros fuel pv' args m' Hm'. apply Hgen. intros n [p Hp].
  assert (Hs : static_same m m').
  { pose proof (set_static_same fuel pv' args m m (static_same_refl m)) as Hs.
    destruct (_set fuel pv' args m); simpl in Hm'; inversion Hm'; subst; exact Hs. }
  destruct (static_same_lookup m m' n p Hs Hp) as (q & Hq & _). eauto.
Qed.

Lemma utilizer_reads_current_values_witness :
  let m' := after (_set 3 noValidator (SetOne "length" (VNum 7))) rectangle in
  exists vs, current_values ["length"; "width"] m' = Some vs /\
             call_utilizer (Utilizer ["length"; "width"] product) m'
             = complete (product vs) m'.
Proof.
  intros m'.
  apply (proj2 (utilizer_reads_current_values noValidator ["length"; "width"] product
                  rectangle (Utilizer ["length"; "width"] product) rectangle
                  ltac:(vm_compute; reflexivity))
           3 noValidator (SetOne "length" (VNum 7)) m').
  vm_compute. reflexivity.
Defined.

(** ** Enumerating the properties *)

Lemma enumerates_elem_of keys m n :
  enumerates keys m -> n ∈ keys <-> is_Some (_props m !! n).
Proof.
  intros [_ Hdom]. rewrite <- elem_of_dom, <- Hdom, elem_of_list_to_set. reflexivity.
Qed.

(** The properties of its own an object has after [Object_put]. *)
Lemma lookup_Object_put k v (o : gmap string val) n :
  Object_put k v o !! n
  = if decide (n = k /\ n <> "__proto__") then Some v else o !! n.
Proof.
  unfold Object_put. destruct (decide (k = "__proto__")) as [->|Hk].
  - rewrite decide_False by (intros [-> H]; apply H; reflexivity). reflexivity.
  - destruct (decide (n = k)) as [->|Hne].
    + rewrite lookup_insert_eq, decide_True by auto. reflexivity.
    + rewrite lookup_insert_ne by congruence.
      rewrite decide_False by (intros [? _]; contradiction). reflexivity.
Qed.

(** The [reduce] of [_getAll] over names that all pass its test. *)
Lemma getAll_reduce_known names o m :
  (forall n, n ∈ names -> known n m = true) ->
  exists o', getAll_reduce names o m = Returned o' m /\
    forall n, o' !! n = if decide (n ∈ names /\ n <> "__proto__") then read n m
                        else o !! n.
Proof.
  revert o. induction names as [|k names IH]; intros o Hdef.
  - exists o. split; [reflexivity|]. intros n. rewrite decide_False; [reflexivity|].
    intros [H _]. inversion H.
  - destruct (proj2 (read_known k m) (Hdef k ltac:(left))) as [v Hv].
    destruct (IH (Object_put k v o)) as (o' & Ho' & Hlook).
    { intros n Hn. apply Hdef. right. exact Hn. }
    exists o'. split.
    + simpl. unfold bind, this. rewrite Hv. exact Ho'.
    + intros n. rewrite Hlook. destruct (decide (n ∈ names /\ n <> "__proto__")) as [Hin|Hnin].
      * rewrite decide_True by (split; [right|]; apply Hin). reflexivity.
      * rewrite lookup_Object_put. destruct (decide (n = k /\ n <> "__proto__")) as [[-> Hp]|Hne].
        -- rewrite decide_True by (split; [left | exact Hp]). symmetry. exact Hv.
        -- rewrite decide_False; [reflexivity|]. intros [Hin Hp].
           apply elem_of_cons in Hin as [->|Hin]; [apply Hne | apply Hnin]; auto.
Qed.

Lemma getAll_reduce_unknown pre k post o m :
  (forall n, n ∈ pre -> known n m = true) ->
  known k m = false ->
  getAll_reduce (pre ++ k :: post) o m = Thrown (NoSuchProperty k) m.
Proof.
  revert o. induction pre as [|x pre IH]; intros o Hpre Hk; simpl.
  - unfold bind, this. apply read_known_false in Hk. rewrite Hk. reflexivity.
  - destruct (proj2 (read_known x m) (Hpre x ltac:(left))) as [v Hv].
    unfold bind, this. rewrite Hv. apply IH; [|exact Hk].
    intros n Hn. apply Hpre. right. exact Hn.
Qed.

(** X12.  [_getAll] with a list of names first drops the names the checker
    does not accept, then looks the others up in order: the first of them
    under which [_props] has nothing, own or inherited, makes it throw the
    error of an unknown property, while such a name that the checker does
    not accept is passed over in silence.  When it returns, the object
    holds, for each accepted name of the list, what the code reads as the
    value under that name -- the value of the property, or [undefined] for
    a name that is only that of a member of [Object.prototype] -- and
    nothing else; the name [__proto__] gets no entry, an assignment to it
    adding no property to an object.  The store is not touched. *)
Theorem getAll_of_names keys propChecker names m :
  ((forall n, n ∈ names -> truthy (propChecker n) = true -> known n m = true) ->
   exists o,
     _getAll keys propChecker (Some names) m = Returned o m /\
     forall n v, o !! n = Some v <->
       n ∈ names /\ truthy (propChecker n) = true /\ n <> "__proto__" /\
       read n m = Some v) /\
  (forall pre k post,
     names = pre ++ k :: post ->
     (forall n, n ∈ pre -> truthy (propChecker n) = true -> known n m = true) ->
     truthy (propChecker k) = true -> known k m = false ->
     _getAll keys propChecker (Some names) m = Thrown (NoSuchProperty k) m).
Proof.
  split.
  - intros Hdef. unfold _getAll. simpl default.
    destruct (getAll_reduce_known
                (filter (fun n => truthy (propChecker n) = true) names) ∅ m)
      as (o & Ho & Hlook).
    { intros n Hn. apply list_elem_of_filter in Hn as [Hc Hn]. apply Hdef; assumption. }
    exists o. split; [exact Ho|]. intros n v. rewrite Hlook.
    destruct (decide (n ∈ filter (fun n => truthy (propChecker n) = true) names
                      /\ n <> "__proto__")) as [[Hin Hp]|Hnin].
    + apply list_elem_of_filter in Hin as [Hc Hn]. tauto.
    + rewrite lookup_empty. split; [discriminate|]. intros (Hn & Hc & Hp & _).
      exfalso. apply Hnin. split; [|exact Hp]. apply list_elem_of_filter. auto.
  - intros pre k post -> Hpre Hc Hk. unfold _getAll. simpl default.
    rewrite filter_app, filter_cons, decide_True by exact Hc.
    apply getAll_reduce_unknown; [|exact Hk].
    intros n Hn. apply list_elem_of_filter in Hn as [Hcn Hn]. apply Hpre; assumption.
Qed.

Lemma getAll_of_names_witness :
  (exists o,
     _getAll [] (fun n => if propNameIsPublic n then Truthy else Falsy)
       (Some ["area"; "_ghost"; "valueOf"; "width"]) rectangle = Returned o rectangle /\
     forall n v, o !! n = Some v <->
       n ∈ ["area"; "_ghost"; "valueOf"; "width"] /\
       truthy (if propNameIsPublic n then Truthy else Falsy) = true /\
       n <> "__proto__" /\
       read n rectangle = Some v) /\
  _getAll [] allNames (Some ["area"; "_ghost"; "width"]) rectangle
    = Thrown (NoSuchProperty "_ghost") rectangle.
Proof.
  split.
  - apply (proj1 (getAll_of_names [] (fun n => if propNameIsPublic n then Truthy else Falsy)
                    ["area"; "_ghost"; "valueOf"; "width"] rectangle)).
    intros n Hn Hc.
    repeat (apply elem_of_cons in Hn as [->|Hn];
            [first [discriminate Hc | vm_compute; reflexivity]|]).
    inversion Hn.
  - apply (proj2 (getAll_of_names [] allNames ["area"; "_ghost"; "width"] rectangle)
             ["area"] "_ghost" ["width"]).
    + reflexivity.
    + intros n Hn _. apply list_elem_of_singleton in Hn as ->. vm_compute. reflexivity.
    + reflexivity.
    + vm_compute. reflexivity.
Defined.

Lemma get_unfold pv n m :
  _get pv n m =
    match pv m n with
    | Some e => Thrown e m
    | None =>
        match read n m with
        | None => Thrown (NoSuchProperty n) m
        | Some v => Returned v m
        end
    end.
Proof.
  unfold _get, validate, bind, this. destruct (pv m n); [reflexivity|].
  destruct (read n m); reflexivity.
Qed.

(** [_getAll] without a list of names: every property the checker accepts. *)
Lemma getAll_default keys propChecker m :
  enumerates keys m ->
  exists o,
    _getAll keys propChecker None m = Returned o m /\
    forall n v, o !! n = Some v <->
      truthy (propChecker n) = true /\ n <> "__proto__" /\ value_of n m = Some v.
Proof.
  intros Hkeys. unfold _getAll. simpl default.
  destruct (getAll_reduce_known
              (filter (fun n => truthy (propChecker n) = true) keys) ∅ m)
    as (o & Ho & Hlook).
  { intros n Hn. apply list_elem_of_filter in Hn as [_ Hn].
    apply known_defined, (enumerates_elem_of keys m n Hkeys), Hn. }
  exists o. split; [exact Ho|]. intros n v. rewrite Hlook.
  destruct (decide (n ∈ filter (fun n => truthy (propChecker n) = true) keys
                    /\ n <> "__proto__")) as [[Hin Hp]|Hnin].
  - apply list_elem_of_filter in Hin as [Hc Hn].
    apply (enumerates_elem_of keys m n Hkeys) in Hn. split.
    + intros Hv. split; [exact Hc|]. split; [exact Hp|]. apply read_stored; assumption.
    + intros (_ & _ & Hv). apply value_of_read, Hv.
  - rewrite lookup_empty. split; [discriminate|]. intros (Hc & Hp & Hv).
    exfalso. apply Hnin. split; [|exact Hp]. apply list_elem_of_filter. split; [exact Hc|].
    apply (enumerates_elem_of keys m n Hkeys).
    unfold value_of in Hv. destruct (_props m !! n); [eauto | discriminate].
Qed.

Lemma getPropNames_spec keys propChecker m :
  enumerates keys m ->
  exists names,
    _getPropNames keys propChecker m = Returned names m /\
    NoDup names /\
    forall n, n ∈ names <-> is_Some (_props m !! n) /\ truthy (propChecker n) = true.
Proof.
  intros Hkeys. eexists. split; [reflexivity|]. split.
  - apply NoDup_filter, Hkeys.
  - intros n. rewrite list_elem_of_filter, (enumerates_elem_of keys m n Hkeys). tauto.
Qed.

(** The three ways of reading through a facade whose read validator lets
    through the names its checker accepts. *)
Lemma listing_agrees_with_get keys readChecker readValidator writeValidator m :
  enumerates keys m ->
  (forall n, default (propertyCheckerToValidator readChecker) readValidator m n = None
             <-> truthy (readChecker n) = true) ->
  exists names o,
    api_getPropNames (createApi_listing keys readChecker) m = Returned names m /\
    api_getAll (createApi_listing keys readChecker) m = Returned o m /\
    NoDup names /\
    forall n,
      (n ∈ names <-> is_Some (_props m !! n) /\ truthy (readChecker n) = true) /\
      (n <> "__proto__" -> n ∈ names <-> is_Some (o !! n)) /\
      (forall v, o !! n = Some v <->
         n ∈ names /\ n <> "__proto__" /\
         api_get (createApi readChecker readValidator writeValidator) n m = Returned v m) /\
      (forall v, n ∉ names ->
         api_get (createApi readChecker readValidator writeValidator) n m = Returned v m ->
         _props m !! n = None /\ inherited n = true /\ v = VUndefined).
Proof.
  intros Hkeys Hagree.
  destruct (getPropNames_spec keys readChecker m Hkeys) as (names & Hnames & Hnd & Hin).
  destruct (getAll_default keys readChecker m Hkeys) as (o & Ho & Hlook).
  exists names, o. split; [exact Hnames|]. split; [exact Ho|]. split; [exact Hnd|].
  intros n. split; [apply Hin|]. split; [|split].
  - intros Hproto. rewrite Hin. split.
    + intros [[p Hp] Hc]. exists (value p). apply Hlook. split; [exact Hc|].
      split; [exact Hproto|]. unfold value_of. rewrite Hp. reflexivity.
    + intros [v Hv]. apply Hlook in Hv as (Hc & _ & Hv). split; [|exact Hc].
      unfold value_of in Hv. destruct (_props m !! n); [eauto | discriminate].
  - intros v. rewrite Hlook, Hin. cbn [createApi api_get]. rewrite get_unfold.
    specialize (Hagree n). unfold value_of, read.
    destruct (default (propertyCheckerToValidator readChecker) readValidator m n) as [e|].
    + split; [intros (Hc & _ & _); apply Hagree in Hc; discriminate|].
      intros (_ & _ & H). discriminate.
    + destruct (_props m !! n) as [p|]; simpl.
      * split.
        -- intros (Hc & Hp & Hv). inversion Hv. eauto.
        -- intros (_ & Hp & Hv). inversion Hv. split; [apply Hagree; reflexivity|]. auto.
      * split; [intros (_ & _ & Hv); discriminate|].
        intros ([[p Hp] _] & _). discriminate.
  - intros v Hout. cbn [createApi api_get]. rewrite get_unfold.
    destruct (default (propertyCheckerToValidator readChecker) readValidator m n) as [e|] eqn:He;
      [discriminate|].
    unfold read. destruct (_props m !! n) as [p|] eqn:Hp.
    + exfalso. apply Hout, Hin. split; [eauto|]. apply Hagree, He.
    + destruct (inherited n); [|discriminate]. intros H. inversion H. auto.
Qed.

(** X13.  Through a facade whose read validator lets through exactly the
    names its checker accepts -- as the validator the facade derives from a
    checker that answers true or false does, and as both standard facades
    are built -- the three ways of reading agree on the properties of the
    store: [getPropNames] lists, once each, the properties the checker
    accepts; [getAll] has an entry for exactly these names (but for
    [__proto__], which an object cannot be given as a property by
    assignment); and that entry is the value [get] returns for the name.
    For a name that is not listed [get] throws, unless it is the name of a
    member of [Object.prototype] that the validator lets through, for
    which [get] returns [undefined].  The standard public facade lists
    the properties whose name does not start with an underscore, the
    standard owner facade all of them. *)
Theorem facade_reads_agree keys m :
  enumerates keys m ->
  (forall readChecker readValidator writeValidator,
     (forall n, default (propertyCheckerToValidator readChecker) readValidator m n = None
                <-> truthy (readChecker n) = true) ->
     exists names o,
       api_getPropNames (createApi_listing keys readChecker) m = Returned names m /\
       api_getAll (createApi_listing keys readChecker) m = Returned o m /\
       NoDup names /\
       forall n,
         (n ∈ names <-> is_Some (_props m !! n) /\ truthy (readChecker n) = true) /\
         (n <> "__proto__" -> n ∈ names <-> is_Some (o !! n)) /\
         (forall v, o !! n = Some v <->
            n ∈ names /\ n <> "__proto__" /\
            api_get (createApi readChecker readValidator writeValidator) n m
            = Returned v m) /\
         (forall v, n ∉ names ->
            api_get (createApi readChecker readValidator writeValidator) n m
            = Returned v m ->
            _props m !! n = None /\ inherited n = true /\ v = VUndefined)) /\
  (exists names o,
     api_getPropNames (getStandardPublicApi_listing keys) m = Returned names m /\
     api_getAll (getStandardPublicApi_listing keys) m = Returned o m /\
     forall n,
       (n ∈ names <-> is_Some (_props m !! n) /\ propNameIsPublic n = true) /\
       forall v, o !! n = Some v <->
         n ∈ names /\ n <> "__proto__" /\
         api_get getStandardPublicApi n m = Returned v m) /\
  (exists names o,
     api_getPropNames (getStandardPrivateApi_listing keys) m = Returned names m /\
     api_getAll (getStandardPrivateApi_listing keys) m = Returned o m /\
     forall n,
       (n ∈ names <-> is_Some (_props m !! n)) /\
       forall v, o !! n = Some v <->
         n ∈ names /\ n <> "__proto__" /\
         api_get getStandardPrivateApi n m = Returned v m).
Proof.
  intros Hkeys. split; [|split].
  - intros readChecker readValidator writeValidator Hagree.
    apply listing_agrees_with_get; assumption.
  - destruct (listing_agrees_with_get keys
                (fun n => if propNameIsPublic n then Truthy else Falsy)
                (Some assertPropNameIsPublic)
                (Some (fun m propName =>
                         match assertPropNameIsPublic m propName with
                         | Some e => Some e
                         | None => createStandardWriteValidator m propName
                         end)) m Hkeys)
      as (names & o & Hn & Ho & _ & H).
    { intros n. simpl. unfold assertPropNameIsPublic.
      destruct (propNameIsPublic n); simpl; split; congruence. }
    exists names, o. split; [exact Hn|]. split; [exact Ho|]. intros n.
    destruct (H n) as (Hin & _ & Hv & _). split; [|exact Hv].
    rewrite Hin. destruct (propNameIsPublic n); simpl; tauto.
  - destruct (listing_agrees_with_get keys allNames (Some noValidator)
                (Some createStandardWriteValidator) m Hkeys)
      as (names & o & Hn & Ho & _ & H).
    { intros n. simpl. unfold noValidator. tauto. }
    exists names, o. split; [exact Hn|]. split; [exact Ho|]. intros n.
    destruct (H n) as (Hin & _ & Hv & _). split; [|exact Hv].
    rewrite Hin. simpl. tauto.
Qed.

Lemma facade_reads_agree_witness :
  let keys := ["length"; "width"; "area"; "_scale"] in
  (exists names o,
     api_getPropNames (createApi_listing keys onlyArea) scaled_rectangle
       = Returned names scaled_rectangle /\
     api_getAll (createApi_listing keys onlyArea) scaled_rectangle
       = Returned o scaled_rectangle /\
     NoDup names /\
     forall n,
       (n ∈ names <-> is_Some (_props scaled_rectangle !! n) /\ truthy (onlyArea n) = true) /\
       (n <> "__proto__" -> n ∈ names <-> is_Some (o !! n)) /\
       (forall v, o !! n = Some v <->
          n ∈ names /\ n <> "__proto__" /\
          api_get (createApi onlyArea None None) n scaled_rectangle
          = Returned v scaled_rectangle) /\
       (forall v, n ∉ names ->
          api_get (createApi onlyArea None None) n scaled_rectangle
          = Returned v scaled_rectangle ->
          _props scaled_rectangle !! n = None /\ inherited n = true /\ v = VUndefined)) /\
  (exists names o,
     api_getPropNames (getStandardPublicApi_listing keys) scaled_rectangle
       = Returned names scaled_rectangle /\
     api_getAll (getStandardPublicApi_listing keys) scaled_rectangle
       = Returned o scaled_rectangle /\
     forall n,
       (n ∈ names <-> is_Some (_props scaled_rectangle !! n) /\ propNameIsPublic n = true) /\
       forall v, o !! n = Some v <->
         n ∈ names /\ n <> "__proto__" /\
         api_get getStandardPublicApi n scaled_rectangle = Returned v scaled_rectangle).
Proof.
  intros keys.
  assert (Hkeys : enumerates keys scaled_rectangle).
  { split; [refine (bool_decide_unpack _ _); vm_compute; exact Logic.I|].
    vm_compute. reflexivity. }
  split.
  - apply (proj1 (facade_reads_agree keys scaled_rectangle Hkeys) onlyArea None None).
    intros n. simpl. unfold propertyCheckerToValidator, onlyArea.
    case_decide; simpl; split; congruence.
  - apply (proj1 (proj2 (facade_reads_agree keys scaled_rectangle Hkeys))).
Defined.

(** X14.  A checker may refuse a name by returning an [Error] object, and
    the read validator a facade derives from it then throws that error in
    [get].  The listing members of the facade pass the checker to
    [Array.prototype.filter], where an object counts as true: the property
    is in the list [getPropNames] returns and [getAll] gives its value
    (under every name but [__proto__], which an assignment cannot give an
    object as a property and which has no entry). *)
Theorem refusal_by_error_is_listed keys readChecker writeValidator m n e p :
  enumerates keys m ->
  readChecker n = AnError e ->
  _props m !! n = Some p ->
  api_get (createApi readChecker None writeValidator) n m = Thrown e m /\
  exists names o,
    api_getPropNames (createApi_listing keys readChecker) m = Returned names m /\
    api_getAll (createApi_listing keys readChecker) m = Returned o m /\
    n ∈ names /\
    o !! n = if decide (n = "__proto__") then None else Some (value p).
Proof.
  intros Hkeys Hc Hp. split.
  - cbn [createApi api_get]. rewrite get_unfold. simpl.
    unfold propertyCheckerToValidator. rewrite Hc. reflexivity.
  - destruct (getPropNames_spec keys readChecker m Hkeys) as (names & Hnames & _ & Hin).
    destruct (getAll_default keys readChecker m Hkeys) as (o & Ho & Hlook).
    exists names, o. split; [exact Hnames|]. split; [exact Ho|]. split.
    + apply Hin. rewrite Hc. split; [eauto | reflexivity].
    + destruct (decide (n = "__proto__")) as [Hproto|Hproto].
      * destruct (o !! n) as [v|] eqn:Hv; [|reflexivity].
        apply Hlook in Hv as (_ & Hne & _). contradiction.
      * apply Hlook. rewrite Hc. split; [reflexivity|].
        split; [exact Hproto|]. unfold value_of. rewrite Hp. reflexivity.
Qed.

Lemma refusal_by_error_is_listed_witness :
  let keys := ["length"; "width"; "area"; "_scale"] in
  api_get (createApi refuseHidden None None) "_scale" scaled_rectangle
    = Thrown (NotPubliclyAccessible "_scale") scaled_rectangle /\
  exists names o,
    api_getPropNames (createApi_listing keys refuseHidden) scaled_rectangle
      = Returned names scaled_rectangle /\
    api_getAll (createApi_listing keys refuseHidden) scaled_rectangle
      = Returned o scaled_rectangle /\
    "_scale" ∈ names /\
    o !! "_scale" = Some (value (primary (VNum 2) NOOP defaultDidChange)).
Proof.
  intros keys.
  destruct (refusal_by_error_is_listed keys refuseHidden None scaled_rectangle "_scale"
              (NotPubliclyAccessible "_scale") (primary (VNum 2) NOOP defaultDidChange))
    as (Hget & names & o & Hn & Ho & Hin & Hv).
  - split; [refine (bool_decide_unpack _ _); vm_compute; exact Logic.I|].
    vm_compute. reflexivity.
  - reflexivity.
  - vm_compute. reflexivity.
  - split; [exact Hget|]. exists names, o.
    split; [exact Hn|]. split; [exact Ho|]. split; [exact Hin|].
    exact Hv.
Defined.

(** ** Stores built with the defining operations *)

Lemma static_same_trans m0 m1 m2 :
  static_same m0 m1 -> static_same m1 m2 -> static_same m0 m2.
Proof. intros [He1 Hs1] [He2 Hs2]. split; congruence. Qed.

Lemma static_same_defined m0 m n :
  static_same m0 m -> is_Some (_props m0 !! n) <-> is_Some (_props m !! n).
Proof.
  intros [_ Hs]. rewrite <- !elem_of_dom.
  apply (f_equal dom) in Hs. rewrite !dom_fmap_L in Hs. rewrite Hs. reflexivity.
Qed.

Lemma first_event_static fuel propName v dc m m' :
  state_of (first_event fuel propName v dc m) = Some m' -> static_same m m'.
Proof.
  unfold first_event. destruct (dc v VUndefined).
  - intros H.
    pose proof (fire_static_same m fuel [(propName, (v, VUndefined))] m
                  (static_same_refl m)) as Hs.
    unfold _firePropChangeEvent in H.
    destruct (_firePropChangeEvents _ _ m); simpl in H; inversion H; subst; exact Hs.
  - simpl. intros H. inversion H. apply static_same_refl.
Qed.

Lemma pure_check_undefined n : pure (check_undefined n).
Proof.
  apply pure_bind; [apply pure_this|]. intros m.
  destruct (known n m); [apply pure_throw | apply pure_ret].
Qed.

Lemma pure_createUtilizer pv names f : pure (_createUtilizer pv names f).
Proof.
  unfold _createUtilizer.
  apply pure_bind; [apply pure_forEach; intros; apply pure_validate|]. intros _.
  apply pure_bind; [|intros; apply pure_ret].
  apply pure_forEach. intros x. apply pure_bind; [apply pure_this|]. intros m.
  destruct (known x m); [apply pure_ret | apply pure_throw].
Qed.

(** What a defining operation leaves behind, whether it returns or
    throws: the store as it was, or the store it has built followed by
    the cascade of the first change event. *)
Lemma defineProp_outcome fuel propName initialValue vv dc m m' :
  state_of (defineProp fuel propName initialValue vv dc m) = Some m' ->
  m' = m \/
  (known propName m = false /\
   static_same (entered propName (primary initialValue vv dc) m) m').
Proof.
  destruct (known propName m) eqn:Hp.
  - unfold defineProp.
    rewrite (bind_eq_Thrown _ _ _ _ _ (check_undefined_defined _ _ Hp)).
    simpl. intros H. inversion H. left. reflexivity.
  - rewrite defineProp_eq by exact Hp. intros H. right. split; [reflexivity|].
    eapply first_event_static, H.
Qed.

Lemma defineDerivedProp_outcome fuel propName dependsOn calc init dc m m' :
  state_of (defineDerivedProp fuel propName dependsOn calc init dc m) = Some m' ->
  m' = m \/
  (known propName m = false /\
   (forall dep, dep ∈ dependsOn -> known dep m = true) /\
   exists v, static_same (derived_entered propName dependsOn calc v dc m) m').
Proof.
  destruct (known propName m) eqn:Hp.
  { unfold defineDerivedProp.
    rewrite (bind_eq_Thrown _ _ _ _ _ (check_undefined_defined _ _ Hp)).
    simpl. intros H. inversion H. left. reflexivity. }
  destruct (createUtilizer dependsOn calc m) as [u m1|e m1|] eqn:Hu.
  - apply createUtilizer_inv in Hu as (-> & -> & Hdef).
    destruct (current_values_total dependsOn m Hdef) as (vs & Hvs & _).
    rewrite (defineDerivedProp_eq fuel propName dependsOn calc init dc m vs Hp Hvs).
    destruct (if typeof_undefined init then calc vs else Return init) as [v|payload].
    + intros H. right. split; [reflexivity|]. split; [exact Hdef|].
      exists v. eapply first_event_static, H.
    + simpl. intros H. inversion H. left. reflexivity.
  - pose proof (pure_createUtilizer noValidator dependsOn calc m) as Hpure.
    unfold createUtilizer in Hu. rewrite Hu in Hpure. subst m1.
    unfold defineDerivedProp.
    rewrite (bind_eq_Returned _ _ _ _ _ (check_undefined_fresh _ _ Hp)).
    unfold createUtilizer. rewrite (bind_eq_Thrown _ _ _ _ _ Hu).
    simpl. intros H. inversion H. left. reflexivity.
  - pose proof (pure_createUtilizer noValidator dependsOn calc m) as Hpure.
    unfold createUtilizer in Hu. rewrite Hu in Hpure. contradiction.
Qed.

Lemma definePropView_unknown_base fuel v b calc r dc m :
  known v m = false -> known b m = false ->
  definePropView fuel v b calc r dc m = Thrown (UnknownUtilizedProperty b) m.
Proof.
  intros Hfresh Hnone.
  destruct (createUtilizer_unknown [b] (unary calc) m b ltac:(left) Hnone)
    as (k' & Hk' & _ & Hu).
  apply list_elem_of_singleton in Hk' as ->.
  unfold definePropView.
  rewrite (bind_eq_Returned _ _ _ _ _ (check_undefined_fresh _ _ Hfresh)).
  apply bind_eq_Thrown, Hu.
Qed.

Lemma definePropView_outcome fuel v b calc r dc m m' :
  state_of (definePropView fuel v b calc r dc m) = Some m' ->
  m' = m \/
  (known v m = false /\ known b m = true /\
   exists x, static_same (view_entered v b calc r x dc m) m').
Proof.
  destruct (known v m) eqn:Hp.
  { unfold definePropView.
    rewrite (bind_eq_Thrown _ _ _ _ _ (check_undefined_defined _ _ Hp)).
    simpl. intros H. inversion H. left. reflexivity. }
  destruct (known b m) eqn:Hq.
  - destruct (proj2 (read_known b m) Hq) as [base Hbase].
    rewrite (definePropView_eq fuel v b calc r dc m base Hp Hbase).
    destruct (calc base) as [x|payload].
    + intros H. right. split; [reflexivity|]. split; [reflexivity|].
      exists x. eapply first_event_static, H.
    + simpl. intros H. inversion H. left. reflexivity.
  - rewrite (definePropView_unknown_base fuel v b calc r dc m Hp Hq).
    simpl. intros H. inversion H. left. reflexivity.
Qed.

Lemma props_subscribe_all names h m : _props (subscribe_all names h m) = _props m.
Proof. apply props_onAny. Qed.

Lemma defined_entered n p m k :
  is_Some (_props (entered n p m) !! k) <-> k = n \/ is_Some (_props m !! k).
Proof.
  unfold entered. simpl. rewrite lookup_insert_is_Some.
  destruct (decide (n = k)) as [->|Hne]; [tauto|].
  split; [intros [?|[_ ?]]; [contradiction | tauto] | intros [->|?]; [contradiction|tauto]].
Qed.

Lemma defined_derived_entered d deps calc v dc m k :
  is_Some (_props (derived_entered d deps calc v dc m) !! k)
  <-> k = d \/ is_Some (_props m !! k).
Proof. unfold derived_entered. rewrite props_subscribe_all. apply defined_entered. Qed.

Lemma defined_view_entered v b calc r x dc m k :
  is_Some (_props (view_entered v b calc r x dc m) !! k)
  <-> k = v \/ is_Some (_props m !! k).
Proof.
  unfold view_entered. rewrite !props_subscribe_all.
  change (_props (set_triggered v false (entered v (computed x dc) m)))
    with (_props (entered v (computed x dc) m)).
  apply defined_entered.
Qed.

Lemma static_same_known m0 m n : static_same m0 m -> known n m = known n m0.
Proof.
  intros Hs. pose proof (static_same_defined m0 m n Hs) as H. unfold known.
  destruct (_props m0 !! n) as [p|], (_props m !! n) as [q|]; try reflexivity.
  - destruct (proj1 H ltac:(eauto)); discriminate.
  - destruct (proj2 H ltac:(eauto)); discriminate.
Qed.

Lemma listeners_derived_entered ch d deps calc v dc m h :
  h ∈ listeners ch (derived_entered d deps calc v dc m) ->
  h ∈ listeners ch m \/
  (h = RecomputeDerived d (Utilizer deps calc) /\
   exists dep, dep ∈ deps /\ ch = changed dep).
Proof.
  unfold derived_entered. rewrite listeners_subscribe_all.
  change (listeners ch (entered d (computed v dc) m)) with (listeners ch m).
  intros H. apply elem_of_app in H as [H|H]; [left; exact H|]. right.
  apply elem_of_replicate in H as [-> Hn]. split; [reflexivity|].
  destruct (filter (fun n => changed n = ch) deps) as [|dep l] eqn:Hf; [contradiction|].
  assert (Hin : dep ∈ filter (fun n => changed n = ch) deps) by (rewrite Hf; left).
  apply list_elem_of_filter in Hin as [Heq Hin]. exists dep. auto.
Qed.

Lemma listeners_view_entered_cases ch v b calc r x dc m h :
  h ∈ listeners ch (view_entered v b calc r x dc m) ->
  h ∈ listeners ch m \/
  (h = RecomputeView v (Utilizer [b] (unary calc)) /\ ch = changed b) \/
  (h = ReduceBase v b r /\ ch = changed v).
Proof.
  rewrite listeners_view_entered. intros H.
  apply elem_of_app in H as [H|H]; [left; exact H|]. right.
  apply elem_of_app in H as [H|H].
  - left. case_decide; [|inversion H]. apply list_elem_of_singleton in H. auto.
  - right. case_decide; [|inversion H]. apply list_elem_of_singleton in H. auto.
Qed.

Lemma connected_new : connected newPropsModel.
Proof.
  intros ch h H. unfold listeners in H. simpl in H. rewrite lookup_empty in H. inversion H.
Qed.

Lemma connected_static m0 m : static_same m0 m -> connected m0 -> connected m.
Proof.
  intros Hs Hc ch h Hh. rewrite (static_same_listeners _ _ _ Hs) in Hh.
  destruct (Hc ch h Hh) as ((p & -> & Hp) & Ht & Hr).
  split; [|split].
  - exists p. split; [reflexivity|]. rewrite (static_same_known m0 m p Hs). exact Hp.
  - rewrite (static_same_known m0 m _ Hs). exact Ht.
  - eapply Forall_impl; [exact Hr|]. intros n Hn.
    rewrite (static_same_known m0 m n Hs). exact Hn.
Qed.

Lemma connected_grow m m1 :
  (forall k, is_Some (_props m !! k) -> is_Some (_props m1 !! k)) ->
  forall ch h, h ∈ listeners ch m -> connected m ->
    (exists propName, ch = changed propName /\ known propName m1 = true) /\
    known (target h) m1 = true /\
    Forall (fun n => known n m1 = true) (reads h).
Proof.
  intros Hgrow ch h Hh Hc. destruct (Hc ch h Hh) as ((p & -> & Hp) & Ht & Hr).
  split; [exists p; split; [reflexivity|]; eapply known_kept; eauto|].
  split; [eapply known_kept; eauto|].
  eapply Forall_impl; [exact Hr|]. intros n Hn. eapply known_kept; eauto.
Qed.

Lemma connected_entered n p m : connected m -> connected (entered n p m).
Proof.
  intros Hc ch h Hh. change (listeners ch (entered n p m)) with (listeners ch m) in Hh.
  apply (connected_grow m); [|exact Hh | exact Hc].
  intros k Hk. apply defined_entered. right. exact Hk.
Qed.

Lemma connected_derived_entered d deps calc v dc m :
  (forall dep, dep ∈ deps -> known dep m = true) ->
  connected m -> connected (derived_entered d deps calc v dc m).
Proof.
  intros Hdeps Hc ch h Hh.
  assert (Hgrow : forall k, is_Some (_props m !! k) ->
            is_Some (_props (derived_entered d deps calc v dc m) !! k))
    by (intros k Hk; apply defined_derived_entered; right; exact Hk).
  apply listeners_derived_entered in Hh as [Hh|(-> & dep & Hdep & ->)].
  - apply (connected_grow m); assumption.
  - split; [|split].
    + exists dep. split; [reflexivity|]. eapply known_kept; [exact Hgrow|]. apply Hdeps, Hdep.
    + apply known_defined, defined_derived_entered. left. reflexivity.
    + apply Forall_forall. intros n Hn. eapply known_kept; [exact Hgrow|]. apply Hdeps, Hn.
Qed.

Lemma connected_view_entered v b calc r x dc m :
  known b m = true ->
  connected m -> connected (view_entered v b calc r x dc m).
Proof.
  intros Hb Hc ch h Hh.
  assert (Hgrow : forall k, is_Some (_props m !! k) ->
            is_Some (_props (view_entered v b calc r x dc m) !! k))
    by (intros k Hk; apply defined_view_entered; right; exact Hk).
  pose proof (known_kept m _ b Hgrow Hb) as Hb'.
  apply listeners_view_entered_cases in Hh as [Hh|[[-> ->]|[-> ->]]].
  - apply (connected_grow m); assumption.
  - split; [|split].
    + exists b. split; [reflexivity | exact Hb'].
    + apply known_defined, defined_view_entered. left. reflexivity.
    + simpl. constructor; [exact Hb' | constructor].
  - split; [|split].
    + exists v. split; [reflexivity|].
      apply known_defined, defined_view_entered. left. reflexivity.
    + exact Hb'.
    + constructor.
Qed.

Lemma set_outcome_static fuel pv args m m' :
  state_of (_set fuel pv args m) = Some m' -> static_same m m'.
Proof.
  intros Hm'. pose proof (set_static_same fuel pv args m m (static_same_refl m)) as H.
  destruct (_set fuel pv args m); simpl in Hm'; inversion Hm'; subst; exact H.
Qed.

(** Every store a program builds is connected. *)
Lemma built_connected allowed m : built allowed m -> connected m.
Proof.
  induction 1 as [|fuel n init vv dc m m' _ IH H
                  |fuel n deps calc init dc m m' _ IH H
                  |fuel v b calc r dc m m' _ IH _ H
                  |fuel pv args m m' _ IH H].
  - apply connected_new.
  - apply defineProp_outcome in H as [->|[_ Hs]]; [exact IH|].
    eapply connected_static; [exact Hs|]. apply connected_entered, IH.
  - apply defineDerivedProp_outcome in H as [->|(_ & Hdeps & v & Hs)]; [exact IH|].
    eapply connected_static; [exact Hs|]. apply connected_derived_entered; assumption.
  - apply definePropView_outcome in H as [->|(_ & Hb & x & Hs)]; [exact IH|].
    eapply connected_static; [exact Hs|]. apply connected_view_entered; assumption.
  - eapply connected_static; [|exact IH]. eapply set_outcome_static, H.
Qed.

(** ** No member access on [undefined] *)

Lemma not_known_ordinary n m : known n m = false -> ordinary n.
Proof. unfold known, ordinary. destruct (_props m !! n); [discriminate | auto]. Qed.

Lemma ordinary_targets_static m0 m :
  static_same m0 m -> ordinary_targets m0 -> ordinary_targets m.
Proof.
  intros Hs Ho ch h Hh. rewrite (static_same_listeners _ _ _ Hs) in Hh. eapply Ho, Hh.
Qed.

Lemma ordinary_targets_derived_entered d deps calc v dc m :
  known d m = false ->
  ordinary_targets m -> ordinary_targets (derived_entered d deps calc v dc m).
Proof.
  intros Hd Ho ch h Hh.
  apply listeners_derived_entered in Hh as [Hh|(-> & _)]; [eapply Ho, Hh|].
  simpl. eapply not_known_ordinary, Hd.
Qed.

Lemma ordinary_targets_view_entered v b calc r x dc m :
  known v m = false -> ordinary b ->
  ordinary_targets m -> ordinary_targets (view_entered v b calc r x dc m).
Proof.
  intros Hv Hb Ho ch h Hh.
  apply listeners_view_entered_cases in Hh as [Hh|[[-> _]|[-> _]]]; [eapply Ho, Hh| |].
  - simpl. eapply not_known_ordinary, Hv.
  - exact Hb.
Qed.

(** In a store built with views of ordinary names, the listeners write
    under ordinary names. *)
Lemma built_ordinary_targets m : built ordinary_base m -> ordinary_targets m.
Proof.
  induction 1 as [|fuel n init vv dc m m' _ IH H
                  |fuel n deps calc init dc m m' _ IH H
                  |fuel v b calc r dc m m' _ IH Hb H
                  |fuel pv args m m' _ IH H].
  - intros ch h H. unfold listeners in H. simpl in H. rewrite lookup_empty in H. inversion H.
  - apply defineProp_outcome in H as [->|[_ Hs]]; [exact IH|].
    eapply ordinary_targets_static; [exact Hs|]. exact IH.
  - apply defineDerivedProp_outcome in H as [->|(Hd & _ & v & Hs)]; [exact IH|].
    eapply ordinary_targets_static; [exact Hs|].
    apply ordinary_targets_derived_entered; assumption.
  - apply definePropView_outcome in H as [->|(Hv & _ & x & Hs)]; [exact IH|].
    eapply ordinary_targets_static; [exact Hs|].
    apply ordinary_targets_view_entered; assumption.
  - eapply ordinary_targets_static; [|exact IH]. eapply set_outcome_static, H.
Qed.

Lemma pure_no_TypeError m0 {A} (c : M A) :
  pure c ->
  (forall m e m', static_same m0 m -> c m = Thrown e m' -> e <> TypeError) ->
  no_TypeError m0 c.
Proof.
  intros Hpure He m Hm. specialize (Hpure m). specialize (He m).
  destruct (c m) as [a m1|e m1|]; [subst; exact Hm | | contradiction].
  subst m1. split; [eapply He; eauto | exact Hm].
Qed.

Lemma no_TypeError_bind m0 {A B} (c : M A) (k : A -> M B) :
  no_TypeError m0 c -> (forall a, no_TypeError m0 (k a)) -> no_TypeError m0 (bind c k).
Proof. intros Hc Hk. eapply hoare_bind; [exact Hc | exact Hk]. Qed.

Lemma static_same_assigned m0 propValues m :
  static_same m0 m -> static_same m0 (assigned propValues m).
Proof.
  revert m. induction propValues as [|[k v] rest IH]; intros m Hs; [exact Hs|].
  unfold assigned in *. simpl. apply IH, static_same_assign, Hs.
Qed.

(** Under an ordinary name [_props] has a property of the store or
    nothing. *)
Lemma known_ordinary n m : ordinary n -> known n m = true -> is_Some (_props m !! n).
Proof.
  unfold ordinary, known. intros Ho. destruct (_props m !! n); [eauto|]. congruence.
Qed.

Section Careful.
Variable m0 : PropsModel.
Hypothesis m0_connected : connected m0.
Hypothesis m0_ordinary : ordinary_targets m0.

Lemma call_utilizer_careful u :
  Forall (fun n => known n m0 = true) (propNames u) ->
  no_TypeError m0 (call_utilizer u).
Proof.
  intros Hdef. apply pure_no_TypeError; [apply pure_call_utilizer|].
  intros m e m' Hs H. destruct u as [names f]. simpl in Hdef.
  destruct (current_values_total names m) as (vs & Hvs & _).
  { intros n Hn. rewrite (static_same_known m0 m n Hs).
    rewrite Forall_forall in Hdef. apply Hdef, Hn. }
  rewrite (call_utilizer_current _ _ _ _ Hvs) in H.
  destruct (f vs); simpl in H; inversion H. discriminate.
Qed.

Section Nested.
Variable set_rec : propValidator -> setArgs -> M unit.
Hypothesis set_rec_careful :
  forall t v, ordinary t -> no_TypeError m0 (set_rec noValidator (SetOne t v)).

Lemma handler_careful ch h p n o :
  h ∈ listeners ch m0 -> no_TypeError m0 (run_handler set_rec h p n o).
Proof.
  intros Hh. destruct (m0_connected ch h Hh) as (_ & _ & Hreads).
  pose proof (m0_ordinary ch h Hh) as Ht.
  destruct h as [t u|w u|w b r]; simpl in Hreads, Ht; unfold run_handler.
  - apply no_TypeError_bind; [apply call_utilizer_careful, Hreads|].
    intros v. apply set_rec_careful, Ht.
  - intros m Hm. change (bind this ?k m) with (k m m). cbv beta.
    destruct (is_triggered w m); [exact Hm|]. revert m Hm.
    apply no_TypeError_bind; [apply call_utilizer_careful, Hreads|].
    intros v. apply set_rec_careful, Ht.
  - apply no_TypeError_bind.
    { apply pure_no_TypeError; [apply pure_get|]. intros m e m' _ H.
      rewrite get_unfold in H. unfold noValidator in H.
      destruct (read b m); inversion H. discriminate. }
    intros base. apply no_TypeError_bind.
    { apply pure_no_TypeError; [apply pure_this|]. intros m e m' _ H. discriminate. }
    intros m1. apply no_TypeError_bind.
    { apply pure_no_TypeError; [apply pure_complete|]. intros m e m' _ H.
      destruct (r _ n base); simpl in H; inversion H. discriminate. }
    intros x. apply no_TypeError_bind.
    { intros m Hm. exact Hm. }
    intros u1. apply no_TypeError_bind; [apply set_rec_careful, Ht|].
    intros u2 m Hm. exact Hm.
Qed.

Lemma fire_careful events :
  no_TypeError m0 (_firePropChangeEvents set_rec events).
Proof.
  intros m Hm. unfold _firePropChangeEvents.
  change (bind this ?k m) with (k m m). cbv beta.
  assert (Hloop : no_TypeError m0
    (forEach events (fun '(propName, (newValue, oldValue)) =>
       update (set_firedProps (Set_add propName)) >>
       emit_changed set_rec propName newValue oldValue))).
  { apply hoare_forEach. intros [p [n o]] _ m1 Hm1.
    change ((update (set_firedProps (Set_add p)) >> emit_changed set_rec p n o) m1)
      with (forEach (listeners (changed p) m1)
              (fun h => run_handler set_rec h p n o) (announce m1 (p, (n, o)))).
    apply (hoare_forEach (static_same m0)); [|exact Hm1].
    intros h Hh. apply (handler_careful (changed p)).
    rewrite <- (static_same_listeners m0 m1 _ Hm1). exact Hh. }
  specialize (Hloop m Hm). unfold bind at 1.
  destruct (forEach events _ m) as [[] m1|e m1|]; [|exact Hloop|exact Logic.I].
  case_bool_decide; exact Hloop.
Qed.

Lemma set_body_careful pv args :
  careful pv -> Forall ordinary (args_names args) ->
  no_TypeError m0 (_set_body set_rec pv args).
Proof.
  intros Hpv Hord m Hm. destruct args as [p v|propValues].
  - rewrite set_one_unfold. simpl in Hord. inversion Hord as [|? ? Hp _]; subst.
    destruct (_props m !! p) as [q|] eqn:Hq.
    2:{ unfold ordinary in Hp. rewrite Hp. split; [discriminate | exact Hm]. }
    destruct (pv m p) as [e|] eqn:He.
    { split; [|exact Hm]. intros ->. apply (Hpv m p); [eauto | exact He]. }
    destruct (valueValidator q v); [split; [discriminate | exact Hm]|].
    destruct (didChange q v (value q)); [|apply static_same_assign, Hm].
    apply fire_careful. apply static_same_assign, Hm.
  - unfold _set_body. simpl in Hord. rewrite Forall_forall in Hord.
    destruct (forEach_pure_result propValues.*1 check_exists m pure_check_exists)
      as [[Hex Hall]|(k & e0 & _ & Hthrow & Hex)].
    2:{ rewrite (bind_eq_Thrown _ _ _ _ _ Hex).
        apply check_exists_Thrown in Hthrow as [_ ->]. split; [discriminate | exact Hm]. }
    rewrite (bind_eq_Returned _ _ _ _ _ Hex).
    assert (Hk : forall k, k ∈ propValues.*1 -> is_Some (_props m !! k)).
    { intros k Hin. apply known_ordinary; [apply Hord, Hin|].
      apply check_exists_Returned, Hall, Hin. }
    destruct (forEach_pure_result propValues.*1 (validate pv) m (pure_validate pv))
      as [[Hauth _]|(k & e0 & Hin & Hthrow & Hauth)].
    2:{ rewrite (bind_eq_Thrown _ _ _ _ _ Hauth). apply validate_Thrown in Hthrow.
        split; [|exact Hm]. intros ->. apply (Hpv m k); [apply Hk, Hin | exact Hthrow]. }
    rewrite (bind_eq_Returned _ _ _ _ _ Hauth).
    destruct (forEach_pure_result propValues check_value m pure_check_value)
      as [[Hval _]|([k v] & e0 & Hin & Hthrow & Hval)].
    2:{ rewrite (bind_eq_Thrown _ _ _ _ _ Hval). split; [|exact Hm].
        destruct (Hk k) as [q Hq].
        { apply list_elem_of_fmap. exists (k, v). auto. }
        apply (check_value_Thrown _ _ _ _ _ Hq) in Hthrow as (payload & _ & ->).
        discriminate. }
    rewrite (bind_eq_Returned _ _ _ _ _ Hval).
    rewrite (bind_eq_Returned _ _ _ _ _ (assign_all_eq _ [] _ Hk)). cbv beta.
    match goal with |- context [filterM ?l _] =>
      destruct (filterM_known l (assigned propValues m)) as [r Hr]
    end.
    { intros k Hin. rewrite imap_entry_names in Hin.
      destruct (Hk k Hin) as [q Hq].
      destruct (props_assigned_lookup propValues m k q Hq) as (q' & Hq' & _). eauto. }
    rewrite (bind_eq_Returned _ _ _ _ _ Hr).
    apply fire_careful, static_same_assigned, Hm.
Qed.
End Nested.

Lemma noValidator_careful : careful noValidator.
Proof. intros m n _ H. discriminate. Qed.

Lemma set_careful fuel pv args :
  careful pv -> Forall ordinary (args_names args) ->
  no_TypeError m0 (_set fuel pv args).
Proof.
  revert pv args. induction fuel as [|fuel IH]; intros pv args Hpv Hord.
  - intros m Hm. exact Logic.I.
  - rewrite _set_S. apply set_body_careful; [|exact Hpv | exact Hord].
    intros t v Ht. apply IH; [apply noValidator_careful|].
    constructor; [exact Ht | constructor].
Qed.
End Careful.

Lemma standard_write_validator_careful : careful createStandardWriteValidator.
Proof.
  intros m n [p Hp]. unfold createStandardWriteValidator. rewrite Hp.
  destruct (derived p); discriminate.
Qed.

Lemma public_write_validator_careful :
  careful (fun m propName =>
             match assertPropNameIsPublic m propName with
             | Some e => Some e
             | None => createStandardWriteValidator m propName
             end).
Proof.
  intros m n Hn. unfold assertPropNameIsPublic.
  destruct (propNameIsPublic n); [|discriminate].
  apply standard_write_validator_careful, Hn.
Qed.

Lemma first_event_careful fuel propName v dc m e m' :
  connected m -> ordinary_targets m ->
  first_event fuel propName v dc m = Thrown e m' -> e <> TypeError.
Proof.
  intros Hc Ho H. unfold first_event in H. destruct (dc v VUndefined); [|discriminate].
  pose proof (fire_careful m Hc Ho (_set fuel)
                ltac:(intros t x Ht; apply set_careful;
                      [exact Hc | exact Ho | apply noValidator_careful
                      | constructor; [exact Ht | constructor]])
                [(propName, (v, VUndefined))] m (static_same_refl m)) as Hf.
  unfold _firePropChangeEvent in H. rewrite H in Hf. exact (proj1 Hf).
Qed.

(** X15.  The code reads members of [this._props[name]] in places where
    nothing says that a record is there: the write validator of the
    standard facades reads [.derived], the listeners read [.value], [set]
    calls [.valueValidator].  The existence checks that come first, and the
    fact that nothing removes a property, make these reads safe for every
    name but those of the members of [Object.prototype].  In a store a
    program has built with the defining operations and [set], whatever
    their arguments and whether they returned or threw, but with no view
    of such a name: no call of the store's [set] or of [set] through
    either standard facade that names none of them, and no defining
    operation (a view of such a name apart), throws a [TypeError]. *)
Theorem built_store_reads_no_missing_record m :
  built ordinary_base m ->
  (forall fuel args e m', Forall ordinary (args_names args) ->
     set fuel args m = Thrown e m' -> e <> TypeError) /\
  (forall fuel args e m', Forall ordinary (args_names args) ->
     api_set getStandardPublicApi fuel args m = Thrown e m' -> e <> TypeError) /\
  (forall fuel args e m', Forall ordinary (args_names args) ->
     api_set getStandardPrivateApi fuel args m = Thrown e m' -> e <> TypeError) /\
  (forall fuel propName initialValue vv dc e m',
     defineProp fuel propName initialValue vv dc m = Thrown e m' -> e <> TypeError) /\
  (forall fuel propName dependsOn calc init dc e m',
     defineDerivedProp fuel propName dependsOn calc init dc m = Thrown e m' ->
     e <> TypeError) /\
  (forall fuel viewName viewOf calc r dc e m', ordinary viewOf ->
     definePropView fuel viewName viewOf calc r dc m = Thrown e m' -> e <> TypeError).
Proof.
  intros Hb. pose proof (built_connected _ m Hb) as Hc.
  pose proof (built_ordinary_targets m Hb) as Ho.
  assert (Hset : forall fuel pv args e m', careful pv ->
            Forall ordinary (args_names args) ->
            _set fuel pv args m = Thrown e m' -> e <> TypeError).
  { intros fuel pv args e m' Hpv Hord H.
    pose proof (set_careful m Hc Ho fuel pv args Hpv Hord m (static_same_refl m)) as Hs.
    rewrite H in Hs. exact (proj1 Hs). }
  split; [|split; [|split; [|split; [|split]]]].
  - intros fuel args e m'. apply Hset, noValidator_careful.
  - intros fuel args e m'. apply Hset, public_write_validator_careful.
  - intros fuel args e m'. apply Hset, standard_write_validator_careful.
  - intros fuel n init vv dc e m' H.
    destruct (known n m) eqn:Hp.
    + unfold defineProp in H.
      rewrite (bind_eq_Thrown _ _ _ _ _ (check_undefined_defined _ _ Hp)) in H.
      inversion H. discriminate.
    + rewrite defineProp_eq in H by exact Hp.
      eapply first_event_careful; [| |exact H]; [apply connected_entered, Hc|].
      exact Ho.
  - intros fuel n deps calc init dc e m' H.
    destruct (known n m) eqn:Hp.
    { unfold defineDerivedProp in H.
      rewrite (bind_eq_Thrown _ _ _ _ _ (check_undefined_defined _ _ Hp)) in H.
      inversion H. discriminate. }
    destruct (decide (Forall (fun dep => known dep m = true) deps)) as [Hdef|Hndef].
    + rewrite Forall_forall in Hdef.
      destruct (current_values_total deps m Hdef) as (vs & Hvs & _).
      rewrite (defineDerivedProp_eq fuel n deps calc init dc m vs Hp Hvs) in H.
      destruct (if typeof_undefined init then calc vs else Return init) as [v|payload].
      * eapply first_event_careful; [| |exact H].
        -- apply connected_derived_entered; assumption.
        -- apply ordinary_targets_derived_entered; assumption.
      * inversion H. discriminate.
    + apply not_Forall_Exists in Hndef; [|intros x; apply _].
      apply Exists_exists in Hndef as (k & Hk & Hnone).
      assert (Hknone : known k m = false).
      { unfold compose in Hnone. destruct (known k m); [|reflexivity].
        exfalso. apply Hnone. reflexivity. }
      destruct (createUtilizer_unknown deps calc m k Hk Hknone) as (k' & _ & _ & Hu).
      unfold defineDerivedProp in H.
      rewrite (bind_eq_Returned _ _ _ _ _ (check_undefined_fresh _ _ Hp)) in H.
      rewrite (bind_eq_Thrown _ _ _ _ _ Hu) in H. inversion H. discriminate.
  - intros fuel v b calc r dc e m' Hord H.
    destruct (known v m) eqn:Hp.
    { unfold definePropView in H.
      rewrite (bind_eq_Thrown _ _ _ _ _ (check_undefined_defined _ _ Hp)) in H.
      inversion H. discriminate. }
    destruct (known b m) eqn:Hq.
    + destruct (proj2 (read_known b m) Hq) as [base Hbase].
      rewrite (definePropView_eq fuel v b calc r dc m base Hp Hbase) in H.
      destruct (calc base) as [x|payload].
      * eapply first_event_careful; [| |exact H].
        -- apply connected_view_entered; [exact Hq | exact Hc].
        -- apply ordinary_targets_view_entered; assumption.
      * inversion H. discriminate.
    + rewrite (definePropView_unknown_base fuel v b calc r dc m Hp Hq) in H.
      inversion H. discriminate.
Qed.

Lemma built_weaken (allowed allowed' : string -> PropsModel -> Prop) m :
  (forall b m, allowed b m -> allowed' b m) -> built allowed m -> built allowed' m.
Proof.
  intros Hw. induction 1.
  - apply built_new.
  - eapply built_defineProp; eauto.
  - eapply built_defineDerivedProp; eauto.
  - eapply built_definePropView; eauto.
  - eapply built_set; eauto.
Qed.

(** The number, the view of its magnitude and the double of the view are
    built with the defining operations. *)
Lemma built_magnitude_doubled : built plain_base magnitude_doubled.
Proof.
  unfold magnitude_doubled.
  apply (built_defineDerivedProp plain_base 4 "double" ["size"] twice VUndefined
           defaultDidChange magnitude); [|vm_compute; reflexivity].
  unfold magnitude.
  apply (built_definePropView plain_base 4 "size" "number" magnitude_of
           (fun _ v _ => Return v) defaultDidChange
           (after (defineProp 4 "number" (VNum 1) NOOP defaultDidChange) newPropsModel)).
  - apply (built_defineProp plain_base 4 "number" (VNum 1) NOOP defaultDidChange
             newPropsModel); [apply built_new | vm_compute; reflexivity].
  - unfold plain_base, is_view. refine (bool_decide_unpack _ _). vm_compute. exact Logic.I.
  - vm_compute. reflexivity.
Qed.

Lemma built_magnitude_doubled_ordinary : built ordinary_base magnitude_doubled.
Proof.
  unfold magnitude_doubled.
  apply (built_defineDerivedProp ordinary_base 4 "double" ["size"] twice VUndefined
           defaultDidChange magnitude); [|vm_compute; reflexivity].
  unfold magnitude.
  apply (built_definePropView ordinary_base 4 "size" "number" magnitude_of
           (fun _ v _ => Return v) defaultDidChange
           (after (defineProp 4 "number" (VNum 1) NOOP defaultDidChange) newPropsModel)).
  - apply (built_defineProp ordinary_base 4 "number" (VNum 1) NOOP defaultDidChange
             newPropsModel); [apply built_new | vm_compute; reflexivity].
  - reflexivity.
  - vm_compute. reflexivity.
Qed.

Lemma built_store_reads_no_missing_record_witness :
  (forall fuel args e m', Forall ordinary (args_names args) ->
     set fuel args magnitude_doubled = Thrown e m' -> e <> TypeError) /\
  (forall fuel args e m', Forall ordinary (args_names args) ->
     api_set getStandardPublicApi fuel args magnitude_doubled = Thrown e m' ->
     e <> TypeError) /\
  (forall fuel args e m', Forall ordinary (args_names args) ->
     api_set getStandardPrivateApi fuel args magnitude_doubled = Thrown e m' ->
     e <> TypeError) /\
  (forall fuel propName initialValue vv dc e m',
     defineProp fuel propName initialValue vv dc magnitude_doubled = Thrown e m' ->
     e <> TypeError) /\
  (forall fuel propName dependsOn calc init dc e m',
     defineDerivedProp fuel propName dependsOn calc init dc magnitude_doubled
     = Thrown e m' -> e <> TypeError) /\
  (forall fuel viewName viewOf calc r dc e m', ordinary viewOf ->
     definePropView fuel viewName viewOf calc r dc magnitude_doubled = Thrown e m' ->
     e <> TypeError).
Proof.
  apply (built_store_reads_no_missing_record magnitude_doubled).
  apply built_magnitude_doubled_ordinary.
Defined.

(** ** Cascades in built stores end *)

Lemma ranked_of_listeners height A views m :
  (forall ch h, h ∈ listeners ch m -> ranked_on height A views ch h) ->
  ranked height A views m.
Proof.
  intros H. unfold ranked. apply map_Forall_lookup_2. intros ch hs Hhs.
  apply Forall_forall. intros h Hh. apply H. eapply lookup_listeners; eauto.
Qed.

Lemma is_view_static m0 m v : static_same m0 m -> is_view v m0 -> is_view v m.
Proof. intros Hs. unfold is_view. rewrite (static_same_listeners _ _ _ Hs). auto. Qed.

Lemma is_view_grow v m m1 :
  (forall ch h, h ∈ listeners ch m -> h ∈ listeners ch m1) -> is_view v m -> is_view v m1.
Proof.
  intros Hgrow. unfold is_view. rewrite !Exists_exists.
  intros (h & Hh & Hw). exists h. split; [apply Hgrow, Hh | exact Hw].
Qed.

Lemma layered_new : layered (fun _ => 0) 0 [] newPropsModel.
Proof.
  split; [apply connected_new|]. split; [intros; lia|]. split.
  - intros ch h H. unfold listeners in H. simpl in H. rewrite lookup_empty in H. inversion H.
  - intros v Hv. inversion Hv.
Qed.

Lemma layered_static height A views m0 m :
  static_same m0 m -> layered height A views m0 -> layered height A views m.
Proof.
  intros Hs (Hc & Hb & Hr & Hv). split; [eapply connected_static; eauto|].
  split; [exact Hb|]. split.
  - intros ch h Hh. rewrite (static_same_listeners _ _ _ Hs) in Hh. apply Hr, Hh.
  - intros v Hin. destruct (Hv v Hin) as [Hview Hdef]. split.
    + eapply is_view_static; eauto.
    + apply (static_same_defined m0 m v Hs), Hdef.
Qed.

Lemma layered_entered height A views n p m :
  layered height A views m -> layered height A views (entered n p m).
Proof.
  intros (Hc & Hb & Hr & Hv). split; [apply connected_entered, Hc|].
  split; [exact Hb|]. split; [exact Hr|].
  intros v Hin. destruct (Hv v Hin) as [Hview Hdef]. split; [exact Hview|].
  apply defined_entered. right. exact Hdef.
Qed.

Lemma below_le d height A e : (forall e, height e <= A) -> below d height e <= S A.
Proof. intros Hb. unfold below. case_decide; [lia|]. specialize (Hb e). lia. Qed.

Lemma below_defined d height m p :
  known d m = false -> known p m = true ->
  below d height (changed p) = S (height (changed p)).
Proof.
  intros Hd Hq. unfold below. rewrite decide_False; [reflexivity|].
  intros Heq. apply changed_inj in Heq. subst. congruence.
Qed.

(** A listener of the store before the definition of [d] follows the
    heights after it. *)
Lemma ranked_on_below d height A views views' ch h m :
  known d m = false ->
  connected m ->
  (forall e, height e <= A) ->
  (forall v, v ∈ views' -> v = d \/ v ∈ views) ->
  (forall v, v ∈ views -> v ∈ views') ->
  h ∈ listeners ch m ->
  ranked_on height A views ch h ->
  ranked_on (below d height) (S A) views' ch h.
Proof.
  intros Hfresh Hc Hb Hsub Hsup Hh Hr.
  destruct (Hc ch h Hh) as ((p & -> & Hp) & Ht & _).
  assert (Htd : target h <> d) by (intros Heq; rewrite Heq in Ht; congruence).
  pose proof (below_defined d height m p Hfresh Hp) as Hhp.
  destruct h as [t u|w u|w b r]; simpl in *.
  - destruct Hr as [Hlt Hnv]. rewrite Hhp, (below_defined d height m t Hfresh Ht).
    split; [lia|]. intros Hin. apply Hsub in Hin as [?|?]; contradiction.
  - rewrite Hhp, (below_defined d height m w Hfresh Ht). lia.
  - destruct Hr as (Hch & Hw & Hnb & Hle).
    split; [exact Hch|]. split; [apply Hsup, Hw|]. split.
    + intros Hin. apply Hsub in Hin as [?|?]; contradiction.
    + apply below_le, Hb.
Qed.

Lemma layered_derived_entered height A views d deps calc v dc m :
  known d m = false ->
  (forall dep, dep ∈ deps -> known dep m = true) ->
  layered height A views m ->
  layered (below d height) (S A) views (derived_entered d deps calc v dc m).
Proof.
  intros Hfresh Hdeps (Hc & Hb & Hr & Hv).
  split; [apply connected_derived_entered; assumption|].
  split; [intros e; apply below_le, Hb|]. split.
  - intros ch h Hh. apply listeners_derived_entered in Hh as [Hh|(-> & dep & Hdep & ->)].
    + apply (ranked_on_below d height A views views ch h m); auto.
    + simpl. rewrite (below_defined d height m dep Hfresh (Hdeps dep Hdep)).
      unfold below at 1. rewrite decide_True by reflexivity. split; [lia|].
      intros Hin. destruct (Hv d Hin) as [_ Hq]. apply known_defined in Hq. congruence.
  - intros w Hin. destruct (Hv w Hin) as [Hview Hdef]. split.
    + eapply is_view_grow; [|exact Hview]. intros ch h Hh.
      unfold derived_entered. rewrite listeners_subscribe_all.
      apply elem_of_app. left. exact Hh.
    + apply defined_derived_entered. right. exact Hdef.
Qed.

Lemma layered_view_entered height A views v b calc r x dc m :
  known v m = false ->
  known b m = true ->
  ~ is_view b m ->
  layered height A views m ->
  layered (below v height) (S A) (v :: views) (view_entered v b calc r x dc m).
Proof.
  intros Hfresh Hbdef Hplain (Hc & Hb & Hr & Hv).
  assert (Hbv : b <> v) by (intros ->; congruence).
  assert (Hbviews : b ∉ views) by (intros Hin; apply Hplain, (Hv b Hin)).
  split; [apply connected_view_entered; assumption|].
  split; [intros e; apply below_le, Hb|]. split.
  - intros ch h Hh. apply listeners_view_entered_cases in Hh as [Hh|[[-> ->]|[-> ->]]].
    + apply (ranked_on_below v height A views (v :: views) ch h m); auto.
      * intros w Hw. apply elem_of_cons in Hw. exact Hw.
      * intros w Hw. right. exact Hw.
    + simpl. rewrite (below_defined v height m b Hfresh Hbdef).
      unfold below. rewrite decide_True by reflexivity. lia.
    + simpl. split; [reflexivity|]. split; [left|]. split.
      * intros Hin. apply elem_of_cons in Hin as [?|?]; contradiction.
      * apply below_le, Hb.
  - intros w Hin. apply elem_of_cons in Hin as [->|Hin].
    + split.
      * unfold is_view. rewrite listeners_view_entered.
        rewrite (decide_True (P := changed v = changed v)) by reflexivity.
        apply Exists_app. right. apply Exists_app. right. constructor. reflexivity.
      * apply defined_view_entered. left. reflexivity.
    + destruct (Hv w Hin) as [Hview Hdef]. split.
      * eapply is_view_grow; [|exact Hview]. intros ch h Hh.
        rewrite listeners_view_entered. apply elem_of_app. left. exact Hh.
      * apply defined_view_entered. right. exact Hdef.
Qed.

(** A store built with views of plain properties only has its listeners
    in layers. *)
Lemma built_layered m :
  built plain_base m -> exists height A views, layered height A views m.
Proof.
  induction 1 as [|fuel n init vv dc m m' _ IH H
                  |fuel n deps calc init dc m m' _ IH H
                  |fuel v b calc r dc m m' _ IH Hplain H
                  |fuel pv args m m' _ IH H].
  - exists (fun _ => 0), 0, []. apply layered_new.
  - destruct IH as (height & A & views & Hl).
    apply defineProp_outcome in H as [->|[_ Hs]]; [eauto|].
    exists height, A, views. eapply layered_static; [exact Hs|]. apply layered_entered, Hl.
  - destruct IH as (height & A & views & Hl).
    apply defineDerivedProp_outcome in H as [->|(Hfresh & Hdeps & v & Hs)]; [eauto|].
    exists (below n height), (S A), views. eapply layered_static; [exact Hs|].
    apply layered_derived_entered; assumption.
  - destruct IH as (height & A & views & Hl).
    apply definePropView_outcome in H as [->|(Hfresh & Hb & x & Hs)]; [eauto|].
    exists (below v height), (S A), (v :: views). eapply layered_static; [exact Hs|].
    apply layered_view_entered; assumption.
  - destruct IH as (height & A & views & Hl).
    exists height, A, views. eapply layered_static; [|exact Hl].
    eapply set_outcome_static, H.
Qed.

Lemma fire_depth_bounded height A views fuel events m :
  ranked height A views m ->
  Forall (fun p => length views * (A + 1) + height (changed p) <= fuel) events.*1 ->
  _firePropChangeEvents (_set fuel) events m <> Diverged.
Proof.
  intros Hr Hok.
  assert (Hnone : ([] : list string) ⊆ views) by (intros y Hy; inversion Hy).
  assert (Hm : raised [] m m).
  { split; [apply static_same_refl|]. intros w Hw. inversion Hw. }
  pose proof (keeps_fire False (raised [] m)
    (fun p => depth height A views [] p <= fuel)
    ltac:(intros p n o m1 _ H; exact H)
    ltac:(intros m1 m2 _ _ H; exact H)
    (_set fuel)) as Hfire.
  assert (Hhandler : forall p n o m1 h,
            depth height A views [] p <= fuel -> raised [] m m1 ->
            h ∈ listeners (changed p) m1 ->
            keeps False (raised [] m) (run_handler (_set fuel) h p n o)).
  { intros p n o m1 h Hd Hm1 Hh.
    apply (handler_bounded height A views m Hr (_set fuel) fuel) with (m1 := m1); auto.
    - intros up pv t v Hup Ht Hdt. destruct fuel as [|f]; [lia|].
      apply (set_bounded height A views m Hr f up pv (SetOne t v) Hup).
      constructor; [|constructor]. split; [exact Ht | lia].
    - intros Hin. inversion Hin. }
  specialize (Hfire Hhandler events).
  assert (Hev : Forall (fun p => depth height A views [] p <= fuel) events.*1).
  { eapply Forall_impl; [exact Hok|]. intros p Hp. unfold depth.
    rewrite list_difference_nil_r. exact Hp. }
  specialize (Hfire Hev m Hm). intros Hd. rewrite Hd in Hfire. exact Hfire.
Qed.

Lemma first_event_bounded height A views fuel propName v dc m :
  layered height A views m ->
  length views * (A + 1) + A <= fuel ->
  first_event fuel propName v dc m <> Diverged.
Proof.
  intros (_ & Hb & Hr & _) Hfuel. unfold first_event.
  destruct (dc v VUndefined); [|discriminate].
  apply (fire_depth_bounded height A views); [apply ranked_of_listeners, Hr|].
  constructor; [|constructor]. simpl. specialize (Hb (changed propName)). lia.
Qed.

(** X16.  The dependencies of a derived property and the base of a view
    must exist when the property is defined, so the listeners of a store
    built with the defining operations never form a cycle other than the
    one between a view and its base, which the view's flag cuts.  In a
    store built with views of properties that are not views themselves,
    every cascade therefore ends: there is a depth, which depends on the
    store only, within which every call of [set] -- whatever its validator
    and arguments, and whatever state earlier calls that threw have left
    the flags in -- and every further defining operation returns or
    throws. *)
Theorem built_cascades_end m :
  built plain_base m ->
  exists N, forall fuel, N <= fuel ->
    (forall pv args, _set fuel pv args m <> Diverged) /\
    (forall propName initialValue vv dc,
       defineProp fuel propName initialValue vv dc m <> Diverged) /\
    (forall propName dependsOn calc init dc,
       defineDerivedProp fuel propName dependsOn calc init dc m <> Diverged) /\
    (forall viewName viewOf calc r dc,
       plain_base viewOf m ->
       definePropView fuel viewName viewOf calc r dc m <> Diverged).
Proof.
  intros Hbuilt. destruct (built_layered m Hbuilt) as (height & A & views & Hl).
  exists ((length views + 1) * (A + 2) + A + 2). intros fuel Hfuel.
  pose proof Hl as (_ & Hb & Hr & _).
  split; [|split; [|split]].
  - intros pv args. destruct fuel as [|f]; [lia|].
    apply (set_depth_bounded height A views); [apply ranked_of_listeners, Hr|].
    apply Forall_forall. intros p _. specialize (Hb (changed p)). nia.
  - intros n init vv dc. destruct (known n m) eqn:Hp.
    + unfold defineProp.
      rewrite (bind_eq_Thrown _ _ _ _ _ (check_undefined_defined _ _ Hp)).
      discriminate.
    + rewrite defineProp_eq by exact Hp.
      apply (first_event_bounded height A views); [apply layered_entered, Hl | nia].
  - intros n deps calc init dc. intros Hd.
    destruct (known n m) eqn:Hp.
    { unfold defineDerivedProp in Hd.
      rewrite (bind_eq_Thrown _ _ _ _ _ (check_undefined_defined _ _ Hp)) in Hd.
      discriminate. }
    destruct (decide (Forall (fun dep => known dep m = true) deps)) as [Hdef|Hndef].
    + rewrite Forall_forall in Hdef.
      destruct (current_values_total deps m Hdef) as (vs & Hvs & _).
      rewrite (defineDerivedProp_eq fuel n deps calc init dc m vs Hp Hvs) in Hd.
      destruct (if typeof_undefined init then calc vs else Return init) as [v|payload];
        [|discriminate].
      revert Hd. apply (first_event_bounded (below n height) (S A) views).
      * apply layered_derived_entered; assumption.
      * nia.
    + apply not_Forall_Exists in Hndef; [|intros x; apply _].
      apply Exists_exists in Hndef as (k & Hk & Hnone).
      assert (Hknone : known k m = false).
      { unfold compose in Hnone. destruct (known k m); [|reflexivity].
        exfalso. apply Hnone. reflexivity. }
      destruct (createUtilizer_unknown deps calc m k Hk Hknone) as (k' & _ & _ & Hu).
      unfold defineDerivedProp in Hd.
      rewrite (bind_eq_Returned _ _ _ _ _ (check_undefined_fresh _ _ Hp)) in Hd.
      rewrite (bind_eq_Thrown _ _ _ _ _ Hu) in Hd. discriminate.
  - intros v b calc r dc Hplain Hd.
    destruct (known v m) eqn:Hp.
    { unfold definePropView in Hd.
      rewrite (bind_eq_Thrown _ _ _ _ _ (check_undefined_defined _ _ Hp)) in Hd.
      discriminate. }
    destruct (known b m) eqn:Hq.
    + destruct (proj2 (read_known b m) Hq) as [base Hbase].
      rewrite (definePropView_eq fuel v b calc r dc m base Hp Hbase) in Hd.
      destruct (calc base) as [x|payload]; [|discriminate].
      revert Hd. apply (first_event_bounded (below v height) (S A) (v :: views)).
      * apply layered_view_entered; [exact Hp | exact Hq | exact Hplain | exact Hl].
      * simpl. nia.
    + rewrite (definePropView_unknown_base fuel v b calc r dc m Hp Hq) in Hd.
      discriminate.
Qed.

Lemma built_cascades_end_witness :
  exists N, forall fuel, N <= fuel ->
    (forall pv args, _set fuel pv args magnitude_doubled <> Diverged) /\
    (forall propName initialValue vv dc,
       defineProp fuel propName initialValue vv dc magnitude_doubled <> Diverged) /\
    (forall propName dependsOn calc init dc,
       defineDerivedProp fuel propName dependsOn calc init dc magnitude_doubled
       <> Diverged) /\
    (forall viewName viewOf calc r dc,
       plain_base viewOf magnitude_doubled ->
       definePropView fuel viewName viewOf calc r dc magnitude_doubled <> Diverged).
Proof.
  apply (built_cascades_end magnitude_doubled). apply built_magnitude_doubled.
Defined.

(** ** Stores no call has thrown on *)

Lemma triggered_assigned propValues m : triggered (assigned propValues m) = triggered m.
Proof.
  revert m. induction propValues as [|[k v] rest IH]; intros m; [reflexivity|].
  unfold assigned in *. simpl. rewrite IH. reflexivity.
Qed.

Lemma flags_within_lowered F w m :
  flags_within (fun x => x = w \/ F x) m -> flags_within F (set_triggered w false m).
Proof.
  intros H x Hx. unfold is_triggered in Hx. simpl in Hx.
  destruct (decide (x = w)) as [->|Hne].
  - rewrite lookup_insert_eq in Hx. discriminate.
  - rewrite lookup_insert_ne in Hx by congruence. destruct (H x Hx); [contradiction|auto].
Qed.

Lemma flags_within_raised F w m :
  flags_within F m -> flags_within (fun x => x = w \/ F x) (set_triggered w true m).
Proof.
  intros H x Hx. unfold is_triggered in Hx. simpl in Hx.
  destruct (decide (x = w)) as [->|Hne]; [left; reflexivity|].
  rewrite lookup_insert_ne in Hx by congruence. right. apply H, Hx.
Qed.

Lemma flags_bind F {A B} (c : M A) (k : A -> M B) :
  leads (flags_within F) c (flags_within F) ->
  (forall a, leads (flags_within F) (k a) (flags_within F)) ->
  leads (flags_within F) (bind c k) (flags_within F).
Proof. apply leads_bind. Qed.

(** A call that returns leaves no flag up that was not up before it. *)
Section Flags.
Variable set_rec : propValidator -> setArgs -> M unit.
Hypothesis set_rec_flags : forall F pv args,
  leads (flags_within F) (set_rec pv args) (flags_within F).

Lemma handler_flags F h p n o :
  leads (flags_within F) (run_handler set_rec h p n o) (flags_within F).
Proof.
  destruct h as [t u|w u|w b r]; unfold run_handler.
  - apply flags_bind; [apply leads_pure, pure_call_utilizer|]. intros v.
    apply set_rec_flags.
  - intros m Hm. change (bind this ?k m) with (k m m). cbv beta.
    destruct (is_triggered w m); [exact Hm|]. revert m Hm.
    apply flags_bind; [apply leads_pure, pure_call_utilizer|]. intros v.
    apply set_rec_flags.
  - apply flags_bind; [apply leads_pure, pure_get|]. intros base.
    apply flags_bind; [apply leads_pure, pure_this|]. intros m1.
    apply flags_bind; [apply leads_pure, pure_complete|]. intros x.
    apply (leads_bind _ _ _ (flags_within (fun x => x = w \/ F x)));
      [apply leads_update; intros m; apply (flags_within_raised F w)|].
    intros u1.
    apply (leads_bind _ _ _ (flags_within (fun x => x = w \/ F x)));
      [apply set_rec_flags|].
    intros u2. apply leads_update. intros m. apply flags_within_lowered.
Qed.

Lemma fire_flags F events :
  leads (flags_within F) (_firePropChangeEvents set_rec events) (flags_within F).
Proof.
  intros m Hm. rewrite fire_as_steps.
  generalize (bool_decide (length (_firedProps m) = 0)). intros first. revert m Hm.
  apply (leads_bind _ _ _ (flags_within F)).
  - apply leads_forEach. intros [p [n o]] _. unfold step_of. simpl.
    apply flags_bind; [apply leads_update; intros m Hm; exact Hm|]. intros u1.
    unfold emit_changed.
    apply flags_bind; [apply leads_update; intros m Hm; exact Hm|]. intros u2.
    intros m Hm. change (bind this ?k m) with (k m m). cbv beta.
    refine (leads_forEach (flags_within F) _ _ _ m Hm).
    intros h _. apply handler_flags.
  - intros u m Hm. destruct first; [|exact Hm].
    unfold emit_chain_completed, bind, this, update. simpl. exact Hm.
Qed.

Lemma set_body_flags F pv args :
  leads (flags_within F) (_set_body set_rec pv args) (flags_within F).
Proof.
  intros m Hm. destruct (_set_body set_rec pv args m) as [[] m'|e m'|] eqn:H;
    [|exact Logic.I | exact Logic.I].
  destruct args as [p v|propValues].
  - rewrite set_one_unfold in H.
    destruct (_props m !! p) as [q|];
      [|destruct (inherited p); [destruct (pv m p)|]; discriminate].
    destruct (pv m p); [discriminate|].
    destruct (valueValidator q v); [discriminate|].
    destruct (didChange q v (value q)).
    + pose proof (fire_flags F [(p, (v, value q))] (assign p v m) Hm) as Hf.
      unfold _firePropChangeEvent in H. rewrite H in Hf. exact Hf.
    + inversion H; subst. exact Hm.
  - apply set_many_Returned in H as (changeEvents & _ & Hfire).
    pose proof (fire_flags F changeEvents (assigned propValues m)) as Hf.
    rewrite Hfire in Hf. apply Hf.
    intros w Hw. apply Hm. unfold is_triggered in *.
    rewrite triggered_assigned in Hw. exact Hw.
Qed.
End Flags.

Lemma set_flags fuel F pv args :
  leads (flags_within F) (_set fuel pv args) (flags_within F).
Proof.
  revert F pv args. induction fuel as [|fuel IH]; intros F pv args.
  - intros m Hm. exact Logic.I.
  - rewrite _set_S. apply set_body_flags. exact IH.
Qed.

Lemma first_event_flags fuel F propName v dc :
  leads (flags_within F) (first_event fuel propName v dc) (flags_within F).
Proof.
  unfold first_event. destruct (dc v VUndefined).
  - apply fire_flags. intros; apply set_flags.
  - intros m Hm. exact Hm.
Qed.

Lemma fire_Returned_batch fuel events m m' :
  _firedProps m = [] ->
  _firePropChangeEvents (_set fuel) events m = Returned tt m' -> _firedProps m' = [].
Proof.
  intros Hb H. apply fire_settles in H as (cascade & _ & _ & Hf); assumption.
Qed.

Lemma set_Returned_batch fuel pv args m m' :
  _firedProps m = [] -> _set fuel pv args m = Returned tt m' -> _firedProps m' = [].
Proof.
  intros Hb H. destruct fuel as [|fuel]; [discriminate|]. rewrite _set_S in H.
  destruct args as [p v|propValues].
  - rewrite set_one_unfold in H.
    destruct (_props m !! p) as [q|];
      [|destruct (inherited p); [destruct (pv m p)|]; discriminate].
    destruct (pv m p); [discriminate|].
    destruct (valueValidator q v); [discriminate|].
    destruct (didChange q v (value q)).
    + eapply fire_Returned_batch; [|exact H]. exact Hb.
    + inversion H; subst. exact Hb.
  - apply set_many_Returned in H as (changeEvents & _ & Hfire).
    eapply fire_Returned_batch; [|exact Hfire]. rewrite firedProps_assigned. exact Hb.
Qed.

Lemma first_event_Returned_batch fuel propName v dc m m' :
  _firedProps m = [] ->
  first_event fuel propName v dc m = Returned tt m' -> _firedProps m' = [].
Proof.
  intros Hb. unfold first_event. destruct (dc v VUndefined).
  - apply fire_Returned_batch, Hb.
  - intros H. inversion H; subst. exact Hb.
Qed.

Lemma at_rest_first_event fuel propName v dc m m' :
  _firedProps m = [] -> flags_within (fun _ => False) m ->
  first_event fuel propName v dc m = Returned tt m' ->
  _firedProps m' = [] /\ flags_within (fun _ => False) m'.
Proof.
  intros Hb Hf H. split; [eapply first_event_Returned_batch; eauto|].
  pose proof (first_event_flags fuel (fun _ => False) propName v dc m Hf) as Hl.
  rewrite H in Hl. exact Hl.
Qed.

Lemma firedProps_subscribe_all names h m :
  _firedProps (subscribe_all names h m) = _firedProps m.
Proof.
  unfold subscribe_all. revert m.
  induction names as [|n names IH]; intros m; [reflexivity|]. simpl. rewrite IH. reflexivity.
Qed.

Lemma triggered_subscribe_all names h m :
  triggered (subscribe_all names h m) = triggered m.
Proof.
  unfold subscribe_all. revert m.
  induction names as [|n names IH]; intros m; [reflexivity|]. simpl. rewrite IH. reflexivity.
Qed.

Lemma at_rest_derived_entered d deps calc v dc m :
  _firedProps m = [] /\ flags_within (fun _ => False) m ->
  _firedProps (derived_entered d deps calc v dc m) = [] /\
  flags_within (fun _ => False) (derived_entered d deps calc v dc m).
Proof.
  intros [Hb Hf]. unfold derived_entered. split.
  - rewrite firedProps_subscribe_all. exact Hb.
  - intros w Hw. apply (Hf w). unfold is_triggered in *.
    rewrite triggered_subscribe_all in Hw. exact Hw.
Qed.

Lemma at_rest_view_entered v b calc r x dc m :
  _firedProps m = [] /\ flags_within (fun _ => False) m ->
  _firedProps (view_entered v b calc r x dc m) = [] /\
  flags_within (fun _ => False) (view_entered v b calc r x dc m).
Proof.
  intros [Hb Hf]. unfold view_entered. split.
  - rewrite !firedProps_subscribe_all. exact Hb.
  - intros w Hw. unfold is_triggered in Hw. rewrite !triggered_subscribe_all in Hw.
    exact (flags_within_lowered (fun _ => False) v m
             ltac:(intros y Hy; right; exact (Hf y Hy)) w Hw).
Qed.

(** X17.  As long as no call has thrown, the store is at rest between
    calls: in a store reached from a new one by calls of the defining
    operations and of [set] that all returned, the batch of fired names is
    empty and no view's flag is up.  The next outermost [set] therefore
    starts a chain of its own and ends it with a settle notification, and
    no recomputation of a view is muted from the start. *)
Theorem settled_store_at_rest m :
  settled m ->
  _firedProps m = [] /\ forall viewName, is_triggered viewName m = false.
Proof.
  intros Hs.
  assert (H : _firedProps m = [] /\ flags_within (fun _ => False) m).
  { induction Hs as [|fuel n init vv dc m m' _ [Hb Hf] H
                     |fuel n deps calc init dc m m' _ [Hb Hf] H
                     |fuel v b calc r dc m m' _ [Hb Hf] H
                     |fuel pv args m m' _ [Hb Hf] H].
    - split; [reflexivity|]. intros w Hw. unfold is_triggered in Hw. simpl in Hw.
      rewrite lookup_empty in Hw. discriminate.
    - destruct (known n m) eqn:Hp.
      { unfold defineProp in H.
        rewrite (bind_eq_Thrown _ _ _ _ _ (check_undefined_defined _ _ Hp)) in H.
        discriminate. }
      rewrite defineProp_eq in H by exact Hp.
      eapply at_rest_first_event; [| |exact H]; assumption.
    - assert (Hout : state_of (defineDerivedProp fuel n deps calc init dc m) = Some m')
        by (rewrite H; reflexivity).
      apply defineDerivedProp_outcome in Hout as [->|(Hfresh & Hdeps & _)]; [auto|].
      destruct (current_values_total deps m Hdeps) as (vs & Hvs & _).
      rewrite (defineDerivedProp_eq fuel n deps calc init dc m vs Hfresh Hvs) in H.
      destruct (if typeof_undefined init then calc vs else Return init) as [x|payload];
        [|discriminate].
      destruct (at_rest_derived_entered n deps calc x dc m (conj Hb Hf)) as [Hb1 Hf1].
      eapply at_rest_first_event; [| |exact H]; assumption.
    - assert (Hout : state_of (definePropView fuel v b calc r dc m) = Some m')
        by (rewrite H; reflexivity).
      apply definePropView_outcome in Hout as [->|(Hfresh & Hq & _)]; [auto|].
      destruct (proj2 (read_known b m) Hq) as [base Hbase].
      rewrite (definePropView_eq fuel v b calc r dc m base Hfresh Hbase) in H.
      destruct (calc base) as [x|payload]; [|discriminate].
      destruct (at_rest_view_entered v b calc r x dc m (conj Hb Hf)) as [Hb1 Hf1].
      eapply at_rest_first_event; [| |exact H]; assumption.
    - split; [eapply set_Returned_batch; eauto|].
      pose proof (set_flags fuel (fun _ => False) pv args m Hf) as Hl.
      rewrite H in Hl. exact Hl. }
  destruct H as [Hb Hf]. split; [exact Hb|]. intros w.
  destruct (is_triggered w m) eqn:Hw; [|reflexivity]. destruct (Hf w Hw).
Qed.

Lemma settled_magnitude_doubled : settled magnitude_doubled.
Proof.
  unfold magnitude_doubled.
  apply (settled_defineDerivedProp 4 "double" ["size"] twice VUndefined
           defaultDidChange magnitude); [|vm_compute; reflexivity].
  unfold magnitude.
  apply (settled_definePropView 4 "size" "number" magnitude_of
           (fun _ v _ => Return v) defaultDidChange
           (after (defineProp 4 "number" (VNum 1) NOOP defaultDidChange) newPropsModel));
    [|vm_compute; reflexivity].
  apply (settled_defineProp 4 "number" (VNum 1) NOOP defaultDidChange newPropsModel);
    [apply settled_new | vm_compute; reflexivity].
Qed.

Lemma settled_store_at_rest_witness :
  _firedProps magnitude_doubled = [] /\
  forall viewName, is_triggered viewName magnitude_doubled = false.
Proof.
  apply (settled_store_at_rest magnitude_doubled). apply settled_magnitude_doubled.
Defined.

(** ** The JSON account of the properties *)










(** ** Accessors *)

Section AccessorsAttached.
Variable capitalize : string -> string.

Lemma check_all_access_None rv wv m propertyAccess :
  check_all_access rv wv m propertyAccess = None <->
  forall entry, entry ∈ propertyAccess -> check_access rv wv m entry = None.
Proof.
  induction propertyAccess as [|entry rest IH]; simpl.
  - split; [intros _ e He; inversion He | reflexivity].
  - destruct (check_access rv wv m entry) eqn:Hc.
    + split; [discriminate|]. intros H. specialize (H entry ltac:(left)). congruence.
    + rewrite IH. split.
      * intros H e He. apply elem_of_cons in He as [->|He]; [exact Hc | apply H, He].
      * intros H e He. apply H. right. exact He.
Qed.


(** What passing the check says of an entry. *)
Lemma check_access_None rv wv m propName access :
  check_access rv wv m (propName, access) = None ->
  known propName m = true /\
  ((toLowerCase access = "readonly" /\ rv m propName = None) \/
   (toLowerCase access = "readwrite" /\ rv m propName = None /\ wv m propName = None) \/
   toLowerCase access = "none").
Proof.
  unfold check_access. destruct (known propName m); [|discriminate].
  intros H. split; [reflexivity|].
  destruct (decide (toLowerCase access = "readonly")) as [Hro|Hnro].
  - left. split; [exact Hro|]. destruct (rv m propName); [discriminate | reflexivity].
  - destruct (decide (toLowerCase access = "readwrite")) as [Hrw|Hnrw].
    + right. left. split; [exact Hrw|].
      destruct (rv m propName); [discriminate|]. split; [reflexivity|].
      destruct (wv m propName); [discriminate | reflexivity].
    + destruct (decide (toLowerCase access = "none")); [|discriminate]. right. right.
      assumption.
Qed.

Lemma getter_name_eq x y : "get" +:+ x = "get" +:+ y -> x = y.
Proof. intros H. injection H. auto. Qed.

Lemma getter_name_ne_setter x y : "get" +:+ x <> "set" +:+ y.
Proof. intros H. discriminate H. Qed.

(** Where a member of the target comes from. *)
Lemma attach_from target entry f a :
  attach capitalize target entry !! f = Some a ->
  target !! f = Some a \/
  (f = "get" +:+ capitalize entry.1 /\ a = Getter entry.1 /\ readable entry.2) \/
  (f = "set" +:+ capitalize entry.1 /\ a = Setter entry.1 /\
   toLowerCase entry.2 = "readwrite").
Proof.
  destruct entry as [p access]. unfold attach, readable. simpl.
  destruct (decide (toLowerCase access = "readonly")) as [Hro|Hnro].
  - intros H. destruct (decide (f = "get" +:+ capitalize p)) as [->|Hne].
    + rewrite lookup_insert_eq in H. inversion H. right. left. auto.
    + rewrite lookup_insert_ne in H by congruence. left. exact H.
  - destruct (decide (toLowerCase access = "readwrite")) as [Hrw|Hnrw]; [|auto].
    intros H. destruct (decide (f = "set" +:+ capitalize p)) as [->|Hne].
    + rewrite lookup_insert_eq in H. inversion H. right. right. auto.
    + rewrite lookup_insert_ne in H by congruence.
      destruct (decide (f = "get" +:+ capitalize p)) as [->|Hne2].
      * rewrite lookup_insert_eq in H. inversion H. right. left. auto.
      * rewrite lookup_insert_ne in H by congruence. left. exact H.
Qed.

Lemma foldl_attach_from propertyAccess target f a :
  foldl (attach capitalize) target propertyAccess !! f = Some a ->
  target !! f = Some a \/
  exists entry, entry ∈ propertyAccess /\
    ((f = "get" +:+ capitalize entry.1 /\ a = Getter entry.1 /\ readable entry.2) \/
     (f = "set" +:+ capitalize entry.1 /\ a = Setter entry.1 /\
      toLowerCase entry.2 = "readwrite")).
Proof.
  revert target. induction propertyAccess as [|entry rest IH]; intros target H.
  - left. exact H.
  - simpl in H. apply IH in H as [H|(e & He & H)].
    + apply attach_from in H as [H|H]; [left; exact H|].
      right. exists entry. split; [left | exact H].
    + right. exists e. split; [right; exact He | exact H].
Qed.

(** The members attached when [_installAccessors] returns. *)
Lemma installAccessors_attached rv wv target propertyAccess m target' f a :
  _installAccessors capitalize rv wv target propertyAccess m = inr target' ->
  target' !! f = Some a ->
  target !! f = Some a \/
  (exists propName access,
     (propName, access) ∈ propertyAccess /\
     known propName m = true /\ rv m propName = None /\
     ((f = "get" +:+ capitalize propName /\ a = Getter propName /\ readable access) \/
      (f = "set" +:+ capitalize propName /\ a = Setter propName /\
       toLowerCase access = "readwrite" /\ wv m propName = None))).
Proof.
  intros H Hf. unfold _installAccessors in H.
  destruct (check_all_access rv wv m propertyAccess) eqn:Hc; [discriminate|].
  inversion H; subst target'. clear H.
  apply foldl_attach_from in Hf as [Hf|([p access] & Hin & Hf)]; [left; exact Hf|].
  right. exists p, access. split; [exact Hin|].
  pose proof (proj1 (check_all_access_None rv wv m propertyAccess) Hc _ Hin) as Hok.
  apply check_access_None in Hok as [Hdef Hok]. split; [exact Hdef|]. simpl in Hf.
  destruct Hf as [(-> & -> & Hacc)|(-> & -> & Hacc)].
  - destruct Hok as [[_ Hrv]|[[_ [Hrv _]]|Hnone]].
    + split; [exact Hrv|]. left. auto.
    + split; [exact Hrv|]. left. auto.
    + destruct Hacc as [Hacc|Hacc]; rewrite Hacc in Hnone; discriminate.
  - destruct Hok as [[Hro _]|[[_ [Hrv Hwv]]|Hnone]].
    + rewrite Hacc in Hro. discriminate.
    + split; [exact Hrv|]. right. auto.
    + rewrite Hacc in Hnone. discriminate.
Qed.

End AccessorsAttached.



Section AccessorsCalled.
Variable capitalize : string -> string.

Lemma written_static m m' : written m m' -> static_same m m'.
Proof.
  induction 1 as [|fuel pv args m1 m2 _ IH H]; [apply static_same_refl|].
  eapply static_same_trans; [exact IH|]. eapply set_outcome_static, H.
Qed.

Lemma set_validated fuel pv propName v m :
  pv m propName = None ->
  _set fuel pv (SetOne propName v) m = _set fuel noValidator (SetOne propName v) m.
Proof.
  intros Hpv. destruct fuel; [reflexivity|]. rewrite !_set_S, !set_one_unfold.
  unfold noValidator. rewrite Hpv. reflexivity.
Qed.

Lemma get_validated rv propName m :
  rv m propName = None -> known propName m = true ->
  call_getter propName m = _get rv propName m.
Proof.
  intros Hrv Hp. rewrite get_unfold, Hrv. unfold call_getter, the_value.
  destruct (proj2 (read_known propName m) Hp) as [v ->]. reflexivity.
Qed.

Lemma standard_write_validator_static m m' propName :
  static_same m m' -> createStandardWriteValidator m propName = None ->
  createStandardWriteValidator m' propName = None.
Proof.
  intros Hs. unfold createStandardWriteValidator.
  destruct (_props m !! propName) as [p|] eqn:Hp.
  - destruct (static_same_lookup _ _ _ _ Hs Hp) as (q & -> & Hq).
    unfold shape in Hq. inversion Hq as [Hd]. rewrite Hd. auto.
  - destruct (_props m' !! propName) as [q|] eqn:Hq; [|auto].
    destruct (proj2 (static_same_defined m m' propName Hs) ltac:(eauto)). congruence.
Qed.

(** Accessors that were installed under validators whose verdict stays
    while the properties and their kinds stay. *)
Lemma accessors_match rv wv target propertyAccess m target' f a m' :
  (forall n, rv m n = None -> rv m' n = None) ->
  (forall n, wv m n = None -> wv m' n = None) ->
  _installAccessors capitalize rv wv target propertyAccess m = inr target' ->
  target' !! f = Some a -> target !! f <> Some a -> static_same m m' ->
  match a with
  | Getter propName => call_getter propName m' = _get rv propName m'
  | Setter propName =>
      forall fuel v,
        call_setter fuel propName v m' = _set fuel wv (SetOne propName v) m'
  end.
Proof.
  intros Hrv Hwv H Hf Hnew Hs.
  destruct (installAccessors_attached _ _ _ _ _ _ _ _ _ H Hf)
    as [Hold|(p & access & _ & Hdef & Hr & Hnew')]; [contradiction|].
  destruct Hnew' as [(_ & -> & _)|(_ & -> & _ & Hw)].
  - apply get_validated; [apply Hrv, Hr|]. rewrite (static_same_known m m' _ Hs). exact Hdef.
  - intros fuel v. unfold call_setter. symmetry. apply set_validated, Hwv, Hw.
Qed.

End AccessorsCalled.

(** X20.  The accessors [_installAccessors] attaches call no validator:
    the getter reads [this._props[propName].value] and the setter calls
    [_set] with a validator that accepts everything.  For the two
    standard facades this loses nothing: in every store reached by later
    calls of [_set], a getter installed through the facade does what the
    facade's [get] does and a setter does what the facade's [set] does,
    because whether a property is derived (and its name) never changes. *)
Theorem standard_accessors_match_facade capitalize target propertyAccess m target' f a m' :
  written m m' ->
  target !! f <> Some a -> target' !! f = Some a ->
  (getStandardPrivateApi_installAccessors capitalize target propertyAccess m
   = inr target' ->
   match a with
   | Getter propName => call_getter propName m' = api_get getStandardPrivateApi propName m'
   | Setter propName =>
       forall fuel v,
         call_setter fuel propName v m'
         = api_set getStandardPrivateApi fuel (SetOne propName v) m'
   end) /\
  (getStandardPublicApi_installAccessors capitalize target propertyAccess m
   = inr target' ->
   match a with
   | Getter propName => call_getter propName m' = api_get getStandardPublicApi propName m'
   | Setter propName =>
       forall fuel v,
         call_setter fuel propName v m'
         = api_set getStandardPublicApi fuel (SetOne propName v) m'
   end).
Proof.
  intros Hw Hnew Hf. apply written_static in Hw. split; intros H.
  - refine (accessors_match capitalize _ _ _ _ _ _ _ _ _ _ _ H Hf Hnew Hw).
    + intros n Hn. exact Hn.
    + intros n. apply standard_write_validator_static, Hw.
  - refine (accessors_match capitalize _ _ _ _ _ _ _ _ _ _ _ H Hf Hnew Hw).
    + intros n Hn. exact Hn.
    + intros n. unfold assertPropNameIsPublic. simpl.
      destruct (propNameIsPublic n); [|discriminate].
      apply standard_write_validator_static, Hw.
Qed.

Lemma standard_accessors_match_facade_witness :
  let m' := after (set 4 (SetOne "length" (VNum 3))) rectangle in
  call_setter 4 "width" (VNum 5) m'
  = api_set getStandardPrivateApi 4 (SetOne "width" (VNum 5)) m'.
Proof.
  cbv zeta.
  assert (Hw : written rectangle (after (set 4 (SetOne "length" (VNum 3))) rectangle)).
  { apply (written_set _ 4 noValidator (SetOne "length" (VNum 3)) rectangle);
      [apply written_now | vm_compute; reflexivity]. }
  assert (Hnew : (∅ : gmap string accessor) !! "setWidth" <> Some (Setter "width")).
  { rewrite lookup_empty. discriminate. }
  assert (Hf : foldl (attach capitalize_ascii) ∅ [("width", "readwrite")] !! "setWidth"
               = Some (Setter "width")).
  { vm_compute. reflexivity. }
  assert (H : getStandardPrivateApi_installAccessors capitalize_ascii ∅
                [("width", "readwrite")] rectangle
              = inr (foldl (attach capitalize_ascii) ∅ [("width", "readwrite")])).
  { vm_compute. reflexivity. }
  exact (proj1 (standard_accessors_match_facade capitalize_ascii ∅
                  [("width", "readwrite")] rectangle
                  _ "setWidth" (Setter "width") _ Hw Hnew Hf) H 4 (VNum 5)).
Defined.

Section AccessorsCollide.
Variable capitalize : string -> string.

(** A member that an entry does not name is left alone. *)
Lemma attach_other target entry name :
  (readable entry.2 -> capitalize entry.1 <> name) ->
  attach capitalize target entry !! ("get" +:+ name) = target !! ("get" +:+ name).
Proof.
  destruct entry as [p access]. unfold attach, readable. simpl. intros Hne.
  destruct (decide (toLowerCase access = "readonly")) as [Hro|Hnro].
  - apply lookup_insert_ne. intros Heq. apply getter_name_eq in Heq. apply Hne; auto.
  - destruct (decide (toLowerCase access = "readwrite")) as [Hrw|Hnrw]; [|reflexivity].
    rewrite lookup_insert_ne by (intros Heq; symmetry in Heq;
                                 exact (getter_name_ne_setter _ _ Heq)).
    apply lookup_insert_ne. intros Heq. apply getter_name_eq in Heq. apply Hne; auto.
Qed.

Lemma foldl_attach_other propertyAccess target name :
  (forall entry, entry ∈ propertyAccess -> readable entry.2 ->
                 capitalize entry.1 <> name) ->
  foldl (attach capitalize) target propertyAccess !! ("get" +:+ name)
  = target !! ("get" +:+ name).
Proof.
  revert target. induction propertyAccess as [|entry rest IH]; intros target H.
  - reflexivity.
  - simpl. rewrite IH by (intros e He; apply H; right; exact He).
    apply attach_other. apply H. left.
Qed.

Lemma attach_getter target propName access :
  readable access ->
  attach capitalize target (propName, access) !! ("get" +:+ capitalize propName)
  = Some (Getter propName).
Proof.
  unfold attach, readable. simpl. intros Hacc.
  destruct (decide (toLowerCase access = "readonly")) as [Hro|Hnro].
  - apply lookup_insert_eq.
  - destruct (decide (toLowerCase access = "readwrite")) as [Hrw|Hnrw].
    + rewrite lookup_insert_ne by (intros Heq; symmetry in Heq;
                                   exact (getter_name_ne_setter _ _ Heq)).
      apply lookup_insert_eq.
    + destruct Hacc; contradiction.
Qed.

End AccessorsCollide.

(** X21.  The name of an accessor is made from the property's name with
    its first character in upper case, so two properties whose names have
    the same capitalized form -- whatever the upper case of a first
    character is -- get the same accessor names, and [_installAccessors]
    throws nothing for it: the getter attached under get<Name> is that of
    the last entry with access 'readonly' or 'readwrite' that has this
    name, and no member of the target is the getter of any other property
    with this name.  The names [width] and [Width] are such a pair. *)
Theorem colliding_accessors_last_wins capitalize rv wv target pre propName access post m
    target' :
  _installAccessors capitalize rv wv target (pre ++ (propName, access) :: post) m
  = inr target' ->
  readable access ->
  (forall entry, entry ∈ post -> readable entry.2 ->
                 createAccessorNames capitalize entry.1 ["get"]
                 <> createAccessorNames capitalize propName ["get"]) ->
  (target' !!.) <$> createAccessorNames capitalize propName ["get"]
  = [Some (Getter propName)] /\
  (forall other,
     other <> propName ->
     createAccessorNames capitalize other ["get"]
     = createAccessorNames capitalize propName ["get"] ->
     (forall f, target !! f <> Some (Getter other)) ->
     forall f, target' !! f <> Some (Getter other)).
Proof.
  intros H Hacc Hpost.
  assert (Hget : target' !! ("get" +:+ capitalize propName) = Some (Getter propName)).
  { unfold _installAccessors in H.
    destruct (check_all_access rv wv m (pre ++ (propName, access) :: post)); [discriminate|].
    inversion H; subst target'. rewrite foldl_app. simpl.
    rewrite foldl_attach_other; [apply attach_getter, Hacc|].
    intros entry He Hr Heq. apply (Hpost entry He Hr).
    unfold createAccessorNames. simpl. rewrite Heq. reflexivity. }
  split.
  - unfold createAccessorNames. simpl. rewrite Hget. reflexivity.
  - intros other Hne Hsame Hold f Hf.
    destruct (installAccessors_attached _ _ _ _ _ _ _ _ _ H Hf)
      as [Hin|(p & a & _ & _ & _ & [(-> & Hp & _)|(_ & Hp & _)])].
    + exact (Hold f Hin).
    + inversion Hp; subst p. unfold createAccessorNames in Hsame. simpl in Hsame.
      inversion Hsame as [Hname].
      change (capitalize other = capitalize propName) in Hname. rewrite Hname in Hf.
      rewrite Hget in Hf. inversion Hf. congruence.
    + discriminate Hp.
Qed.

Lemma colliding_accessors_last_wins_witness :
  let propertyAccess := [("width", "readonly"); ("Width", "readonly")] in
  let target' := foldl (attach capitalize_ascii) ∅ propertyAccess in
  installAccessors capitalize_ascii ∅ propertyAccess rectangle_Width = inr target' /\
  (target' !!.) <$> createAccessorNames capitalize_ascii "Width" ["get"]
  = [Some (Getter "Width")] /\
  (forall f, target' !! f <> Some (Getter "width")).
Proof.
  cbv zeta.
  assert (H : _installAccessors capitalize_ascii noValidator noValidator ∅
                ([("width", "readonly")] ++ ("Width", "readonly") :: []) rectangle_Width
              = inr (foldl (attach capitalize_ascii) ∅
                       [("width", "readonly"); ("Width", "readonly")])).
  { vm_compute. reflexivity. }
  split; [exact H|].
  destruct (colliding_accessors_last_wins _ _ _ _ _ _ _ _ _ _ H) as [Hlast Hnone].
  - left. reflexivity.
  - intros entry He. inversion He.
  - split; [exact Hlast|]. apply Hnone.
    + discriminate.
    + reflexivity.
    + intros f. rewrite lookup_empty. discriminate.
Defined.
